(** * The MCP App host bridge of botdojo-chat-sdk: a shallow embedding

    The development follows the TypeScript sources:
    - [Js]: the JavaScript values and built-ins the sources rely on;
    - [McpUtils]: src/utils/mcpUtils.ts ([parseMaybeJson],
      [validateToolParams]);
    - [HostBridge]: the hook [useMcpHostBridge] (JSON-RPC requests, tool
      notifications, the initialize handshake and hydration);
    - [ChatProvider]: the provider's notification registry, tool routing
      and app-data cache ([BotDojoChatProvider]);
    - [Connector]: the resource URI templates of [BotDojoConnector];
    - [ReferenceJson]: a reader of JSON texts, standing for [JSON.parse]
      where an example needs one;
    - [StepUpdates]: [processStepUpdate] of src/utils/mcpUtils.ts and the
      bridge's [sendStepUpdate];
    - [Regex]: the regular expressions the sources test strings with;
    - [UiCsp]: src/utils/uiCsp.ts (the content security policy of an app);
    - [HtmlProxy], [ProxyUrl], [CacheKey]: src/utils/mcpHtmlProxy.ts
      (escaping, head injection, doctype; the proxy URL; the cache key);
    - [ResourceHtml]: the policy tag the provider puts into resolved HTML;
    - [RequestEvents]: the connector's [RequestEvents] class.

    The properties follow the embedding, one module of facts for each.

    Mutable refs become fields of an explicit state record that every
    operation takes and returns; what an operation sends ([postMessage],
    a sender callback, [resolve]/[reject]) is appended to a log kept in
    that record. *)

From Stdlib Require Import Ascii ZifyNat.
From stdpp Require Import gmap strings list fin_maps pretty.

#[local] Set Warnings "-register-all,-clear-no-such-hyp".

(** ** JavaScript values *)

Module Js.

(** The structured-clonable values that cross [postMessage] and [JSON.parse].
    Strings are sequences of code units below 256; numbers are the integers
    (ids, sizes and counters are all the protocol uses).  An object is the
    finite map of its own properties: a property that holds [undefined]
    is present in the map, an absent one is not. *)
Inductive Value : Type :=
  | VUndefined
  | VNull
  | VBool (b : bool)
  | VNum (n : Z)
  | VStr (s : string)
  | VArr (items : list Value)
  | VObj (fields : gmap string Value).

(** The outcome of an operation that may throw. *)
Inductive Completion (A : Type) : Type :=
  | Normal (a : A)
  | Throw (message : string).
Arguments Normal {A} a.
Arguments Throw {A} message.

(** [try { body } catch { handler }] *)
Definition try_catch {A} (body : Completion A) (handler : string → Completion A)
  : Completion A :=
  match body with
  | Normal a => Normal a
  | Throw e => handler e
  end.

Definition is_undefined (v : Value) : bool :=
  match v with VUndefined => true | _ => false end.

Definition is_null (v : Value) : bool :=
  match v with VNull => true | _ => false end.

(** [v === ''] *)
Definition is_empty_string (v : Value) : bool :=
  match v with VStr "" => true | _ => false end.

(** [v === s] for a string literal [s] *)
Definition is_string (s : string) (v : Value) : bool :=
  match v with VStr s' => bool_decide (s' = s) | _ => false end.

(** ToBoolean: what [if (v)], [!v], [a && b] and [a || b] test. *)
Definition truthy (v : Value) : bool :=
  match v with
  | VUndefined | VNull => false
  | VBool b => b
  | VNum n => negb (n =? 0)%Z
  | VStr s => negb (bool_decide (s = ""))
  | VArr _ | VObj _ => true
  end.

(** [typeof v === 'object'] (true of [null] and of arrays) *)
Definition typeof_object (v : Value) : bool :=
  match v with
  | VNull | VArr _ | VObj _ => true
  | _ => false
  end.

(** [typeof v === 'string'] *)
Definition typeof_string (v : Value) : bool :=
  match v with VStr _ => true | _ => false end.

(** [v?.k], and [v.k] where [v] is known not to be [undefined] or [null].
    The sources read only named protocol fields (never [length] or an
    index), which arrays and primitives do not have. *)
Definition get (v : Value) (k : string) : Value :=
  match v with
  | VObj fields => default VUndefined (fields !! k)
  | _ => VUndefined
  end.

(** ['k' in v] for an object [v] *)
Definition has (k : string) (v : Value) : bool :=
  match v with
  | VObj fields => bool_decide (is_Some (fields !! k))
  | _ => false
  end.

(** [Object.keys(v).length], called on objects and arrays only. *)
Definition Object_keys_length (v : Value) : nat :=
  match v with
  | VObj fields => size fields
  | VArr items => length items
  | _ => 0
  end.

(** [a || b] and [a ?? b] on values *)
Definition or_else (a b : Value) : Value := if truthy a then a else b.

Definition nullish_else (a b : Value) : Value :=
  match a with VUndefined | VNull => b | _ => a end.

(** [String(v)] *)
Fixpoint String_of (v : Value) : string :=
  match v with
  | VUndefined => "undefined"
  | VNull => "null"
  | VBool b => if b then "true" else "false"
  | VNum n => pretty n
  | VStr s => s
  | VArr items =>
      String.concat ","
        (map (λ x, match x with VUndefined | VNull => "" | _ => String_of x end)
           items)
  | VObj _ => "[object Object]"
  end.

(** White space as [String.prototype.trim] sees it, among code units
    below 256: TAB, LF, VT, FF, CR, SPACE and NBSP. *)
Definition is_white_space (c : ascii) : bool :=
  let n := nat_of_ascii c in
  bool_decide (9 ≤ n ≤ 13) || bool_decide (n = 32) || bool_decide (n = 160).

Fixpoint trim_start (s : string) : string :=
  match s with
  | String c s' => if is_white_space c then trim_start s' else s
  | EmptyString => EmptyString
  end.

Fixpoint trim_end (s : string) : string :=
  match s with
  | String c s' =>
      match trim_end s' with
      | EmptyString => if is_white_space c then EmptyString else String c EmptyString
      | rest => String c rest
      end
  | EmptyString => EmptyString
  end.

(** [s.trim()] *)
Definition trim (s : string) : string := trim_end (trim_start s).

(** [s.includes(sub)] *)
Fixpoint includes (sub s : string) : bool :=
  String.prefix sub s ||
  match s with
  | String _ s' => includes sub s'
  | EmptyString => false
  end.

(** Object literals. *)
Definition obj (fields : list (string * Value)) : Value :=
  VObj (list_to_map fields).

End Js.

Import Js.

(** ** src/utils/mcpUtils.ts *)

Module McpUtils.

(** [JSON.parse] is the runtime's: a partial function from texts to values
    that throws a [SyntaxError] on anything that is not a JSON text.  A JSON
    text holds at least one token, so a text that [trim] empties is none. *)
Class JsonParser : Type := {
  JSON_parse : string → Completion Value;
  JSON_parse_blank : ∀ s, trim s = "" → ∃ e, JSON_parse s = Throw e;
}.

(** The kinds ['partial'], ['input'] and ['result']. *)
Inductive Kind := kind_partial | kind_input | kind_result.

(** The function returns the last operand of an [&&] chain; callers only
    test it, so the model returns its truth value. *)
Definition validateToolParams (params : Value) (kind : Kind) : bool :=
  match kind with
  | kind_result =>
      let result := get params "result" in
      negb (is_undefined result) && negb (is_empty_string result)
  | _ =>
      let args := get params "arguments" in
      truthy args && negb (is_empty_string args) && typeof_object args
      && bool_decide (0 < Object_keys_length args)
  end.

Section WithJson.
Context `{JsonParser}.

Definition parseMaybeJson (value : Value) : Completion Value :=
  if is_undefined value || is_null value || is_empty_string value
  then Normal VUndefined
  else if typeof_object value then Normal value
  else
    match value with
    | VStr s =>
        if truthy (VStr (trim s))
        then try_catch (JSON_parse s) (λ _, Normal value)
        else Normal value
    | _ => Normal value
    end.

(** The value a call returns when it does not throw ([undefined] stands in
    for the other case, which [parseMaybeJson_returns] rules out). *)
Definition returned (c : Completion Value) : Value :=
  match c with Normal v => v | Throw _ => VUndefined end.

End WithJson.
End McpUtils.

(** ** The hook useMcpHostBridge *)

Module HostBridge.
Import McpUtils.

Inductive IframeState := idle | loading | initializing | ready.

#[global] Instance IframeState_eq_dec : EqDecision IframeState.
Proof. solve_decision. Defined.

(** The envelopes the host posts into the iframe:
    [{jsonrpc:'2.0', id, method, params}], [{jsonrpc:'2.0', method, params}],
    [{jsonrpc:'2.0', id, result}] and [{jsonrpc:'2.0', id, error:{code, message}}]. *)
Inductive Posted :=
  | PostRequest (id : string) (method : string) (params : Value)
  | PostNotification (method : string) (params : Value)
  | PostResult (id : Value) (result : Value)
  | PostError (id : Value) (code : Z) (message : string).

(** An entry of [pendingNotificationsRef]. *)
Record Notification := { method : string; params : Value }.

(** A call of a promise's [resolve] or [reject]; [RejectedError m] is
    [reject(new Error(m))]. *)
Inductive Settlement :=
  | Resolved (value : Value)
  | RejectedWith (error : Value)
  | RejectedError (message : string).

(** An entry of [pendingRequestsRef]: the promise whose [resolve] and
    [reject] it holds, and the handle of its timer. *)
Record PendingRequest := { pr_promise : nat; pr_timer : positive }.

(** The two callbacks the hook hands to [setTimeout] that the model covers:
    the timeout of [sendRequest] (its closure holds the request id, the
    promise's [reject] and the method) and [attemptSend]. *)
Inductive TimerCallback :=
  | RequestTimeout (id : string) (promise : nat) (method : string)
  | AttemptSend.

Record Timer := { due : nat; callback : TimerCallback }.

(** The refs and state of one hook instance, with the runtime around it:
    a millisecond clock, the timers scheduled and not yet run or cleared,
    the messages posted so far, and per promise the calls of its
    [resolve]/[reject] so far.  [contentWindow] tells whether
    [iframeRef.current?.contentWindow] is there.  [setIframeState] writes
    [iframeState]; the ref follows at the next render.  The content-key
    effect, the five-second initialization watchdog and [resetIframe] are
    outside the model. *)
Record Bridge := {
  iframeState : IframeState;
  iframeStateRef : IframeState;
  contentWindow : bool;
  pendingRequests : gmap string PendingRequest;
  nextRequestId : nat;
  initializeAttempts : nat;
  initializeTimer : option positive;
  pendingNotifications : list Notification;
  now : nat;
  timers : gmap positive Timer;
  nextTimer : positive;
  nextPromise : nat;
  posted : list Posted;
  settled : gmap nat (list Settlement);
}.

Definition set_iframeState (x : IframeState) (b : Bridge) : Bridge :=
  {| iframeState := x;
     iframeStateRef := iframeStateRef b;
     contentWindow := contentWindow b;
     pendingRequests := pendingRequests b;
     nextRequestId := nextRequestId b;
     initializeAttempts := initializeAttempts b;
     initializeTimer := initializeTimer b;
     pendingNotifications := pendingNotifications b;
     now := now b;
     timers := timers b;
     nextTimer := nextTimer b;
     nextPromise := nextPromise b;
     posted := posted b;
     settled := settled b |}.

Definition set_iframeStateRef (x : IframeState) (b : Bridge) : Bridge :=
  {| iframeState := iframeState b;
     iframeStateRef := x;
     contentWindow := contentWindow b;
     pendingRequests := pendingRequests b;
     nextRequestId := nextRequestId b;
     initializeAttempts := initializeAttempts b;
     initializeTimer := initializeTimer b;
     pendingNotifications := pendingNotifications b;
     now := now b;
     timers := timers b;
     nextTimer := nextTimer b;
     nextPromise := nextPromise b;
     posted := posted b;
     settled := settled b |}.

Definition set_contentWindow (x : bool) (b : Bridge) : Bridge :=
  {| iframeState := iframeState b;
     iframeStateRef := iframeStateRef b;
     contentWindow := x;
     pendingRequests := pendingRequests b;
     nextRequestId := nextRequestId b;
     initializeAttempts := initializeAttempts b;
     initializeTimer := initializeTimer b;
     pendingNotifications := pendingNotifications b;
     now := now b;
     timers := timers b;
     nextTimer := nextTimer b;
     nextPromise := nextPromise b;
     posted := posted b;
     settled := settled b |}.

Definition set_pendingRequests (x : gmap string PendingRequest) (b : Bridge) : Bridge :=
  {| iframeState := iframeState b;
     iframeStateRef := iframeStateRef b;
     contentWindow := contentWindow b;
     pendingRequests := x;
     nextRequestId := nextRequestId b;
     initializeAttempts := initializeAttempts b;
     initializeTimer := initializeTimer b;
     pendingNotifications := pendingNotifications b;
     now := now b;
     timers := timers b;
     nextTimer := nextTimer b;
     nextPromise := nextPromise b;
     posted := posted b;
     settled := settled b |}.

Definition set_nextRequestId (x : nat) (b : Bridge) : Bridge :=
  {| iframeState := iframeState b;
     iframeStateRef := iframeStateRef b;
     contentWindow := contentWindow b;
     pendingRequests := pendingRequests b;
     nextRequestId := x;
     initializeAttempts := initializeAttempts b;
     initializeTimer := initializeTimer b;
     pendingNotifications := pendingNotifications b;
     now := now b;
     timers := timers b;
     nextTimer := nextTimer b;
     nextPromise := nextPromise b;
     posted := posted b;
     settled := settled b |}.

Definition set_initializeAttempts (x : nat) (b : Bridge) : Bridge :=
  {| iframeState := iframeState b;
     iframeStateRef := iframeStateRef b;
     contentWindow := contentWindow b;
     pendingRequests := pendingRequests b;
     nextRequestId := nextRequestId b;
     initializeAttempts := x;
     initializeTimer := initializeTimer b;
     pendingNotifications := pendingNotifications b;
     now := now b;
     timers := timers b;
     nextTimer := nextTimer b;
     nextPromise := nextPromise b;
     posted := posted b;
     settled := settled b |}.

Definition set_initializeTimer (x : option positive) (b : Bridge) : Bridge :=
  {| iframeState := iframeState b;
     iframeStateRef := iframeStateRef b;
     contentWindow := contentWindow b;
     pendingRequests := pendingRequests b;
     nextRequestId := nextRequestId b;
     initializeAttempts := initializeAttempts b;
     initializeTimer := x;
     pendingNotifications := pendingNotifications b;
     now := now b;
     timers := timers b;
     nextTimer := nextTimer b;
     nextPromise := nextPromise b;
     posted := posted b;
     settled := settled b |}.

Definition set_pendingNotifications (x : list Notification) (b : Bridge) : Bridge :=
  {| iframeState := iframeState b;
     iframeStateRef := iframeStateRef b;
     contentWindow := contentWindow b;
     pendingRequests := pendingRequests b;
     nextRequestId := nextRequestId b;
     initializeAttempts := initializeAttempts b;
     initializeTimer := initializeTimer b;
     pendingNotifications := x;
     now := now b;
     timers := timers b;
     nextTimer := nextTimer b;
     nextPromise := nextPromise b;
     posted := posted b;
     settled := settled b |}.

Definition set_now (x : nat) (b : Bridge) : Bridge :=
  {| iframeState := iframeState b;
     iframeStateRef := iframeStateRef b;
     contentWindow := contentWindow b;
     pendingRequests := pendingRequests b;
     nextRequestId := nextRequestId b;
     initializeAttempts := initializeAttempts b;
     initializeTimer := initializeTimer b;
     pendingNotifications := pendingNotifications b;
     now := x;
     timers := timers b;
     nextTimer := nextTimer b;
     nextPromise := nextPromise b;
     posted := posted b;
     settled := settled b |}.

Definition set_timers (x : gmap positive Timer) (b : Bridge) : Bridge :=
  {| iframeState := iframeState b;
     iframeStateRef := iframeStateRef b;
     contentWindow := contentWindow b;
     pendingRequests := pendingRequests b;
     nextRequestId := nextRequestId b;
     initializeAttempts := initializeAttempts b;
     initializeTimer := initializeTimer b;
     pendingNotifications := pendingNotifications b;
     now := now b;
     timers := x;
     nextTimer := nextTimer b;
     nextPromise := nextPromise b;
     posted := posted b;
     settled := settled b |}.

Definition set_nextTimer (x : positive) (b : Bridge) : Bridge :=
  {| iframeState := iframeState b;
     iframeStateRef := iframeStateRef b;
     contentWindow := contentWindow b;
     pendingRequests := pendingRequests b;
     nextRequestId := nextRequestId b;
     initializeAttempts := initializeAttempts b;
     initializeTimer := initializeTimer b;
     pendingNotifications := pendingNotifications b;
     now := now b;
     timers := timers b;
     nextTimer := x;
     nextPromise := nextPromise b;
     posted := posted b;
     settled := settled b |}.

Definition set_nextPromise (x : nat) (b : Bridge) : Bridge :=
  {| iframeState := iframeState b;
     iframeStateRef := iframeStateRef b;
     contentWindow := contentWindow b;
     pendingRequests := pendingRequests b;
     nextRequestId := nextRequestId b;
     initializeAttempts := initializeAttempts b;
     initializeTimer := initializeTimer b;
     pendingNotifications := pendingNotifications b;
     now := now b;
     timers := timers b;
     nextTimer := nextTimer b;
     nextPromise := x;
     posted := posted b;
     settled := settled b |}.

Definition set_posted (x : list Posted) (b : Bridge) : Bridge :=
  {| iframeState := iframeState b;
     iframeStateRef := iframeStateRef b;
     contentWindow := contentWindow b;
     pendingRequests := pendingRequests b;
     nextRequestId := nextRequestId b;
     initializeAttempts := initializeAttempts b;
     initializeTimer := initializeTimer b;
     pendingNotifications := pendingNotifications b;
     now := now b;
     timers := timers b;
     nextTimer := nextTimer b;
     nextPromise := nextPromise b;
     posted := x;
     settled := settled b |}.

Definition set_settled (x : gmap nat (list Settlement)) (b : Bridge) : Bridge :=
  {| iframeState := iframeState b;
     iframeStateRef := iframeStateRef b;
     contentWindow := contentWindow b;
     pendingRequests := pendingRequests b;
     nextRequestId := nextRequestId b;
     initializeAttempts := initializeAttempts b;
     initializeTimer := initializeTimer b;
     pendingNotifications := pendingNotifications b;
     now := now b;
     timers := timers b;
     nextTimer := nextTimer b;
     nextPromise := nextPromise b;
     posted := posted b;
     settled := x |}.


Definition initial : Bridge :=
  {| iframeState := idle; iframeStateRef := idle; contentWindow := false;
     pendingRequests := ∅; nextRequestId := 0; initializeAttempts := 0;
     initializeTimer := None; pendingNotifications := [];
     now := 0; timers := ∅; nextTimer := 1%positive; nextPromise := 0;
     posted := []; settled := ∅ |}.

(** *** The runtime: postMessage, promises, timers *)

Definition postMessage (m : Posted) (b : Bridge) : Bridge :=
  set_posted (posted b ++ [m]) b.

(** The calls of [resolve]/[reject] a promise has seen. *)
Definition settlements (p : nat) (b : Bridge) : list Settlement :=
  default [] (settled b !! p).

Definition settle (p : nat) (s : Settlement) (b : Bridge) : Bridge :=
  set_settled (<[p := settlements p b ++ [s]]> (settled b)) b.

(** [setTimeout(callback, delay)]: the handle is [nextTimer b]. *)
Definition setTimeout (c : TimerCallback) (delay : nat) (b : Bridge) : Bridge :=
  set_nextTimer (Pos.succ (nextTimer b))
    (set_timers (<[nextTimer b := {| due := now b + delay; callback := c |}]> (timers b)) b).

Definition clearTimeout (h : positive) (b : Bridge) : Bridge :=
  set_timers (delete h (timers b)) b.

(** *** The hook's options and operations *)

(** The options the model reads.  [toolInfo], [arguments], [result] and
    [state] are values as given ([VUndefined] when absent); [hostContext]
    holds the properties of the option of that name (none when absent). *)
Record Props := {
  appId : string;
  html : Value;
  toolInfo : Value;
  toolArguments : Value;
  toolResult : Value;
  state : Value;
  isComplete : bool;
  hostContext : gmap string Value;
}.

Definition DEFAULT_MCP_HOST_CAPABILITIES : Value :=
  obj [("openLinks", obj []);
       ("botdojo/persistence", VBool true);
       ("extensions",
        obj [("io.modelcontextprotocol/ui",
              obj [("mimeTypes",
                    VArr [VStr "text/html+mcp"; VStr "text/html;profile=mcp-app"])])])].

Definition appInfo : Value :=
  obj [("name", VStr "McpAppHost"); ("version", VStr "1.0.0")].

Section WithProps.
Context `{JsonParser} (props : Props).

Definition sendResponse (id : Value) (result : Value) (b : Bridge) : Bridge :=
  if negb (contentWindow b) then b else postMessage (PostResult id result) b.

Definition sendError (id : Value) (code : Z) (message : string) (b : Bridge) : Bridge :=
  if negb (contentWindow b) then b else postMessage (PostError id code message) b.

Definition sendNotification (method : string) (params : Value) (b : Bridge) : Bridge :=
  if negb (contentWindow b) then b else postMessage (PostNotification method params) b.

(** [sendRequest] creates the promise numbered [nextPromise b]. *)
Definition sendRequest (method : string) (params : Value) (timeout : nat)
    (b : Bridge) : Bridge :=
  let promise := nextPromise b in
  let b := set_nextPromise (S promise) b in
  if negb (contentWindow b) then settle promise (RejectedError "Iframe not ready") b
  else
    let b := set_nextRequestId (S (nextRequestId b)) b in
    let id := "host-" +:+ pretty (nextRequestId b) in
    let timer := nextTimer b in
    let b := setTimeout (RequestTimeout id promise method) timeout b in
    let b := set_pendingRequests
               (<[id := {| pr_promise := promise; pr_timer := timer |}]>
                  (pendingRequests b)) b in
    postMessage (PostRequest id method params) b.

(** The callback of the timer [sendRequest] sets. *)
Definition requestTimeout (id : string) (promise : nat) (method : string)
    (b : Bridge) : Bridge :=
  let b := set_pendingRequests (delete id (pendingRequests b)) b in
  settle promise (RejectedError ("Request timeout: " +:+ method)) b.

Definition kind_of (method : string) : Kind :=
  if includes "result" method then kind_result
  else if includes "partial" method then kind_partial
  else kind_input.

Definition sendToolNotification (method : string) (params : Value) (b : Bridge)
  : Bridge :=
  let kind := kind_of method in
  if negb (validateToolParams params kind) then b
  else if bool_decide (iframeStateRef b = ready) && contentWindow b
  then postMessage (PostNotification method params) b
  else set_pendingNotifications
         (pendingNotifications b ++ [{| method := method; params := params |}]) b.

Definition sendInitialize (b : Bridge) : Bridge :=
  if bool_decide (iframeStateRef b = ready) || negb (contentWindow b) then b
  else
    let context :=
      VObj (hostContext props ∪
            {[ "mcpAppId" := VStr (appId props);
               "state" := state props;
               "toolInfo" := toolInfo props ]}) in
    let params :=
      obj [("protocolVersion", VStr "mcp-apps/0.1");
           ("appInfo", appInfo);
           ("hostCapabilities", DEFAULT_MCP_HOST_CAPABILITIES);
           ("hostContext", context)] in
    sendRequest "ui/initialize" params 2000 b.

Definition attemptSend (b : Bridge) : Bridge :=
  if bool_decide (iframeStateRef b = ready) then b
  else
    let b := set_initializeAttempts (S (initializeAttempts b)) b in
    let b := sendInitialize b in
    if bool_decide (initializeAttempts b < 5)
    then set_initializeTimer (Some (nextTimer b)) (setTimeout AttemptSend 300 b)
    else set_initializeTimer None b.

Definition sendInitializeWithRetry (b : Bridge) : Bridge :=
  if bool_decide (iframeStateRef b = ready) then b
  else
    let b := match initializeTimer b with
             | Some h => clearTimeout h b
             | None => b
             end in
    let b := set_initializeAttempts 0 b in
    attemptSend b.

Definition tool_input (toolName args : Value) : Posted :=
  PostNotification "ui/notifications/tool-input"
    (obj [("tool", obj [("name", toolName)]); ("arguments", args)]).

Definition tool_result (toolName result : Value) : Posted :=
  PostNotification "ui/notifications/tool-result"
    (obj [("tool", obj [("name", toolName)]); ("result", result)]).

Definition sendHydrationData (b : Bridge) : Bridge :=
  let toolName := get (get (toolInfo props) "tool") "name" in
  if negb (truthy toolName) || negb (contentWindow b) then b
  else
    let args := returned (parseMaybeJson (toolArguments props)) in
    let result := returned (parseMaybeJson (toolResult props)) in
    let b :=
      if truthy args && typeof_object args
         && bool_decide (0 < Object_keys_length args)
      then postMessage (tool_input toolName args) b
      else b in
    if negb (is_undefined result) && negb (is_empty_string result)
    then postMessage (tool_result toolName result) b
    else if isComplete props
    then postMessage (tool_result toolName (obj [("completed", VBool true)])) b
    else b.

Definition cancelInitializeTimer (b : Bridge) : Bridge :=
  match initializeTimer b with
  | Some h => set_initializeTimer None (clearTimeout h b)
  | None => b
  end.

Definition replay (n : Notification) : Posted :=
  PostNotification (method n) (params n).

(** The branch of [handleMessage] for a response: an [id] and no [method]. *)
Definition handleResponse (data : Value) (b : Bridge) : Bridge :=
  let key := String_of (get data "id") in
  match pendingRequests b !! key with
  | Some pending =>
      let b := clearTimeout (pr_timer pending) b in
      let b := set_pendingRequests (delete key (pendingRequests b)) b in
      if has "error" data
      then settle (pr_promise pending) (RejectedWith (get data "error")) b
      else settle (pr_promise pending) (Resolved (get data "result")) b
  | None => b
  end.

(** The case ['ui/notifications/initialized'] of [handleMessage]. *)
Definition handleInitialized (b : Bridge) : Bridge :=
  let b := cancelInitializeTimer b in
  let b := set_iframeState ready b in
  let b := sendHydrationData b in
  if bool_decide (0 < length (pendingNotifications b)) && contentWindow b
  then set_pendingNotifications []
         (set_posted (posted b ++ map replay (pendingNotifications b)) b)
  else b.

(** The case ['ui/initialize'] (a request from the app). *)
Definition handleLegacyInitialize (id : Value) (b : Bridge) : Bridge :=
  let hostContext :=
    VObj (hostContext props ∪
          {[ "state" := state props; "toolInfo" := toolInfo props ]}) in
  let b := sendResponse id
             (obj [("appInfo", appInfo);
                   ("hostCapabilities", DEFAULT_MCP_HOST_CAPABILITIES);
                   ("hostContext", hostContext)]) b in
  let b := sendNotification "ui/notifications/initialized" (obj []) b in
  let b := cancelInitializeTimer b in
  set_iframeState ready b.

(** The cases ['ui/notifications/sandbox-ready'] and
    ['ui/notifications/sandbox-proxy-ready']. *)
Definition handleSandboxReady (params : Value) (b : Bridge) : Bridge :=
  let resource := get params "resource" in
  if truthy resource && truthy (html props)
  then sendNotification "ui/notifications/sandbox-resource-ready"
         (obj [("resource", resource); ("html", html props);
               ("sandbox", VStr "allow-scripts allow-same-origin")]) b
  else b.

Definition acknowledge (id : Value) (result : Value) (b : Bridge) : Bridge :=
  if negb (is_undefined id) then sendResponse id result b else b.

(** [handleMessage] on [event.data].  The cases that answer through a
    callback of the host or a promise (['tools/call'], the sandbox
    resource requests) are outside the model: [None].  Callbacks of the
    host ([onReady], [onOpenLink], [onMessage], [onPersistState],
    [onSizeChange]) and the auto-height state are not part of the bridge
    record. *)
Definition handleMessage (data : Value) (b : Bridge) : option Bridge :=
  if negb (truthy data) || negb (is_string "2.0" (get data "jsonrpc")) then Some b
  else if has "id" data && negb (has "method" data) then Some (handleResponse data b)
  else
    let method := get data "method" in
    let id := get data "id" in
    if is_string "ui/notifications/client-ready" method
    then Some (sendInitializeWithRetry b)
    else if is_string "ui/notifications/sandbox-ready" method
         || is_string "ui/notifications/sandbox-proxy-ready" method
    then Some (handleSandboxReady (get data "params") b)
    else if is_string "ui/requests/sandbox-resource" method
         || is_string "tools/call" method
    then None
    else if is_string "ui/notifications/initialized" method
    then Some (handleInitialized b)
    else if is_string "ui/initialize" method
    then Some (handleLegacyInitialize id b)
    else if is_string "ui/open-link" method || is_string "ui/message" method
    then Some (acknowledge id (obj [("ok", VBool true)]) b)
    else if is_string "ui/size-change" method
         || is_string "ui/notifications/size-change" method
    then Some b
    else Some (acknowledge id (obj [("ok", VBool true); ("ignored", VBool true)]) b).

(** [handleIframeLoad]: [setIframeState(prev => prev === 'idle' ? 'loading' : prev)] *)
Definition handleIframeLoad (b : Bridge) : Bridge :=
  set_iframeState (if bool_decide (iframeState b = idle) then loading else iframeState b) b.

(** A render assigns [iframeStateRef.current = iframeState]; the effect on
    [iframeState] then sends the first [ui/initialize] after a load. *)
Definition render (b : Bridge) : Bridge :=
  let b := set_iframeStateRef (iframeState b) b in
  if bool_decide (iframeState b = loading)
  then sendInitializeWithRetry (set_iframeState initializing b)
  else b.

(** The cleanup of the unmount effect. *)
Definition unmount (b : Bridge) : Bridge :=
  let b := match initializeTimer b with
           | Some h => clearTimeout h b
           | None => b
           end in
  let b := map_fold
             (λ _ pending b,
                settle (pr_promise pending) (RejectedError "Component unmounted")
                  (clearTimeout (pr_timer pending) b))
             b (pendingRequests b) in
  set_pendingRequests ∅ b.

(** *** Timers and the event loop *)

Definition runCallback (c : TimerCallback) (b : Bridge) : Bridge :=
  match c with
  | RequestTimeout id promise method => requestTimeout id promise method b
  | AttemptSend => attemptSend b
  end.

(** A timer that is due runs unless an earlier callback cleared it. *)
Definition fire (h : positive) (b : Bridge) : Bridge :=
  match timers b !! h with
  | Some t => runCallback (callback t) (clearTimeout h b)
  | None => b
  end.

Definition due_timers (b : Bridge) : list positive :=
  (map_to_list (filter (λ ht, due ht.2 ≤ now b) (timers b))).*1.

(** One millisecond passes and the timers then due run. *)
Definition tick (b : Bridge) : Bridge :=
  let b := set_now (S (now b)) b in
  foldl (λ b h, fire h b) b (due_timers b).

Inductive Event :=
  | IframeRef (present : bool)
  | IframeLoad
  | Render
  | Message (data : Value)
  | Tick
  | Unmount
  | SendToolNotification (method : string) (params : Value)
  | SendRequest (method : string) (params : Value) (timeout : nat).

Definition step (e : Event) (b : Bridge) : option Bridge :=
  match e with
  | IframeRef present => Some (set_contentWindow present b)
  | IframeLoad => Some (handleIframeLoad b)
  | Render => Some (render b)
  | Message data => handleMessage data b
  | Tick => Some (tick b)
  | Unmount => Some (unmount b)
  | SendToolNotification method params => Some (sendToolNotification method params b)
  | SendRequest method params timeout => Some (sendRequest method params timeout b)
  end.

Fixpoint run (es : list Event) (b : Bridge) : option Bridge :=
  match es with
  | [] => Some b
  | e :: es => b' ← step e b; run es b'
  end.

End WithProps.
End HostBridge.

(** ** The provider BotDojoChatProvider *)

Module ChatProvider.
Import McpUtils.

(** An entry of a queue of [pendingToolNotificationsRef]. *)
Record Notification := { method : string; params : Value }.

(** An entry of [pendingBroadcastNotificationsRef]. *)
Record BroadcastNotification :=
  { b_method : string; b_params : Value; b_toolName : Value }.

(** The refs of the provider the model covers.  A sender (a step-update
    callback) registered under an app id is that app's; the two maps of
    functions are the sets of ids registered, and [senderCalls]
    ([callbackCalls]) logs per app the calls made to its sender (its
    callback), in order.  [Map.forEach] visits the apps in some order;
    the per-app logs do not record it. *)
Record Provider := {
  toolNotificationSenders : gset string;
  pendingToolNotifications : gmap string (list Notification);
  pendingBroadcastNotifications : list BroadcastNotification;
  stepUpdateCallbacks : gset string;
  pendingStepUpdates : gmap string (list Value);
  activeAppByTool : gmap string string;
  stepIdToAppId : gmap string string;
  toolArgumentsCache : gmap string Value;
  mcpAppDataCache : gmap string (gmap string Value);
  mcpAppDataVersion : nat;
  senderCalls : gmap string (list Notification);
  callbackCalls : gmap string (list Value);
}.

Definition set_toolNotificationSenders (x : gset string) (p : Provider) : Provider :=
  {| toolNotificationSenders := x;
     pendingToolNotifications := pendingToolNotifications p;
     pendingBroadcastNotifications := pendingBroadcastNotifications p;
     stepUpdateCallbacks := stepUpdateCallbacks p;
     pendingStepUpdates := pendingStepUpdates p;
     activeAppByTool := activeAppByTool p;
     stepIdToAppId := stepIdToAppId p;
     toolArgumentsCache := toolArgumentsCache p;
     mcpAppDataCache := mcpAppDataCache p;
     mcpAppDataVersion := mcpAppDataVersion p;
     senderCalls := senderCalls p;
     callbackCalls := callbackCalls p |}.

Definition set_pendingToolNotifications (x : gmap string (list Notification)) (p : Provider) : Provider :=
  {| toolNotificationSenders := toolNotificationSenders p;
     pendingToolNotifications := x;
     pendingBroadcastNotifications := pendingBroadcastNotifications p;
     stepUpdateCallbacks := stepUpdateCallbacks p;
     pendingStepUpdates := pendingStepUpdates p;
     activeAppByTool := activeAppByTool p;
     stepIdToAppId := stepIdToAppId p;
     toolArgumentsCache := toolArgumentsCache p;
     mcpAppDataCache := mcpAppDataCache p;
     mcpAppDataVersion := mcpAppDataVersion p;
     senderCalls := senderCalls p;
     callbackCalls := callbackCalls p |}.

Definition set_pendingBroadcastNotifications (x : list BroadcastNotification) (p : Provider) : Provider :=
  {| toolNotificationSenders := toolNotificationSenders p;
     pendingToolNotifications := pendingToolNotifications p;
     pendingBroadcastNotifications := x;
     stepUpdateCallbacks := stepUpdateCallbacks p;
     pendingStepUpdates := pendingStepUpdates p;
     activeAppByTool := activeAppByTool p;
     stepIdToAppId := stepIdToAppId p;
     toolArgumentsCache := toolArgumentsCache p;
     mcpAppDataCache := mcpAppDataCache p;
     mcpAppDataVersion := mcpAppDataVersion p;
     senderCalls := senderCalls p;
     callbackCalls := callbackCalls p |}.

Definition set_stepUpdateCallbacks (x : gset string) (p : Provider) : Provider :=
  {| toolNotificationSenders := toolNotificationSenders p;
     pendingToolNotifications := pendingToolNotifications p;
     pendingBroadcastNotifications := pendingBroadcastNotifications p;
     stepUpdateCallbacks := x;
     pendingStepUpdates := pendingStepUpdates p;
     activeAppByTool := activeAppByTool p;
     stepIdToAppId := stepIdToAppId p;
     toolArgumentsCache := toolArgumentsCache p;
     mcpAppDataCache := mcpAppDataCache p;
     mcpAppDataVersion := mcpAppDataVersion p;
     senderCalls := senderCalls p;
     callbackCalls := callbackCalls p |}.

Definition set_pendingStepUpdates (x : gmap string (list Value)) (p : Provider) : Provider :=
  {| toolNotificationSenders := toolNotificationSenders p;
     pendingToolNotifications := pendingToolNotifications p;
     pendingBroadcastNotifications := pendingBroadcastNotifications p;
     stepUpdateCallbacks := stepUpdateCallbacks p;
     pendingStepUpdates := x;
     activeAppByTool := activeAppByTool p;
     stepIdToAppId := stepIdToAppId p;
     toolArgumentsCache := toolArgumentsCache p;
     mcpAppDataCache := mcpAppDataCache p;
     mcpAppDataVersion := mcpAppDataVersion p;
     senderCalls := senderCalls p;
     callbackCalls := callbackCalls p |}.

Definition set_activeAppByTool (x : gmap string string) (p : Provider) : Provider :=
  {| toolNotificationSenders := toolNotificationSenders p;
     pendingToolNotifications := pendingToolNotifications p;
     pendingBroadcastNotifications := pendingBroadcastNotifications p;
     stepUpdateCallbacks := stepUpdateCallbacks p;
     pendingStepUpdates := pendingStepUpdates p;
     activeAppByTool := x;
     stepIdToAppId := stepIdToAppId p;
     toolArgumentsCache := toolArgumentsCache p;
     mcpAppDataCache := mcpAppDataCache p;
     mcpAppDataVersion := mcpAppDataVersion p;
     senderCalls := senderCalls p;
     callbackCalls := callbackCalls p |}.

Definition set_stepIdToAppId (x : gmap string string) (p : Provider) : Provider :=
  {| toolNotificationSenders := toolNotificationSenders p;
     pendingToolNotifications := pendingToolNotifications p;
     pendingBroadcastNotifications := pendingBroadcastNotifications p;
     stepUpdateCallbacks := stepUpdateCallbacks p;
     pendingStepUpdates := pendingStepUpdates p;
     activeAppByTool := activeAppByTool p;
     stepIdToAppId := x;
     toolArgumentsCache := toolArgumentsCache p;
     mcpAppDataCache := mcpAppDataCache p;
     mcpAppDataVersion := mcpAppDataVersion p;
     senderCalls := senderCalls p;
     callbackCalls := callbackCalls p |}.

Definition set_toolArgumentsCache (x : gmap string Value) (p : Provider) : Provider :=
  {| toolNotificationSenders := toolNotificationSenders p;
     pendingToolNotifications := pendingToolNotifications p;
     pendingBroadcastNotifications := pendingBroadcastNotifications p;
     stepUpdateCallbacks := stepUpdateCallbacks p;
     pendingStepUpdates := pendingStepUpdates p;
     activeAppByTool := activeAppByTool p;
     stepIdToAppId := stepIdToAppId p;
     toolArgumentsCache := x;
     mcpAppDataCache := mcpAppDataCache p;
     mcpAppDataVersion := mcpAppDataVersion p;
     senderCalls := senderCalls p;
     callbackCalls := callbackCalls p |}.

Definition set_mcpAppDataCache (x : gmap string (gmap string Value)) (p : Provider) : Provider :=
  {| toolNotificationSenders := toolNotificationSenders p;
     pendingToolNotifications := pendingToolNotifications p;
     pendingBroadcastNotifications := pendingBroadcastNotifications p;
     stepUpdateCallbacks := stepUpdateCallbacks p;
     pendingStepUpdates := pendingStepUpdates p;
     activeAppByTool := activeAppByTool p;
     stepIdToAppId := stepIdToAppId p;
     toolArgumentsCache := toolArgumentsCache p;
     mcpAppDataCache := x;
     mcpAppDataVersion := mcpAppDataVersion p;
     senderCalls := senderCalls p;
     callbackCalls := callbackCalls p |}.

Definition set_mcpAppDataVersion (x : nat) (p : Provider) : Provider :=
  {| toolNotificationSenders := toolNotificationSenders p;
     pendingToolNotifications := pendingToolNotifications p;
     pendingBroadcastNotifications := pendingBroadcastNotifications p;
     stepUpdateCallbacks := stepUpdateCallbacks p;
     pendingStepUpdates := pendingStepUpdates p;
     activeAppByTool := activeAppByTool p;
     stepIdToAppId := stepIdToAppId p;
     toolArgumentsCache := toolArgumentsCache p;
     mcpAppDataCache := mcpAppDataCache p;
     mcpAppDataVersion := x;
     senderCalls := senderCalls p;
     callbackCalls := callbackCalls p |}.

Definition set_senderCalls (x : gmap string (list Notification)) (p : Provider) : Provider :=
  {| toolNotificationSenders := toolNotificationSenders p;
     pendingToolNotifications := pendingToolNotifications p;
     pendingBroadcastNotifications := pendingBroadcastNotifications p;
     stepUpdateCallbacks := stepUpdateCallbacks p;
     pendingStepUpdates := pendingStepUpdates p;
     activeAppByTool := activeAppByTool p;
     stepIdToAppId := stepIdToAppId p;
     toolArgumentsCache := toolArgumentsCache p;
     mcpAppDataCache := mcpAppDataCache p;
     mcpAppDataVersion := mcpAppDataVersion p;
     senderCalls := x;
     callbackCalls := callbackCalls p |}.

Definition set_callbackCalls (x : gmap string (list Value)) (p : Provider) : Provider :=
  {| toolNotificationSenders := toolNotificationSenders p;
     pendingToolNotifications := pendingToolNotifications p;
     pendingBroadcastNotifications := pendingBroadcastNotifications p;
     stepUpdateCallbacks := stepUpdateCallbacks p;
     pendingStepUpdates := pendingStepUpdates p;
     activeAppByTool := activeAppByTool p;
     stepIdToAppId := stepIdToAppId p;
     toolArgumentsCache := toolArgumentsCache p;
     mcpAppDataCache := mcpAppDataCache p;
     mcpAppDataVersion := mcpAppDataVersion p;
     senderCalls := senderCalls p;
     callbackCalls := x |}.


Definition initial : Provider :=
  {| toolNotificationSenders := ∅; pendingToolNotifications := ∅;
     pendingBroadcastNotifications := []; stepUpdateCallbacks := ∅;
     pendingStepUpdates := ∅; activeAppByTool := ∅; stepIdToAppId := ∅;
     toolArgumentsCache := ∅; mcpAppDataCache := ∅; mcpAppDataVersion := 0;
     senderCalls := ∅; callbackCalls := ∅ |}.

(** [queues.get(k)!.push(x)], after [queues.set(k, [])] when [k] is new. *)
Definition push {A} (k : string) (x : A) (queues : gmap string (list A))
  : gmap string (list A) :=
  <[k := default [] (queues !! k) ++ [x]]> queues.

(** The calls an app's sender has received. *)
Definition received (appId : string) (p : Provider) : list Notification :=
  default [] (senderCalls p !! appId).

(** The queue kept for an app that has not registered. *)
Definition queued (appId : string) (p : Provider) : list Notification :=
  default [] (pendingToolNotifications p !! appId).

(** [sender(method, params)] with the sender of [appId]. *)
Definition callSender (appId : string) (n : Notification) (p : Provider) : Provider :=
  set_senderCalls (push appId n (senderCalls p)) p.

(** [callback(stepUpdate)] with the step-update callback of [appId]. *)
Definition callCallback (appId : string) (stepUpdate : Value) (p : Provider) : Provider :=
  set_callbackCalls (push appId stepUpdate (callbackCalls p)) p.

Definition sendToolNotificationToApp (appId method : string) (params : Value)
    (p : Provider) : Provider :=
  let n := {| method := method; params := params |} in
  if bool_decide (appId ∈ toolNotificationSenders p)
  then callSender appId n p
  else set_pendingToolNotifications (push appId n (pendingToolNotifications p)) p.

Definition broadcastToolNotification (method : string) (params : Value)
    (toolName : Value) (p : Provider) : Provider :=
  if bool_decide (size (toolNotificationSenders p) = 0)
  then set_pendingBroadcastNotifications
         (pendingBroadcastNotifications p ++
          [{| b_method := method; b_params := params;
              b_toolName :=
                or_else toolName
                  (or_else (get (get params "tool") "name") (VStr "")) |}]) p
  else set_fold (λ appId p, callSender appId {| method := method; params := params |} p)
         p (toolNotificationSenders p).

Definition registerToolNotificationSender (appId : string) (p : Provider)
  : Provider :=
  let p := set_toolNotificationSenders ({[appId]} ∪ toolNotificationSenders p) p in
  let p :=
    match pendingToolNotifications p !! appId with
    | Some pendingForApp =>
        if bool_decide (0 < length pendingForApp)
        then set_pendingToolNotifications (delete appId (pendingToolNotifications p))
               (foldl (λ p n, callSender appId n p) p pendingForApp)
        else p
    | None => p
    end in
  let pendingBroadcasts := pendingBroadcastNotifications p in
  if bool_decide (0 < length pendingBroadcasts)
  then set_pendingBroadcastNotifications []
         (foldl (λ p n, callSender appId
                          {| method := b_method n; params := b_params n |} p)
            p pendingBroadcasts)
  else p.

(** The function [registerToolNotificationSender] returns. *)
Definition unregisterToolNotificationSender (appId : string) (p : Provider)
  : Provider :=
  set_toolNotificationSenders (toolNotificationSenders p ∖ {[appId]}) p.

Definition registerStepUpdateCallback (appId : string) (p : Provider) : Provider :=
  let p := set_stepUpdateCallbacks ({[appId]} ∪ stepUpdateCallbacks p) p in
  match pendingStepUpdates p !! appId with
  | Some pendingUpdates =>
      if bool_decide (0 < length pendingUpdates)
      then set_pendingStepUpdates (delete appId (pendingStepUpdates p))
             (foldl (λ p u, callCallback appId u p) p pendingUpdates)
      else p
  | None => p
  end.

Definition unregisterStepUpdateCallback (appId : string) (p : Provider) : Provider :=
  set_stepUpdateCallbacks (stepUpdateCallbacks p ∖ {[appId]}) p.

Definition sendStepUpdateToApp (appId : string) (stepUpdate : Value) (p : Provider)
  : Provider :=
  if bool_decide (appId ∈ stepUpdateCallbacks p)
  then callCallback appId stepUpdate p
  else p.

(** *** Tool execution: executeToolCall *)

(** What a tool's [execute] does with the execution context it is given:
    the calls it makes to [notifyToolInputPartial] and [notifyToolResult],
    in order, and how it completes.  A call of [executeToolCall] runs as
    one step: other messages do not interleave with it. *)
Inductive ToolCall :=
  | NotifyToolInputPartial (data : Value)
  | NotifyToolResult (data : Value).

Record Tool := {
  tool_name : string;
  execute : option (Value → list ToolCall * Completion Value);
}.

(** A model context: its [name], and its [tools] as the array
    [Array.isArray(context.tools) ? context.tools : Object.values(context.tools)]. *)
Record ModelContext := {
  name : option string;
  tools : option (list Tool);
}.

(** [!!s] for an optional string *)
Definition present (s : option string) : bool :=
  match s with
  | Some s => negb (bool_decide (s = ""))
  | None => false
  end.

(** [a || b] for optional strings *)
Definition or_str (a b : option string) : option string :=
  if present a then a else b.

Definition partialStepUpdate (toolName : string) (data : Value) : Value :=
  let isProgressUpdate := is_string "botdojo-tool-progress" (get data "kind") in
  obj [("stepToolName", VStr toolName);
       ("toolName", VStr toolName);
       ("stepToolArguments", if isProgressUpdate then VUndefined else data);
       ("arguments", if isProgressUpdate then VUndefined else data);
       ("stepToolProgress", if isProgressUpdate then data else VUndefined);
       ("stepStatus", VStr "processing")].

Definition resultStepUpdate (toolName : string) (data : Value) : Value :=
  obj [("stepToolName", VStr toolName);
       ("toolName", VStr toolName);
       ("stepToolResult", nullish_else (get data "result") data);
       ("result", nullish_else (get data "result") data);
       ("stepStatus", VStr "complete")].

(** The common tail of [notifyToolInputPartial] and [notifyToolResult]:
    to the resolved app (now, or queued until its callback registers), or
    to every registered callback. *)
Definition routeStepUpdate (resolvedAppId : option string) (stepUpdate : Value)
    (p : Provider) : Provider :=
  if present resolvedAppId then
    let appId := default "" resolvedAppId in
    if bool_decide (appId ∈ stepUpdateCallbacks p)
    then callCallback appId stepUpdate p
    else set_pendingStepUpdates (push appId stepUpdate (pendingStepUpdates p)) p
  else set_fold (λ appId p, callCallback appId stepUpdate p) p (stepUpdateCallbacks p).

Definition stepUpdateOf (toolName : string) (c : ToolCall) : Value :=
  match c with
  | NotifyToolInputPartial data => partialStepUpdate toolName data
  | NotifyToolResult data => resultStepUpdate toolName data
  end.

(** The target of the notifications of one invocation. *)
Definition resolveAppId (contextName : option string) (toolName : string)
    (targetAppId : option string) (p : Provider) : option string :=
  let resolvedAppId := targetAppId in
  if negb (present resolvedAppId) then
    let resolvedAppId := activeAppByTool p !! toolName in
    if negb (present resolvedAppId) && present contextName
    then activeAppByTool p !! (default "" contextName +:+ "_" +:+ toolName)
    else resolvedAppId
  else resolvedAppId.

(** The body of the loop once the tool is found. *)
Definition runTool (context : ModelContext)
    (exec : Value → list ToolCall * Completion Value)
    (toolName : string) (args : Value) (targetAppId : option string)
    (p : Provider) : Provider * Completion Value :=
  let resolvedAppId := resolveAppId (name context) toolName targetAppId p in
  let p := set_toolArgumentsCache (<[toolName := args]> (toolArgumentsCache p)) p in
  let p := if present resolvedAppId
           then set_toolArgumentsCache
                  (<[default "" resolvedAppId := args]> (toolArgumentsCache p)) p
           else p in
  let '(calls, outcome) := exec args in
  let p := foldl (λ p c, routeStepUpdate resolvedAppId (stepUpdateOf toolName c) p)
             p calls in
  match outcome with
  | Normal result =>
      if negb (is_undefined result)
      then (routeStepUpdate resolvedAppId (resultStepUpdate toolName result) p,
            Normal result)
      else (p, Normal result)
  | Throw e => (p, Throw e)
  end.

Fixpoint searchContexts (contexts : list ModelContext) (toolName : string)
    (args : Value) (targetAppId : option string) (p : Provider)
  : Provider * Completion Value :=
  match contexts with
  | [] => (p, Throw ("Tool not found: " +:+ toolName))
  | context :: rest =>
      match tools context with
      | Some toolsArray =>
          match List.find (λ t, bool_decide (tool_name t = toolName)) toolsArray with
          | Some tool =>
              match execute tool with
              | Some exec => runTool context exec toolName args targetAppId p
              | None => searchContexts rest toolName args targetAppId p
              end
          | None => searchContexts rest toolName args targetAppId p
          end
      | None => searchContexts rest toolName args targetAppId p
      end
  end.

(** [modelContext] is [modelContextRef.current], a lone context being the
    list of one. *)
Definition executeToolCall (modelContext : option (list ModelContext))
    (toolName : string) (args : Value) (targetAppId : option string)
    (p : Provider) : Provider * Completion Value :=
  match modelContext with
  | None => (p, Throw "No model context available")
  | Some contexts => searchContexts contexts toolName args targetAppId p
  end.

(** *** Step updates from the server *)

(** The fields of a step the model reads, typed as [RawServerStep]
    types them; the fields of type [any] are values. *)
Record CanvasData := {
  cd_url : option string;
  cd_html : option string;
  cd_result : Value;
  cd_arguments : Value;
  cd_height : Value;
  cd_width : Value;
}.

Record Canvas := {
  canvasId : option string;
  canvasData : option CanvasData;
}.

Record RawServerStep := {
  stepId : option string;
  stepToolName : option string;
  stepLabel : option string;
  stepToolArguments : Value;
  stepToolResult : Value;
  arguments : option string;
  content : Value;
  stepStatus : option string;
  canvas : option Canvas;
}.

(** The start of the case ['step_update'] of the provider's
    [handleMessage]: the app of a step that carries a canvas becomes the
    active app of the step's tool. *)
Definition registerActiveApp (rawStep : RawServerStep) (p : Provider) : Provider :=
  match canvas rawStep with
  | Some canvas =>
      let toolName := or_str (stepToolName rawStep) (stepLabel rawStep) in
      let appId := canvasId canvas in
      let p := if present toolName && present appId
               then set_activeAppByTool
                      (<[default "" toolName := default "" appId]> (activeAppByTool p)) p
               else p in
      if present (stepId rawStep) && present appId
      then set_stepIdToAppId
             (<[default "" (stepId rawStep) := default "" appId]> (stepIdToAppId p)) p
      else p
  | None => p
  end.

(** [{ ...existing, ...data }] replaces whole properties: those of [data]
    win, the others of [existing] stay. *)
Definition updateMcpAppDataCache (appId : string) (data : gmap string Value)
    (p : Provider) : Provider :=
  let existing := default ∅ (mcpAppDataCache p !! appId) in
  set_mcpAppDataVersion (S (mcpAppDataVersion p))
    (set_mcpAppDataCache (<[appId := data ∪ existing]> (mcpAppDataCache p)) p).

(** [cond ? { k: v } : {}], spread into an object literal *)
Definition when (cond : bool) (k : string) (v : Value) : gmap string Value :=
  if cond then {[ k := v ]} else ∅.

Definition toolInfoOf (toolName : string) : Value :=
  obj [("tool", obj [("name", VStr toolName)])].

(** The call made once a [ui://] canvas URL has been resolved to
    [htmlContent]; [url] is [proxyUrl || canvasUrl].  All five properties
    are written, [toolInfo], [height] and [width] possibly as [undefined]. *)
Definition cacheResolvedHtml (rawStep : RawServerStep) (appIdForCache : string)
    (htmlContent url : string) (canvasData : CanvasData) (p : Provider) : Provider :=
  let toolNameForCache := or_str (stepToolName rawStep) (stepLabel rawStep) in
  updateMcpAppDataCache appIdForCache
    {[ "html" := VStr htmlContent;
       "url" := VStr url;
       "toolInfo" := if present toolNameForCache
                     then toolInfoOf (default "" toolNameForCache)
                     else VUndefined;
       "height" := cd_height canvasData;
       "width" := cd_width canvasData ]} p.

Section WithJson.
Context `{JsonParser}.

(** The local helper [parseIfJson] repeats [parseMaybeJson]. *)
Definition parseIfJson (value : Value) : Value := returned (parseMaybeJson value).

(** [try { x = JSON.parse(s) } catch { }] *)
Definition parse_or_keep (s : string) (x : Value) : Value :=
  match JSON_parse s with
  | Normal v => v
  | Throw _ => x
  end.

Definition canvasDataOf (step : RawServerStep) : option CanvasData :=
  c ← canvas step; canvasData c.

Definition stepResultOf (step : RawServerStep) : Value :=
  let canvasResult :=
    parseIfJson (from_option cd_result VUndefined (canvasDataOf step)) in
  let rawStepResult := stepToolResult step in
  if negb (is_undefined rawStepResult) && negb (is_empty_string rawStepResult)
  then parseIfJson rawStepResult
  else if negb (is_undefined canvasResult) then canvasResult
  else parseIfJson (content step).

Definition stepArgumentsOf (step : RawServerStep) (appId : string)
    (toolName : option string) (p : Provider) : Value :=
  let rawStepArgs := stepToolArguments step in
  let rawArgsString := arguments step in
  let canvasArgs := from_option cd_arguments VUndefined (canvasDataOf step) in
  let stepArguments :=
    if truthy rawStepArgs && typeof_object rawStepArgs then rawStepArgs else VNull in
  let stepArguments :=
    if negb (truthy stepArguments) && present rawArgsString
       && present (trim <$> rawArgsString)
    then parse_or_keep (default "" rawArgsString) stepArguments
    else stepArguments in
  let stepArguments :=
    if negb (truthy stepArguments) && negb (is_undefined canvasArgs) then
      if typeof_object canvasArgs then canvasArgs
      else match canvasArgs with
           | VStr s => if truthy (VStr (trim s))
                       then parse_or_keep s stepArguments
                       else stepArguments
           | _ => stepArguments
           end
    else stepArguments in
  if negb (truthy stepArguments) then
    or_else (default VUndefined (toolArgumentsCache p !! appId))
      (or_else (if present toolName
                then default VUndefined (toolArgumentsCache p !! default "" toolName)
                else VNull)
         VNull)
  else stepArguments.

(** The app a step update belongs to: its canvas, else the app recorded
    for its step id, else the active app of its tool. *)
Definition appIdOf (step : RawServerStep) (p : Provider) : option string :=
  let appIdFromCanvas := c ← canvas step; canvasId c in
  let appIdFromStepId :=
    if present (stepId step) then stepIdToAppId p !! default "" (stepId step)
    else None in
  let toolNameForLookup := or_str (stepToolName step) (stepLabel step) in
  let appIdFromToolName :=
    if present toolNameForLookup
    then activeAppByTool p !! default "" toolNameForLookup
    else None in
  or_str appIdFromCanvas (or_str appIdFromStepId appIdFromToolName).

(** What a step update adds to the record of its app: only the
    properties it has a value for. *)
Definition stepCacheData (step : RawServerStep) (appId : string) (p : Provider)
  : gmap string Value :=
  let toolName := or_str (stepToolName step) (stepLabel step) in
  let stepResult := stepResultOf step in
  let stepArguments := stepArgumentsOf step appId toolName p in
  when (present toolName) "toolInfo" (toolInfoOf (default "" toolName))
  ∪ when (bool_decide (stepStatus step = Some "complete")) "isComplete" (VBool true)
  ∪ when (negb (is_undefined stepResult)) "result" stepResult
  ∪ when (truthy stepArguments) "arguments" stepArguments.

(** The cache update of the case ['step_update'], after the dispatch to
    the reducer; the forwarding of the enriched step to the app's
    callback follows it and is not modelled. *)
Definition cacheStepUpdate (stepToDispatch : RawServerStep) (p : Provider) : Provider :=
  let appId := appIdOf stepToDispatch p in
  if present appId
  then updateMcpAppDataCache (default "" appId)
         (stepCacheData stepToDispatch (default "" appId) p) p
  else p.

End WithJson.
End ChatProvider.

(** ** Resource URI templates of BotDojoConnector *)

Module Connector.

(** The patterns [new RegExp] is given here are a template in which
    every [{name}] has become [(.+)].  The model covers the patterns made
    of ordinary characters, [.] and groups [(.+)]; a pattern with any
    other syntax character is outside it. *)
Inductive Item :=
  | Char (c : ascii)
  | AnyChar
  | Group.

(** The line terminators below 256, which [.] does not match. *)
Definition is_line_terminator (c : ascii) : bool :=
  bool_decide (c = "010"%char) || bool_decide (c = "013"%char).

(** Syntax characters of a pattern other than [.], [(] and the braces
    (a brace that no quantifier claims stands for itself). *)
Definition is_syntax_character (c : ascii) : bool :=
  bool_decide (c ∈ ["\"; "^"; "$"; "*"; "+"; "?"; ")"; "["; "|"]%char).

(** The text before the first [c] and the text after it. *)
Fixpoint break_at (c : ascii) (s : string) : option (string * string) :=
  match s with
  | EmptyString => None
  | String c' s' =>
      if bool_decide (c' = c) then Some (EmptyString, s')
      else '(before, after) ← break_at c s'; Some (String c' before, after)
  end.

(** A template cut at the matches of [/\{([^}]+)\}/g], from the left:
    an opening brace, one character or more that are not closing braces,
    and a closing brace. *)
Inductive Piece :=
  | Literal (c : ascii)
  | Placeholder (paramName : string).

Fixpoint pieces_fuel (fuel : nat) (template : string) : list Piece :=
  match fuel, template with
  | S fuel, String c rest =>
      if bool_decide (c = "{"%char) then
        match break_at "}" rest with
        | Some (String n ame, after) => Placeholder (String n ame) :: pieces_fuel fuel after
        | _ => Literal c :: pieces_fuel fuel rest
        end
      else Literal c :: pieces_fuel fuel rest
  | _, _ => []
  end.

Definition pieces (template : string) : list Piece :=
  pieces_fuel (String.length template) template.

(** [template.replace(/\{[^}]+\}/g, '(.+)')] *)
Definition regexPattern (template : string) : string :=
  String.concat ""
    (map (λ p, match p with
               | Literal c => String c ""
               | Placeholder _ => "(.+)"
               end) (pieces template)).

(** The names the replacer function of [extractUriParams] pushes. *)
Definition paramNames (template : string) : list string :=
  omap (λ p, match p with
             | Literal _ => None
             | Placeholder paramName => Some paramName
             end) (pieces template).

(** The pattern of [new RegExp(pattern)], read. *)
Fixpoint compile_fuel (fuel : nat) (pattern : string) : option (list Item) :=
  match fuel, pattern with
  | _, EmptyString => Some []
  | S fuel, String c rest =>
      if bool_decide (c = "("%char) then
        match rest with
        | String "." (String "+" (String ")" rest)) =>
            cons Group <$> compile_fuel fuel rest
        | _ => None
        end
      else if bool_decide (c = "."%char) then cons AnyChar <$> compile_fuel fuel rest
      else if is_syntax_character c then None
      else cons (Char c) <$> compile_fuel fuel rest
  | 0, String _ _ => None
  end.

Definition compile (pattern : string) : option (list Item) :=
  compile_fuel (String.length pattern) pattern.

(** A group [(.+)] followed by [continue]: the longest run first, then
    shorter ones (backtracking), never the empty one.  The result is the
    text the group captured with the captures of what follows. *)
Fixpoint greedy (continue : string → option (list string)) (s : string)
  : option (string * list string) :=
  match s with
  | String c s' =>
      if is_line_terminator c then None
      else match greedy continue s' with
           | Some (value, captures) => Some (String c value, captures)
           | None => captures ← continue s'; Some (String c EmptyString, captures)
           end
  | EmptyString => None
  end.

(** [s.match(/^items$/)]: the captures of the groups, if [s] matches. *)
Fixpoint exec (items : list Item) (s : string) : option (list string) :=
  match items with
  | [] => if bool_decide (s = "") then Some [] else None
  | Char c :: items =>
      match s with
      | String c' s' => if bool_decide (c' = c) then exec items s' else None
      | EmptyString => None
      end
  | AnyChar :: items =>
      match s with
      | String c' s' => if is_line_terminator c' then None else exec items s'
      | EmptyString => None
      end
  | Group :: items =>
      '(value, captures) ← greedy (exec items) s; Some (value :: captures)
  end.

(** [None]: the template's pattern is outside the model. *)
Definition matchesUriTemplate (uri template : string) : option bool :=
  items ← compile (regexPattern template);
  Some (bool_decide (is_Some (exec items uri))).

Definition extractUriParams (uri template : string) : option (gmap string string) :=
  items ← compile (regexPattern template);
  Some (match exec items uri with
        | Some captures =>
            foldl (λ params '(paramName, value), <[paramName := value]> params)
              ∅ (zip (paramNames template) captures)
        | None => ∅
        end).

End Connector.

(** ** A reference JSON parser

    A parser for the JSON texts whose value the model can hold: integer
    numbers, and strings of code units below 256.  It instantiates
    [JsonParser] where a concrete parser is wanted; the theorems hold for
    every instance. *)

Module ReferenceJson.

Definition quotation_mark : ascii := "034"%char.

Definition is_json_space (c : ascii) : bool :=
  bool_decide (c ∈ [" "; "009"; "010"; "013"]%char).

Fixpoint skip_space (s : string) : string :=
  match s with
  | String c s' => if is_json_space c then skip_space s' else s
  | EmptyString => EmptyString
  end.

Definition digit_of (c : ascii) : option Z :=
  let n := nat_of_ascii c in
  if bool_decide (48 ≤ n ≤ 57) then Some (Z.of_nat (n - 48)) else None.

Definition hex_of (c : ascii) : option nat :=
  let n := nat_of_ascii c in
  if bool_decide (48 ≤ n ≤ 57) then Some (n - 48)
  else if bool_decide (65 ≤ n ≤ 70) then Some (n - 55)
  else if bool_decide (97 ≤ n ≤ 102) then Some (n - 87)
  else None.

(** [strip p s]: [s] without its prefix [p]. *)
Fixpoint strip (p s : string) : option string :=
  match p, s with
  | EmptyString, _ => Some s
  | String a p, String b s => if bool_decide (a = b) then strip p s else None
  | _, _ => None
  end.

(** The digits at the start of [s], read after [acc]. *)
Fixpoint digits (acc : Z) (s : string) : Z * string :=
  match s with
  | String c s' =>
      match digit_of c with
      | Some d => digits (10 * acc + d) s'
      | None => (acc, s)
      end
  | EmptyString => (acc, s)
  end.

(** An integer: [0], or a non-zero digit and more digits; a fraction or an
    exponent after it is refused. *)
Definition natural (s : string) : option (Z * string) :=
  match s with
  | String c s' =>
      d ← digit_of c;
      let '(n, rest) := if bool_decide (d = 0%Z) then (0%Z, s') else digits d s' in
      match rest with
      | String c' _ =>
          if bool_decide (c' ∈ ["."; "e"; "E"]%char) then None else Some (n, rest)
      | EmptyString => Some (n, rest)
      end
  | EmptyString => None
  end.

Definition escape_of (c : ascii) : option ascii :=
  if bool_decide (c ∈ [quotation_mark; "\"%char; "/"%char]) then Some c
  else if bool_decide (c = "b"%char) then Some "008"%char
  else if bool_decide (c = "f"%char) then Some "012"%char
  else if bool_decide (c = "n"%char) then Some "010"%char
  else if bool_decide (c = "r"%char) then Some "013"%char
  else if bool_decide (c = "t"%char) then Some "009"%char
  else None.

(** The characters of a string after its opening quote, up to the
    closing one. *)
Fixpoint string_body (fuel : nat) (s : string) : option (string * string) :=
  match fuel, s with
  | S fuel, String c rest =>
      if bool_decide (c = quotation_mark) then Some (EmptyString, rest)
      else if bool_decide (c = "\"%char) then
        match rest with
        | String "u" (String h1 (String h2 (String h3 (String h4 rest)))) =>
            a ← hex_of h1; b ← hex_of h2; c ← hex_of h3; d ← hex_of h4;
            if bool_decide (a = 0 ∧ b = 0) then
              '(body, rest) ← string_body fuel rest;
              Some (String (ascii_of_nat (16 * c + d)) body, rest)
            else None
        | String e rest =>
            e ← escape_of e;
            '(body, rest) ← string_body fuel rest;
            Some (String e body, rest)
        | EmptyString => None
        end
      else if bool_decide (nat_of_ascii c < 32) then None
      else '(body, rest) ← string_body fuel rest; Some (String c body, rest)
  | _, _ => None
  end.

Section Composite.
Context (value : string → option (Value * string)).

(** The elements of an array after the first, up to the bracket. *)
Fixpoint elements (fuel : nat) (s : string) : option (list Value * string) :=
  match fuel, skip_space s with
  | S fuel, String c rest =>
      if bool_decide (c = "]"%char) then Some ([], rest)
      else if bool_decide (c = ","%char) then
        '(v, rest) ← value rest;
        '(vs, rest) ← elements fuel rest;
        Some (v :: vs, rest)
      else None
  | _, _ => None
  end.

Definition member (s : string) : option ((string * Value) * string) :=
  match skip_space s with
  | String c rest =>
      if bool_decide (c = quotation_mark) then
        '(key, rest) ← string_body (String.length rest) rest;
        rest ← strip ":" (skip_space rest);
        '(v, rest) ← value rest;
        Some ((key, v), rest)
      else None
  | EmptyString => None
  end.

(** The members of an object after the first, up to the brace. *)
Fixpoint members (fuel : nat) (s : string) : option (list (string * Value) * string) :=
  match fuel, skip_space s with
  | S fuel, String c rest =>
      if bool_decide (c = "}"%char) then Some ([], rest)
      else if bool_decide (c = ","%char) then
        '(m, rest) ← member rest;
        '(ms, rest) ← members fuel rest;
        Some (m :: ms, rest)
      else None
  | _, _ => None
  end.

End Composite.

Fixpoint value (fuel : nat) (s : string) : option (Value * string) :=
  match fuel, skip_space s with
  | S fuel, String c rest =>
      if bool_decide (c = "n"%char) then rest ← strip "ull" rest; Some (VNull, rest)
      else if bool_decide (c = "t"%char) then rest ← strip "rue" rest; Some (VBool true, rest)
      else if bool_decide (c = "f"%char) then rest ← strip "alse" rest; Some (VBool false, rest)
      else if bool_decide (c = quotation_mark) then
        '(body, rest) ← string_body (String.length rest) rest; Some (VStr body, rest)
      else if bool_decide (c = "["%char) then
        match skip_space rest with
        | String "]" rest => Some (VArr [], rest)
        | _ =>
            '(v, rest) ← value fuel rest;
            '(vs, rest) ← elements (value fuel) (String.length rest) rest;
            Some (VArr (v :: vs), rest)
        end
      else if bool_decide (c = "{"%char) then
        match skip_space rest with
        | String "}" rest => Some (VObj ∅, rest)
        | _ =>
            '(m, rest) ← member (value fuel) rest;
            '(ms, rest) ← members (value fuel) (String.length rest) rest;
            Some (VObj (list_to_map (reverse (m :: ms))), rest)
        end
      else if bool_decide (c = "-"%char) then
        '(n, rest) ← natural rest; Some (VNum (- n), rest)
      else '(n, rest) ← natural (String c rest); Some (VNum n, rest)
  | _, _ => None
  end.

(** A duplicate name keeps its last value. *)
Definition parse (text : string) : Completion Value :=
  match value (S (String.length text)) text with
  | Some (v, rest) =>
      if bool_decide (skip_space rest = "") then Normal v
      else Throw "SyntaxError: Unexpected non-whitespace character after JSON"
  | None => Throw "SyntaxError: Unexpected token"
  end.

End ReferenceJson.

(** ** Step updates: the rest of src/utils/mcpUtils.ts, and [sendStepUpdate] *)

Module StepUpdates.
Import McpUtils HostBridge.

(** [getContentKey(url)], the key [useMcpHostBridge] computes for its
    [url] as well. *)
Definition getContentKey (url : option string) : string :=
  match url with
  | Some u => if bool_decide (u = "") then "empty" else "url:" +:+ u
  | None => "empty"
  end.

(** [{ ...v }]: the own enumerable properties of [v], which for an
    array or a string are its indices. *)
Definition spread (v : Value) : gmap string Value :=
  match v with
  | VObj fields => fields
  | VArr items => list_to_map (imap (λ i x, (pretty i, x)) items)
  | VStr s =>
      list_to_map (imap (λ i c, (pretty i, VStr (String c EmptyString)))
                     (String.list_ascii_of_string s))
  | _ => ∅
  end.

Definition toolParams (toolName : Value) (k : string) (v : Value) : Value :=
  obj [("tool", obj [("name", toolName)]); (k, v)].

Section WithJson.
Context `{JsonParser}.

(** The three blocks of [processStepUpdate], each pushing one
    notification at most. *)
Definition progressOf (stepUpdate toolName : Value) : list Notification :=
  if truthy (get stepUpdate "stepToolProgress") then
    [{| method := "ui/notifications/tool-input-partial";
        params := toolParams toolName "arguments"
                    (VObj (<["_botdojoProgress" := VBool true]>
                             (spread (get stepUpdate "stepToolProgress")))) |}]
  else if is_string "streaming_args" (get stepUpdate "toolPhase")
          && truthy (or_else (get stepUpdate "stepId") (get stepUpdate "stepLabel"))
  then
    [{| method := "ui/notifications/tool-input-partial";
        params := toolParams toolName "arguments"
                    (VObj (<["stepLabel" := get stepUpdate "stepLabel"]>
                             (<["stepId" := get stepUpdate "stepId"]>
                                (spread (or_else (get stepUpdate "stepToolArguments")
                                           (obj [])))))) |}]
  else [].

Definition inputOf (stepUpdate toolName : Value) : list Notification :=
  if is_string "executing" (get stepUpdate "toolPhase")
     && truthy (get stepUpdate "stepToolArguments")
  then
    let args := returned (parseMaybeJson (get stepUpdate "stepToolArguments")) in
    if truthy args && typeof_object args && bool_decide (0 < Object_keys_length args)
    then [{| method := "ui/notifications/tool-input";
             params := toolParams toolName "arguments" args |}]
    else []
  else [].

Definition resultOf (stepUpdate toolName : Value) : list Notification :=
  let result := returned (parseMaybeJson (get stepUpdate "stepToolResult")) in
  if negb (is_undefined result) && negb (is_empty_string result)
  then [{| method := "ui/notifications/tool-result";
           params := toolParams toolName "result" result |}]
  else [].

(** [processStepUpdate(stepUpdate)].  Reading a property of [undefined]
    or [null] throws a TypeError, whose message is the engine's. *)
Definition processStepUpdate (stepUpdate : Value) : Completion (list Notification) :=
  match stepUpdate with
  | VUndefined | VNull => Throw "TypeError"
  | _ =>
      let toolName :=
        or_else (get stepUpdate "stepToolName") (get stepUpdate "toolName") in
      if negb (truthy toolName) then Normal []
      else Normal (progressOf stepUpdate toolName
                   ++ inputOf stepUpdate toolName
                   ++ resultOf stepUpdate toolName)
  end.

(** [sendStepUpdate] of the bridge: every notification of the step
    update goes through [sendToolNotification]. *)
Definition sendStepUpdate (stepUpdate : Value) (b : Bridge) : Completion Bridge :=
  match processStepUpdate stepUpdate with
  | Normal notifications =>
      Normal (foldl (λ b n, sendToolNotification (method n) (params n) b)
                b notifications)
  | Throw e => Throw e
  end.

End WithJson.
End StepUpdates.

(** ** Regular expressions

    The expressions the sources test strings with, as syntax trees, and
    [RegExp.prototype.test] on them by derivatives.  An expression
    anchored at both ends ([^...$], no [m] flag) has to match the whole
    string; one anchored at the start only, a prefix; one without anchor,
    any part. *)

Module Regex.

Inductive Re :=
  | Never
  | Eps
  | Class (p : ascii → bool)
  | Seq (a b : Re)
  | Alt (a b : Re)
  | Star (a : Re).

Fixpoint nullable (r : Re) : bool :=
  match r with
  | Never | Class _ => false
  | Eps | Star _ => true
  | Seq a b => nullable a && nullable b
  | Alt a b => nullable a || nullable b
  end.

Fixpoint deriv (c : ascii) (r : Re) : Re :=
  match r with
  | Never | Eps => Never
  | Class p => if p c then Eps else Never
  | Seq a b =>
      if nullable a then Alt (Seq (deriv c a) b) (deriv c b) else Seq (deriv c a) b
  | Alt a b => Alt (deriv c a) (deriv c b)
  | Star a => Seq (deriv c a) (Star a)
  end.

(** [/^r$/.test(s)] *)
Fixpoint matches (r : Re) (s : string) : bool :=
  match s with
  | EmptyString => nullable r
  | String c s => matches (deriv c r) s
  end.

Definition anything : Re := Star (Class (λ _, true)).

(** [/^r/.test(s)] and [/r/.test(s)] *)
Definition matches_prefix (r : Re) (s : string) : bool := matches (Seq r anything) s.
Definition search (r : Re) (s : string) : bool :=
  matches (Seq anything (Seq r anything)) s.

(** One or more, and at most one. *)
Definition Plus (a : Re) : Re := Seq a (Star a).
Definition Opt (a : Re) : Re := Alt a Eps.

(** A literal text; with the [i] flag, letters of either case. *)
Definition same_letter (a b : ascii) : bool :=
  let lower n := if bool_decide (65 ≤ n ≤ 90) then n + 32 else n in
  bool_decide (lower (nat_of_ascii a) = lower (nat_of_ascii b)).

Fixpoint Text (s : string) : Re :=
  match s with
  | EmptyString => Eps
  | String c s => Seq (Class (λ c', bool_decide (c' = c))) (Text s)
  end.

Fixpoint TextI (s : string) : Re :=
  match s with
  | EmptyString => Eps
  | String c s => Seq (Class (same_letter c)) (TextI s)
  end.

End Regex.

(** ** src/utils/uiCsp.ts *)

Module UiCsp.
Import Regex.

(** [MaybeArray<T>] for strings *)
Inductive MaybeArray :=
  | Missing
  | Single (value : string)
  | Many (values : list string).

(** [UiCspMeta]; [None] is a property that is absent. *)
Record UiCspMeta := {
  domain : option string;
  connectDomains : MaybeArray;
  resourceDomains : MaybeArray;
  allowPopups : option bool;
  allowForms : option bool;
  allowSameOrigin : option bool;
}.

(** [{ ...DEFAULT_CSP_META, ...(meta || {}) }] *)
Record Merged := {
  m_domain : option string;
  m_connectDomains : MaybeArray;
  m_resourceDomains : MaybeArray;
  m_allowPopups : bool;
  m_allowForms : bool;
  m_allowSameOrigin : bool;
}.

Record ResolvedUiCsp := {
  sandbox : string;
  csp : string;
  meta : Merged;
}.

Definition ensureArray (value : MaybeArray) : list string :=
  match value with
  | Missing => []
  | Single v => if bool_decide (v = "") then [] else [v]
  | Many values => values
  end.

(** [/[;\n\r]/] *)
Definition injection : Re :=
  Class (λ c, bool_decide (c ∈ [";"; "010"; "013"]%char)).

(** [/^https?:\/\//i] and [/^wss?:\/\//i] *)
Definition http_scheme : Re :=
  Seq (TextI "http") (Seq (Opt (Class (same_letter "s"))) (TextI "://")).
Definition ws_scheme : Re :=
  Seq (TextI "ws") (Seq (Opt (Class (same_letter "s"))) (TextI "://")).

Definition in_range (lo hi : nat) (c : ascii) : bool :=
  bool_decide (lo ≤ nat_of_ascii c ≤ hi).

(** [[A-Za-z0-9_-]], [[*.A-Za-z0-9_-]] and [\d] *)
Definition word (c : ascii) : bool :=
  in_range 65 90 c || in_range 97 122 c || in_range 48 57 c
  || bool_decide (c = "_"%char) || bool_decide (c = "-"%char).
Definition host_start (c : ascii) : bool :=
  bool_decide (c = "*"%char) || bool_decide (c = "."%char) || word c.
Definition digit (c : ascii) : bool := in_range 48 57 c.

(** [/^[*.A-Za-z0-9_-]+(\.[A-Za-z0-9_-]+)*(?::\d+)?$/] *)
Definition host : Re :=
  Seq (Plus (Class host_start))
    (Seq (Star (Seq (Class (λ c, bool_decide (c = "."%char))) (Plus (Class word))))
       (Opt (Seq (Class (λ c, bool_decide (c = ":"%char))) (Plus (Class digit))))).

Definition keywords : list string :=
  ["'self'"; "'none'"; "'unsafe-inline'"; "'unsafe-eval'"; "'strict-dynamic'";
   "'unsafe-hashes'"; "'report-sample'"].

Definition sanitizeSource (value : string) : option string :=
  let trimmed := trim value in
  if bool_decide (trimmed = "") then None
  else if search injection trimmed then None
  else if bool_decide (trimmed ∈ keywords) then Some trimmed
  else if bool_decide (trimmed = "data:") || bool_decide (trimmed = "blob:")
  then Some trimmed
  else if matches_prefix http_scheme trimmed || matches_prefix ws_scheme trimmed
  then Some trimmed
  else if matches host trimmed then Some trimmed
  else None.

(** [uniq]: the items of a [Set] in the order they were added; an item
    that is [null] or empty is not added. *)
Definition uniq (items : list (option string)) : list string :=
  foldl (λ seen item,
           match item with
           | Some item =>
               if negb (bool_decide (item = "")) && negb (bool_decide (item ∈ seen))
               then seen ++ [item] else seen
           | None => seen
           end) [] items.

(** [.filter(Boolean)] on strings and [null] *)
Definition filterBoolean (items : list (option string)) : list (option string) :=
  List.filter (λ item, match item with
                       | Some item => negb (bool_decide (item = ""))
                       | None => false
                       end) items.

Definition buildSources (base domains extras : list string) : list string :=
  uniq (filterBoolean (map sanitizeSource (base ++ domains ++ extras))).

(** [list.length ? list : fallback] *)
Definition or_default (sources fallback : list string) : list string :=
  if bool_decide (0 < length sources) then sources else fallback.

Definition merge (meta : option UiCspMeta) : Merged :=
  match meta with
  | Some meta =>
      {| m_domain := domain meta;
         m_connectDomains := connectDomains meta;
         m_resourceDomains := resourceDomains meta;
         m_allowPopups := default false (allowPopups meta);
         m_allowForms := default false (allowForms meta);
         m_allowSameOrigin := default true (allowSameOrigin meta) |}
  | None =>
      {| m_domain := None; m_connectDomains := Missing; m_resourceDomains := Missing;
         m_allowPopups := false; m_allowForms := false; m_allowSameOrigin := true |}
  end.

Definition sandboxParts (merged : Merged) : list string :=
  ["allow-scripts"]
  ++ (if m_allowSameOrigin merged then ["allow-same-origin"] else [])
  ++ (if m_allowForms merged then ["allow-forms"] else [])
  ++ (if m_allowPopups merged
      then ["allow-popups"; "allow-top-navigation-by-user-activation"] else []).

(** The directives, in the order of the object literal. *)
Definition directives (merged : Merged) : list (string * list string) :=
  let connectDomains := ensureArray (m_connectDomains merged) in
  let resourceDomains := ensureArray (m_resourceDomains merged) in
  let domain := match m_domain merged with
                | Some d => if bool_decide (d = "") then [] else [d]
                | None => []
                end in
  let scriptSrc :=
    buildSources ["'self'"; "'unsafe-inline'"; "'unsafe-eval'"; "blob:"]
      (resourceDomains ++ domain) [] in
  let styleSrc := buildSources ["'self'"; "'unsafe-inline'"; "blob:"] resourceDomains [] in
  let imgSrc := buildSources ["'self'"; "data:"; "blob:"] resourceDomains [] in
  let fontSrc := buildSources ["'self'"; "data:"; "blob:"] resourceDomains [] in
  let connectSrc := buildSources ["'self'"] (connectDomains ++ domain) [] in
  let mediaSrc := buildSources ["'self'"; "data:"; "blob:"] resourceDomains [] in
  let frameSrc := buildSources ["'none'"] [] [] in
  [("default-src", ["'none'"]);
   ("script-src", or_default scriptSrc ["'self'"]);
   ("style-src", or_default styleSrc ["'self'"; "'unsafe-inline'"]);
   ("img-src", or_default imgSrc ["'self'"; "data:"]);
   ("font-src", or_default fontSrc ["'self'"; "data:"]);
   ("connect-src", or_default connectSrc ["'self'"]);
   ("media-src", or_default mediaSrc ["'self'"; "data:"]);
   ("frame-src", frameSrc);
   ("object-src", ["'none'"]);
   ("base-uri", ["'self'"]);
   ("form-action", if m_allowForms merged then ["'self'"] else ["'none'"])].

Definition resolveUiCsp (meta : option UiCspMeta) : ResolvedUiCsp :=
  let merged := merge meta in
  {| sandbox := String.concat " " (sandboxParts merged);
     csp := String.concat "; "
              (map (λ '(key, sources), key +:+ " " +:+ String.concat " " sources)
                 (directives merged));
     meta := merged |}.

(** [extractUiCspFromResource] *)
Definition extractUiCspFromResource (resource : Value) : Value :=
  if negb (truthy resource) || negb (typeof_object resource) then VUndefined
  else
    let uiMeta :=
      or_else (get (get resource "meta") "ui")
        (or_else (get (get resource "metadata") "ui")
           (or_else (get (get resource "_meta") "ui") VUndefined)) in
    or_else (get uiMeta "csp") VUndefined.

End UiCsp.

(** ** src/utils/mcpHtmlProxy.ts *)

Module HtmlProxy.
Import Regex.

Definition quotation_mark : ascii := "034"%char.
Definition LF : string := String "010" "".

(** [s.replace(/c/g, replacement)] for one character [c] and a
    replacement that holds no [$]. *)
Fixpoint replace_all (c : ascii) (replacement : string) (s : string) : string :=
  match s with
  | String a s' =>
      (if bool_decide (a = c) then replacement else String a "")
      +:+ replace_all c replacement s'
  | EmptyString => EmptyString
  end.

Definition escapeHtmlAttr (value : string) : string :=
  replace_all ">" "&gt;"
    (replace_all "<" "&lt;"
       (replace_all quotation_mark "&quot;"
          (replace_all "&" "&amp;" value))).

(** *** [String.prototype.replace] with a pattern of one group *)

(** What a match of a pattern gives: the text before it, the matched
    text, its group and the text after it. *)
Record Match := {
  before : string;
  matched : string;
  group : string;
  after : string;
}.

Definition is_digit (c : ascii) : bool :=
  bool_decide (48 ≤ nat_of_ascii c ≤ 57).
Definition digit_value (c : ascii) : nat := nat_of_ascii c - 48.

(** The capture [index] of a pattern with one group, if there is one. *)
Definition capture (m : Match) (index : nat) : option string :=
  if bool_decide (index = 1) then Some (group m) else None.

(** GetSubstitution: the replacement text of a match for a template.  [$$]
    is a dollar, [$&] the match, [$`] and [$'] the text before and after it,
    [$n] and [$nn] a capture if the pattern has one of that number; two
    digits that number no capture are read as one digit.  Any other [$] stands for
    itself (so does [$<], the pattern having no named group). *)
Fixpoint substitute (m : Match) (template : string) : string :=
  match template with
  | String "$" (String c rest as tail) =>
      if bool_decide (c = "$"%char) then "$" +:+ substitute m rest
      else if bool_decide (c = "`"%char) then before m +:+ substitute m rest
      else if bool_decide (c = "&"%char) then matched m +:+ substitute m rest
      else if bool_decide (c = "'"%char) then after m +:+ substitute m rest
      else if is_digit c then
        let one :=
          match capture m (digit_value c) with
          | Some text => text +:+ substitute m rest
          | None => String "$" (String c (substitute m rest))
          end in
        match rest with
        | String d rest' =>
            if is_digit d then
              let index := 10 * digit_value c + digit_value d in
              if bool_decide (index ≤ 1) then
                match capture m index with
                | Some text => text +:+ substitute m rest'
                | None => String "$" (String c (String d (substitute m rest')))
                end
              else one
            else one
        | EmptyString => one
        end
      else String "$" (substitute m tail)
  | String c rest => String c (substitute m rest)
  | EmptyString => EmptyString
  end.

(** The pattern of a tag, with flag [i]: [<name] in either case, a group
    of zero or more characters other than [>], and a [>]. *)
Definition tag (name : string) : Re :=
  Seq (TextI ("<" +:+ name))
    (Seq (Star (Class (λ c, negb (bool_decide (c = ">"%char)))))
       (Class (λ c, bool_decide (c = ">"%char)))).

(** A prefix of [s] that is [p] in either case, and what follows it. *)
Fixpoint strip_i (p s : string) : option (string * string) :=
  match p, s with
  | EmptyString, _ => Some (EmptyString, s)
  | String a p', String b s' =>
      if same_letter a b
      then '(found, rest) ← strip_i p' s'; Some (String b found, rest)
      else None
  | String _ _, EmptyString => None
  end.

(** The text up to the next [>], and what follows that [>]. *)
Fixpoint up_to_gt (s : string) : option (string * string) :=
  match s with
  | String c s' =>
      if bool_decide (c = ">"%char) then Some (EmptyString, s')
      else '(taken, rest) ← up_to_gt s'; Some (String c taken, rest)
  | EmptyString => None
  end.

(** A match of [tag name] at the start of [s]: the group can only end at
    the next [>], which it cannot hold. *)
Definition match_here (name s : string) : option Match :=
  '(opening, rest) ← strip_i ("<" +:+ name) s;
  '(attributes, rest) ← up_to_gt rest;
  Some {| before := ""; matched := opening +:+ attributes +:+ ">";
          group := attributes; after := rest |}.

(** The first match of [tag name] in [s], from the left. *)
Fixpoint exec_tag (name s : string) : option Match :=
  match match_here name s with
  | Some m => Some m
  | None =>
      match s with
      | String c s' =>
          m ← exec_tag name s';
          Some {| before := String c (before m); matched := matched m;
                  group := group m; after := after m |}
      | EmptyString => None
      end
  end.

(** [s.replace(pattern, template)] for the pattern of a tag *)
Definition replace_tag (name template s : string) : string :=
  match exec_tag name s with
  | Some m => before m +:+ substitute m template +:+ after m
  | None => s
  end.

(** *** The document *)

Definition injectIntoHead (html headContent : string) : string :=
  if bool_decide (headContent = "") then html
  else if search (tag "head") html
  then replace_tag "head" ("<head$1>" +:+ LF +:+ headContent +:+ LF) html
  else if search (tag "html") html
  then replace_tag "html"
         ("<html$1>" +:+ LF +:+ "<head>" +:+ LF +:+ headContent +:+ LF +:+ "</head>")
         html
  else "<head>" +:+ LF +:+ headContent +:+ LF +:+ "</head>" +:+ LF +:+ html.

Definition ensureDoctype (html : string) : string :=
  if search (TextI "<!doctype") html then html
  else "<!doctype html>" +:+ LF +:+ html.

End HtmlProxy.

(** ** The policy of a resolved resource (BotDojoChatProvider, case
    ['step_update']) *)

Module ResourceHtml.
Import Regex UiCsp HtmlProxy.

(** The [meta] tag for a policy; its quotation marks are written [&quot;]. *)
Definition cspMetaTag (csp : string) : string :=
  "<meta http-equiv=" +:+ String quotation_mark "Content-Security-Policy"
  +:+ String quotation_mark " content=" +:+ String quotation_mark ""
  +:+ replace_all quotation_mark "&quot;" csp
  +:+ String quotation_mark ">".

(** The HTML of a resource whose metadata yields the policy metadata
    [cspMeta]; without metadata the HTML stays as it is.  The provider
    gets here with a non-empty [htmlContent] only. *)
Definition injectCsp (htmlContent : string) (cspMeta : option UiCspMeta) : string :=
  match cspMeta with
  | Some cspMeta =>
      let resolvedCsp := resolveUiCsp (Some cspMeta) in
      let cspMetaTag := cspMetaTag (csp resolvedCsp) in
      if search (tag "head") htmlContent
      then replace_tag "head" ("<head$1>" +:+ LF +:+ cspMetaTag +:+ LF) htmlContent
      else if search (tag "html") htmlContent
      then replace_tag "html"
             ("<html$1>" +:+ LF +:+ "<head>" +:+ LF +:+ cspMetaTag +:+ LF +:+ "</head>")
             htmlContent
      else "<head>" +:+ LF +:+ cspMetaTag +:+ LF +:+ "</head>" +:+ LF +:+ htmlContent
  | None => htmlContent
  end.

End ResourceHtml.

(** ** The connector's [RequestEvents]  (connector.ts) *)

Module RequestEvents.

(** A callback is a function of the caller; the model names it.  A call
    is the callback and the data it got. *)
Definition Callback := nat.
Definition Call : Type := Callback * Value.

(** The constructor's argument.  [allEvents] passes an object that may
    hold [onIntermediateStepUpdate], which the constructor does not read. *)
Record Options := {
  o_events : option (list string);
  o_onFlowRequestStart : option Callback;
  o_onNewToken : option Callback;
  o_onStepUpdate : option Callback;
  o_onIntermediateStepUpdate : option Callback;
  o_onFlowRequestEnd : option Callback;
  o_onLog : option Callback;
}.

Definition no_options : Options :=
  {| o_events := None; o_onFlowRequestStart := None; o_onNewToken := None;
     o_onStepUpdate := None; o_onIntermediateStepUpdate := None;
     o_onFlowRequestEnd := None; o_onLog := None |}.

(** The public fields of the class. *)
Record RequestEvents := {
  events : option (list string);
  onFlowRequestStart : option Callback;
  onNewToken : option Callback;
  onStepUpdate : option Callback;
  onFlowRequestEnd : option Callback;
  onLog : option Callback;
}.

(** [if (options.k) this.events.push(name)] *)
Definition pushed (callback : option Callback) (name : string) : list string :=
  match callback with Some _ => [name] | None => [] end.

(** [new RequestEvents(options)]: the fields other than [events] have no
    initialiser and the constructor does not assign them. *)
Definition new (options : Options) : RequestEvents :=
  {| events := Some (pushed (o_onFlowRequestStart options) "onFlowRequestStart"
                     ++ pushed (o_onNewToken options) "onNewToken"
                     ++ pushed (o_onStepUpdate options) "onIntermediateStepUpdate"
                     ++ pushed (o_onFlowRequestEnd options) "onFlowRequestEnd"
                     ++ pushed (o_onLog options) "onLog");
     onFlowRequestStart := None;
     onNewToken := None;
     onStepUpdate := None;
     onFlowRequestEnd := None;
     onLog := None |}.

Definition getEvents (this : RequestEvents) : list string :=
  default ["onNewToken"; "onIntermediateStepUpdate"; "onFlowRequestEnd";
           "onFlowRequestStart"; "onLog"] (events this).

(** The field a [switch (eventType)] selects. *)
Definition callbackOf (this : RequestEvents) (eventType : string) : option Callback :=
  if bool_decide (eventType = "onFlowRequestStart") then onFlowRequestStart this
  else if bool_decide (eventType = "onNewToken") then onNewToken this
  else if bool_decide (eventType = "onIntermediateStepUpdate") then onStepUpdate this
  else if bool_decide (eventType = "onFlowRequestEnd") then onFlowRequestEnd this
  else if bool_decide (eventType = "onLog") then onLog this
  else None.

Definition hasCallback (this : RequestEvents) (eventType : string) : bool :=
  bool_decide (is_Some (callbackOf this eventType)).

(** [executeCallback]: the calls it makes. *)
Definition executeCallback (this : RequestEvents) (eventType : string) (data : Value)
  : list Call :=
  match callbackOf this eventType with
  | Some callback => [(callback, data)]
  | None => []
  end.

Definition tokenStreaming (onNewToken : Callback) : RequestEvents :=
  new {| o_events := Some ["onNewToken"; "onFlowRequestEnd"];
         o_onFlowRequestStart := None; o_onNewToken := Some onNewToken;
         o_onStepUpdate := None; o_onIntermediateStepUpdate := None;
         o_onFlowRequestEnd := None; o_onLog := None |}.

(** [allEvents(callbacks)]: the parameter's type has
    [onIntermediateStepUpdate] and no [onStepUpdate]. *)
Definition allEvents (onFlowRequestStart onNewToken onIntermediateStepUpdate
                        onFlowRequestEnd onLog : option Callback) : RequestEvents :=
  new {| o_events := None;
         o_onFlowRequestStart := onFlowRequestStart; o_onNewToken := onNewToken;
         o_onStepUpdate := None;
         o_onIntermediateStepUpdate := onIntermediateStepUpdate;
         o_onFlowRequestEnd := onFlowRequestEnd; o_onLog := onLog |}.

End RequestEvents.

(** ** src/utils/mcpHtmlProxy.ts: the proxy URL *)

Module ProxyUrl.

(** The characters [encodeURIComponent] keeps: letters, digits and
    [- _ . ! ~ * ' ( )]. *)
Definition unreserved (c : ascii) : bool :=
  let n := nat_of_ascii c in
  bool_decide (65 ≤ n ≤ 90) || bool_decide (97 ≤ n ≤ 122) || bool_decide (48 ≤ n ≤ 57)
  || bool_decide (c ∈ ["-"; "_"; "."; "!"; "~"; "*"; "'"; "("; ")"]%char).

Definition hex_digit (n : nat) : ascii :=
  ascii_of_nat (if bool_decide (n < 10) then 48 + n else 55 + n).

(** [%XX] for an octet, in upper case. *)
Definition percent (octet : nat) : string :=
  String "%" (String (hex_digit (octet / 16)) (String (hex_digit (octet mod 16)) "")).

(** A code unit below 128 is one octet of UTF-8, one from 128 to 255 is
    two. *)
Definition encode_unit (c : ascii) : string :=
  let n := nat_of_ascii c in
  if unreserved c then String c ""
  else if bool_decide (n < 128) then percent n
  else percent (192 + n / 64) +:+ percent (128 + n mod 64).

Fixpoint encodeURIComponent (s : string) : string :=
  match s with
  | String c s' => encode_unit c +:+ encodeURIComponent s'
  | EmptyString => EmptyString
  end.

Record McpProxyUrlOptions := {
  flowId : string;
  resource : string;
  origin : option string;
}.

(** [a || b] on strings that may be missing *)
Definition or_string (a : option string) (b : string) : string :=
  match a with
  | Some a => if bool_decide (a = "") then b else a
  | None => b
  end.

Definition buildMcpProxyUrl (options : McpProxyUrlOptions) : string :=
  let origin := or_string (origin options) "https://mcp-app-proxy.botdojo.com" in
  let flowId := encodeURIComponent (or_string (Some (flowId options)) "unknown") in
  let encodedResource := encodeURIComponent (or_string (Some (resource options)) "") in
  origin +:+ "/" +:+ flowId +:+ "/?url=" +:+ encodedResource.

End ProxyUrl.

(** ** src/utils/mcpHtmlProxy.ts: the cache key *)

Module CacheKey.
Import HtmlProxy ProxyUrl.

(** What the runtime offers to encode with. *)
Record Runtime := {
  has_btoa : bool;
  has_Buffer : bool;
}.

(** The octets of a text in UTF-8: one for a code unit below 128, two for
    one from 128 to 255. *)
Fixpoint utf8 (s : string) : list nat :=
  match s with
  | String c s' =>
      let n := nat_of_ascii c in
      (if bool_decide (n < 128) then [n] else [192 + n / 64; 128 + n mod 64])
      ++ utf8 s'
  | EmptyString => []
  end.

Definition alphabet : list ascii :=
  String.list_ascii_of_string
    "ABCDEFGHIJKLMNOPQRSTUVWXYZabcdefghijklmnopqrstuvwxyz0123456789+/".

Definition sextet (n : nat) : ascii := nth n alphabet "A"%char.

(** Base64 with padding: what [btoa] makes of octets, and
    [Buffer.toString('base64')] too. *)
Fixpoint base64 (octets : list nat) : string :=
  match octets with
  | a :: b :: c :: rest =>
      String (sextet (a / 4))
        (String (sextet (a mod 4 * 16 + b / 16))
           (String (sextet (b mod 16 * 4 + c / 64))
              (String (sextet (c mod 64)) (base64 rest))))
  | [a; b] =>
      String (sextet (a / 4))
        (String (sextet (a mod 4 * 16 + b / 16))
           (String (sextet (b mod 16 * 4)) "="))
  | [a] =>
      String (sextet (a / 4)) (String (sextet (a mod 4 * 16)) "==")
  | [] => EmptyString
  end.

(** [s.replace(/=+$/, '')] *)
Fixpoint strip_padding (s : string) : string :=
  match s with
  | String c s' =>
      match strip_padding s' with
      | EmptyString => if bool_decide (c = "="%char) then EmptyString else String c EmptyString
      | rest => String c rest
      end
  | EmptyString => EmptyString
  end.

(** [unescape(encodeURIComponent(value))] is the text whose code units
    are the UTF-8 octets of [value], and [Buffer.from(value, 'utf-8')] holds
    the same octets. *)
Definition toBase64Url (runtime : Runtime) (value : string) : string :=
  let encoded :=
    if has_btoa runtime then base64 (utf8 value)
    else if has_Buffer runtime then base64 (utf8 value)
    else "" in
  strip_padding (replace_all "/" "_" (replace_all "+" "-" encoded)).

Record CacheKeyOptions := {
  flowId : option string;
  contextResourceUri : option string;
  resourceUri : string;
}.

(** The text the key is made from. *)
Definition raw (opts : CacheKeyOptions) : string :=
  or_string (flowId opts) "unknown" +:+ "|"
  +:+ or_string (contextResourceUri opts) "" +:+ "|"
  +:+ or_string (Some (resourceUri opts)) "".

Definition buildMcpCacheKey (runtime : Runtime) (opts : CacheKeyOptions) : string :=
  toBase64Url runtime (raw opts).

End CacheKey.

(** * Properties *)

(** ** Strings and the reference parser *)

Module JsFacts.

Lemma trim_start_head (s : string) :
  trim_start s = "" ∨
  ∃ c rest, trim_start s = String c rest ∧ is_white_space c = false.
Proof.
  induction s as [|c s IH]; simpl; [by left|].
  destruct (is_white_space c) eqn:Hc; [done|].
  right. by exists c, s.
Qed.

Lemma trim_end_head (c : ascii) (s : string) :
  is_white_space c = false → trim_end (String c s) ≠ "".
Proof. intros Hc. simpl. rewrite Hc. by destruct (trim_end s). Qed.

Lemma trim_blank (s : string) : trim s = "" ↔ trim_start s = "".
Proof.
  unfold trim. split; [|by intros ->].
  destruct (trim_start_head s) as [->|(c & rest & -> & Hc)]; [done|].
  intros Hend. by apply trim_end_head in Hend.
Qed.

Lemma trim_empty : trim "" = "".
Proof. reflexivity. Qed.

End JsFacts.

Module ReferenceJsonFacts.
Import McpUtils ReferenceJson JsFacts.

Lemma skip_space_blank (s : string) :
  trim_start s = "" →
  skip_space s = "" ∨
  ∃ c rest, skip_space s = String c rest
            ∧ is_white_space c = true ∧ is_json_space c = false.
Proof.
  induction s as [|c s IH]; simpl; [by left|].
  destruct (is_white_space c) eqn:Hws; [|done].
  intros Hs. destruct (is_json_space c) eqn:Hjs; [by apply IH|].
  right. by exists c, s.
Qed.

(** No JSON value starts with one of the other white-space characters. *)
Lemma no_value_at_white_space (fuel : nat) (c : ascii) (rest : string) :
  is_white_space c = true → is_json_space c = false →
  skip_space (String c rest) = String c rest ∧
  ∀ s, skip_space s = String c rest → value fuel s = None.
Proof.
  intros Hws Hjs. split; [by simpl; rewrite Hjs|].
  intros s Hs. destruct fuel as [|fuel]; simpl; [done|]. rewrite Hs.
  destruct c as [[] [] [] [] [] [] [] []]; try discriminate Hws;
    try discriminate Hjs; reflexivity.
Qed.

Lemma value_blank (fuel : nat) (s : string) :
  trim_start s = "" → value fuel s = None.
Proof.
  intros Hs. destruct (skip_space_blank s Hs) as [Hskip|(c & rest & Hskip & Hws & Hjs)].
  - destruct fuel; simpl; [done|]. by rewrite Hskip.
  - by apply (no_value_at_white_space fuel c rest Hws Hjs).
Qed.

Lemma parse_blank (s : string) : trim s = "" → ∃ e, parse s = Throw e.
Proof.
  intros Hs%trim_blank. unfold parse. rewrite value_blank; eauto.
Qed.

(** The reference parser as the runtime's [JSON.parse]. *)
Definition reference_parser : JsonParser :=
  {| JSON_parse := parse; JSON_parse_blank := parse_blank |}.

End ReferenceJsonFacts.

(** ** src/utils/mcpUtils.ts *)

Module McpUtilsFacts.
Import McpUtils JsFacts.

Section WithJson.
Context `{JsonParser}.

Lemma JSON_parse_not_blank (s : string) (v : Value) :
  JSON_parse s = Normal v → trim s ≠ "".
Proof.
  intros Hv Hs. destruct (JSON_parse_blank s Hs) as [e He]. congruence.
Qed.

Lemma parseMaybeJson_string (s : string) :
  s ≠ "" →
  parseMaybeJson (VStr s) =
    if bool_decide (trim s = "") then Normal (VStr s)
    else try_catch (JSON_parse s) (λ _, Normal (VStr s)).
Proof.
  intros Hs. unfold parseMaybeJson. destruct s; [done|]. simpl.
  by repeat case_bool_decide.
Qed.

Lemma parseMaybeJson_returns (value : Value) :
  ∃ r, parseMaybeJson value = Normal r.
Proof.
  destruct value as [| |b|n|s|items|fields]; try (by eexists).
  destruct (decide (s = "")) as [->|Hs]; [by eexists|].
  rewrite parseMaybeJson_string by done.
  case_bool_decide; [by eexists|].
  destruct (JSON_parse s); by eexists.
Qed.

Lemma returned_parseMaybeJson (value : Value) :
  parseMaybeJson value = Normal (returned (parseMaybeJson value)).
Proof. by destruct (parseMaybeJson_returns value) as [r ->]. Qed.

(** C10. [parseMaybeJson] never throws, whatever it is given.  It returns
    [undefined] for [undefined], [null] and the empty string; an object
    or array itself; the parsed value of a string that is a JSON text;
    and a string that is no JSON text unchanged. *)
Theorem parseMaybeJson_total :
  (∀ value, ∃ r, parseMaybeJson value = Normal r)
  ∧ parseMaybeJson VUndefined = Normal VUndefined
  ∧ parseMaybeJson VNull = Normal VUndefined
  ∧ parseMaybeJson (VStr "") = Normal VUndefined
  ∧ (∀ fields, parseMaybeJson (VObj fields) = Normal (VObj fields))
  ∧ (∀ items, parseMaybeJson (VArr items) = Normal (VArr items))
  ∧ (∀ s v, JSON_parse s = Normal v → parseMaybeJson (VStr s) = Normal v)
  ∧ (∀ s e, s ≠ "" → JSON_parse s = Throw e →
       parseMaybeJson (VStr s) = Normal (VStr s)).
Proof.
  split; [exact parseMaybeJson_returns|].
  repeat split; try done.
  - intros s v Hv. pose proof (JSON_parse_not_blank s v Hv) as Hblank.
    assert (s ≠ "") as Hs by (intros ->; by apply Hblank).
    rewrite parseMaybeJson_string by done.
    rewrite bool_decide_eq_false_2 by done. by rewrite Hv.
  - intros s e Hs He. rewrite parseMaybeJson_string by done.
    case_bool_decide; [done|]. by rewrite He.
Qed.

End WithJson.

(** With the reference parser: a JSON text, a text that is none, and a
    blank one. *)
Example parseMaybeJson_examples :
  let parseMaybeJson := @parseMaybeJson ReferenceJsonFacts.reference_parser in
  parseMaybeJson (VStr "{ }") = Normal (obj [])
  ∧ parseMaybeJson (VStr "[1, [true, null]]")
    = Normal (VArr [VNum 1; VArr [VBool true; VNull]])
  ∧ parseMaybeJson (VStr "{q:") = Normal (VStr "{q:")
  ∧ parseMaybeJson (VStr "  ") = Normal (VStr "  ")
  ∧ parseMaybeJson (VStr (String ReferenceJson.quotation_mark
                             (String ReferenceJson.quotation_mark "")))
    = Normal (VStr "")
  ∧ parseMaybeJson (VNum 3) = Normal (VNum 3).
Proof. vm_compute. done. Qed.

Lemma parseMaybeJson_total_witness :
  parseMaybeJson (H := ReferenceJsonFacts.reference_parser) (VStr "[1, [true, null]]")
  = Normal (VArr [VNum 1; VArr [VBool true; VNull]])
  ∧ parseMaybeJson (H := ReferenceJsonFacts.reference_parser) (VStr "{q:")
    = Normal (VStr "{q:").
Proof.
  destruct (parseMaybeJson_total (H := ReferenceJsonFacts.reference_parser))
    as (_ & _ & _ & _ & _ & _ & Hparsed & Hkept).
  split.
  - apply Hparsed. vm_compute. reflexivity.
  - eapply Hkept; [discriminate|]. vm_compute. reflexivity.
Defined.

End McpUtilsFacts.

(** ** The host bridge: notifications, handshake and hydration *)

Module HostBridgeFacts.
Import McpUtils HostBridge McpUtilsFacts.

(** An object with an own property, or an array with an element. *)
Definition nonempty_object (v : Value) : Prop :=
  match v with
  | VObj fields => fields ≠ ∅
  | VArr items => items ≠ []
  | _ => False
  end.

(** A result that is neither [undefined] nor the empty string. *)
Definition nonempty_result (v : Value) : Prop := v ≠ VUndefined ∧ v ≠ VStr "".

#[global] Instance nonempty_object_dec v : Decision (nonempty_object v).
Proof. destruct v; simpl; apply _. Defined.

Lemma nonempty_result_spec (v : Value) :
  negb (is_undefined v) && negb (is_empty_string v) = true ↔ nonempty_result v.
Proof.
  unfold nonempty_result.
  destruct v as [| | | |[|c s]| |]; simpl; split; (done || by intros []).
Qed.

#[global] Instance nonempty_result_dec v : Decision (nonempty_result v).
Proof.
  refine (cast_if (decide (negb (is_undefined v) && negb (is_empty_string v) = true)));
    by rewrite <-nonempty_result_spec.
Defined.

Lemma nonempty_object_spec (v : Value) :
  truthy v && typeof_object v && bool_decide (0 < Object_keys_length v) = true
  ↔ nonempty_object v.
Proof.
  destruct v as [| |b|n|s|items|fields];
    cbn [truthy typeof_object Object_keys_length nonempty_object andb];
    rewrite ?andb_false_r; try (split; [done|tauto]).
  - rewrite bool_decide_eq_true. destruct items; simpl; split; (done || lia).
  - rewrite bool_decide_eq_true. split.
    + intros Hsize ->. rewrite map_size_empty in Hsize. lia.
    + intros Hne. destruct (decide (size fields = 0)) as [Hz%map_size_empty_inv|]; [done|lia].
Qed.

Lemma validateToolParams_result (params : Value) :
  validateToolParams params kind_result = true ↔ nonempty_result (get params "result").
Proof. apply nonempty_result_spec. Qed.

Lemma validateToolParams_arguments (params : Value) (kind : Kind) :
  kind ≠ kind_result →
  validateToolParams params kind = true ↔ nonempty_object (get params "arguments").
Proof.
  intros Hkind. rewrite <-nonempty_object_spec.
  destruct kind; [| |done]; unfold validateToolParams;
    destruct (get params "arguments") as [| |b|n|s|items|fields];
    cbn [truthy typeof_object is_empty_string negb andb];
    by rewrite ?andb_false_r, ?andb_true_r.
Qed.

Lemma kind_of_result (method : string) :
  kind_of method = kind_result ↔ includes "result" method = true.
Proof.
  unfold kind_of. destruct (includes "result" method); [done|].
  by destruct (includes "partial" method).
Qed.

(** C4. [sendToolNotification] validates before it sends: a method of
    the result kind needs a result that is neither [undefined] nor the
    empty string, any other method (input, partial) an arguments object
    with at least one property.  A payload that fails is dropped: nothing
    is posted and nothing queued.  A valid payload is posted at once when
    the bridge is ready (its iframe window there), and queued otherwise.
    The tool-input notification with [arguments: {}] is dropped. *)
Theorem sendToolNotification_validates (method : string) (params : Value) (b : Bridge) :
  let valid := validateToolParams params (kind_of method) in
  (includes "result" method = true →
     (valid = true ↔ nonempty_result (get params "result")))
  ∧ (includes "result" method = false →
     (valid = true ↔ nonempty_object (get params "arguments")))
  ∧ (valid = false → sendToolNotification method params b = b)
  ∧ (valid = true → iframeStateRef b = ready → contentWindow b = true →
     posted (sendToolNotification method params b)
       = posted b ++ [PostNotification method params]
     ∧ pendingNotifications (sendToolNotification method params b)
       = pendingNotifications b)
  ∧ (valid = true → iframeStateRef b ≠ ready ∨ contentWindow b = false →
     posted (sendToolNotification method params b) = posted b
     ∧ pendingNotifications (sendToolNotification method params b)
       = pendingNotifications b ++ [{| method := method; params := params |}])
  ∧ sendToolNotification "ui/notifications/tool-input"
      (obj [("tool", obj [("name", VStr "t")]); ("arguments", obj [])]) b = b.
Proof.
  intros valid. subst valid. split_and!.
  - intros Hm%kind_of_result. rewrite Hm. apply validateToolParams_result.
  - intros Hm. apply validateToolParams_arguments.
    intros Hk%kind_of_result. congruence.
  - intros Hv. unfold sendToolNotification. by rewrite Hv.
  - intros Hv Hready Hwindow. unfold sendToolNotification.
    by rewrite Hv, Hwindow, bool_decide_eq_true_2.
  - intros Hv Hnot. unfold sendToolNotification. rewrite Hv.
    destruct Hnot as [Hs|Hw].
    + by rewrite bool_decide_eq_false_2.
    + by rewrite Hw, andb_false_r.
  - reflexivity.
Qed.

(** *** Hydration *)

Section Hydration.
Context `{JsonParser} (props : Props).

(** The hydration as the specification words it: with a tool name, the
    tool-input notification if the arguments are a non-empty object, then
    the recorded result if there is one, else the synthetic
    [{completed: true}] if the step is complete, else no result at all.
    Arguments and result are read through [parseMaybeJson]. *)
Definition hydration : list Posted :=
  let toolName := get (get (toolInfo props) "tool") "name" in
  let args := returned (parseMaybeJson (toolArguments props)) in
  let result := returned (parseMaybeJson (toolResult props)) in
  if truthy toolName then
    (if decide (nonempty_object args) then [tool_input toolName args] else [])
    ++ (if decide (nonempty_result result) then [tool_result toolName result]
        else if isComplete props
             then [tool_result toolName (obj [("completed", VBool true)])]
             else [])
  else [].

Lemma sendHydrationData_posted (b : Bridge) :
  contentWindow b = true →
  sendHydrationData props b = set_posted (posted b ++ hydration) b.
Proof.
  intros Hw. unfold sendHydrationData, hydration. rewrite Hw.
  destruct (truthy (get (get (toolInfo props) "tool") "name")); simpl.
  2: { rewrite app_nil_r. by destruct b. }
  set (args := returned (parseMaybeJson (toolArguments props))).
  set (result := returned (parseMaybeJson (toolResult props))).
  destruct (decide (nonempty_object args)) as [Ha|Ha];
    [rewrite (proj2 (nonempty_object_spec args) Ha)
    |rewrite <-nonempty_object_spec in Ha; apply not_true_is_false in Ha; rewrite Ha];
    (destruct (decide (nonempty_result result)) as [Hr|Hr];
     [rewrite (proj2 (nonempty_result_spec result) Hr)
     |rewrite <-nonempty_result_spec in Hr; apply not_true_is_false in Hr; rewrite Hr]);
    destruct (isComplete props); destruct b; unfold postMessage, set_posted;
    cbn; f_equal; by rewrite <-?app_assoc, ?app_nil_r.
Qed.

Lemma sendHydrationData_no_window (b : Bridge) :
  contentWindow b = false → sendHydrationData props b = b.
Proof. intros Hw. unfold sendHydrationData. by rewrite Hw, orb_true_r. Qed.

Lemma cancelInitializeTimer_spec (b : Bridge) :
  initializeTimer (cancelInitializeTimer b) = None
  ∧ (∀ h, initializeTimer b = Some h → timers (cancelInitializeTimer b) !! h = None)
  ∧ posted (cancelInitializeTimer b) = posted b
  ∧ pendingNotifications (cancelInitializeTimer b) = pendingNotifications b
  ∧ contentWindow (cancelInitializeTimer b) = contentWindow b
  ∧ pendingRequests (cancelInitializeTimer b) = pendingRequests b.
Proof.
  unfold cancelInitializeTimer. destruct (initializeTimer b) as [h|] eqn:Ht; simpl.
  - split_and!; try done. intros h' [= <-]. apply lookup_delete_eq.
  - by rewrite Ht.
Qed.

(** What the acknowledgment does, in whatever state it arrives. *)
Lemma handleInitialized_spec (b : Bridge) :
  contentWindow b = true →
  initializeTimer (handleInitialized props b) = None
  ∧ (∀ h, initializeTimer b = Some h → timers (handleInitialized props b) !! h = None)
  ∧ iframeState (handleInitialized props b) = ready
  ∧ posted (handleInitialized props b)
    = posted b ++ hydration ++ map replay (pendingNotifications b)
  ∧ pendingNotifications (handleInitialized props b) = []
  ∧ contentWindow (handleInitialized props b) = true.
Proof.
  intros Hw. unfold handleInitialized.
  destruct (cancelInitializeTimer_spec b) as (Ht & Hh & Hp & Hq & Hcw & _).
  set (b1 := cancelInitializeTimer b) in *.
  rewrite sendHydrationData_posted by (simpl; congruence).
  cbn [pendingNotifications contentWindow posted set_posted set_iframeState].
  rewrite Hq, Hcw, Hw, Hp, andb_true_r.
  case_bool_decide as Hlen; simpl.
  - rewrite <-app_assoc. split_and!; (done || congruence).
  - destruct (pendingNotifications b) as [|n q] eqn:Hb; [|simpl in Hlen; lia].
    simpl. rewrite app_nil_r. split_and!; (done || congruence).
Qed.

Lemma handleMessage_initialized (data : Value) (b : Bridge) :
  get data "jsonrpc" = VStr "2.0" →
  get data "method" = VStr "ui/notifications/initialized" →
  handleMessage props data b = Some (handleInitialized props b).
Proof.
  intros Hrpc Hmethod. unfold handleMessage.
  destruct data as [| | | | | |fields]; try done.
  rewrite Hrpc, Hmethod.
  assert (has "method" (VObj fields) = true) as ->.
  { unfold get in Hmethod. simpl. apply bool_decide_eq_true.
    destruct (fields !! "method"); [by eexists|done]. }
  by rewrite andb_false_r.
Qed.

End Hydration.

(** Scenarios A and B: tool "search" with arguments [{q: "x"}]. *)
Definition search_props (isComplete : bool) : Props :=
  {| appId := "app-1"; html := VUndefined;
     toolInfo := obj [("tool", obj [("name", VStr "search")])];
     toolArguments := obj [("q", VStr "x")];
     toolResult := VUndefined;
     state := VUndefined;
     isComplete := isComplete;
     hostContext := ∅ |}.

Lemma hydration_scenarios `{JsonParser} :
  hydration (search_props false)
    = [tool_input (VStr "search") (obj [("q", VStr "x")])]
  ∧ hydration (search_props true)
    = [tool_input (VStr "search") (obj [("q", VStr "x")]);
       tool_result (VStr "search") (obj [("completed", VBool true)])].
Proof. split; reflexivity. Qed.

Lemma render_ready `{JsonParser} (props : Props) (b : Bridge) :
  iframeState b = ready →
  iframeStateRef (render props b) = ready
  ∧ iframeState (render props b) = ready
  ∧ posted (render props b) = posted b
  ∧ pendingNotifications (render props b) = pendingNotifications b
  ∧ contentWindow (render props b) = contentWindow b.
Proof. intros Hs. unfold render. simpl. by rewrite Hs. Qed.


(** C9. The acknowledgment triggers the hydration and the replay of the
    queue whatever the state of the bridge: a second one, arriving when
    the bridge is already ready, posts the hydration again. *)
Theorem initialized_hydrates_again `{JsonParser} (props : Props)
    (data : Value) (b : Bridge) :
  contentWindow b = true →
  get data "jsonrpc" = VStr "2.0" →
  get data "method" = VStr "ui/notifications/initialized" →
  ∃ b1 b2,
    handleMessage props data b = Some b1
    ∧ posted b1 = posted b ++ hydration props ++ map replay (pendingNotifications b)
    ∧ iframeStateRef (render props b1) = ready
    ∧ handleMessage props data (render props b1) = Some b2
    ∧ posted b2 = posted b1 ++ hydration props.
Proof.
  intros Hw Hrpc Hmethod.
  exists (handleInitialized props b),
         (handleInitialized props (render props (handleInitialized props b))).
  destruct (handleInitialized_spec props b Hw) as (_ & _ & Hs & Hp & Hq & Hw1).
  destruct (render_ready props _ Hs) as (Hr & _ & Hrp & Hrq & Hrw).
  rewrite !handleMessage_initialized by done.
  split_and!; try done.
  destruct (handleInitialized_spec props (render props (handleInitialized props b)))
    as (_ & _ & _ & Hp2 & _); [congruence|].
  by rewrite Hp2, Hrp, Hrq, Hq, app_nil_r.
Qed.

(** A valid notification sent to a bridge that is not ready, or has no
    window, joins the queue. *)
Lemma sendToolNotification_waits (method : string) (params : Value) (b : Bridge) :
  validateToolParams params (kind_of method) = true →
  iframeStateRef b ≠ ready ∨ contentWindow b = false →
  posted (sendToolNotification method params b) = posted b
  ∧ pendingNotifications (sendToolNotification method params b)
    = pendingNotifications b ++ [{| method := method; params := params |}].
Proof.
  intros Hv Hnot. unfold sendToolNotification. rewrite Hv.
  destruct Hnot as [Hs|Hw].
  - by rewrite bool_decide_eq_false_2.
  - by rewrite Hw, andb_false_r.
Qed.

(** A valid notification sent to a ready bridge is posted at once. *)
Lemma sendToolNotification_posts (method : string) (params : Value) (b : Bridge) :
  validateToolParams params (kind_of method) = true →
  iframeStateRef b = ready → contentWindow b = true →
  sendToolNotification method params b
  = postMessage (PostNotification method params) b.
Proof.
  intros Hv Hready Hwindow. unfold sendToolNotification.
  by rewrite Hv, Hwindow, bool_decide_eq_true_2.
Qed.

(** The queue of the bridge: notifications sent before the bridge is
    ready are kept in order; the acknowledgment replays them in that
    order after the hydration and empties the queue. *)
Lemma bridge_queue_replay `{JsonParser} (props : Props)
    (ns : list Notification) (b : Bridge) :
  iframeStateRef b ≠ ready →
  Forall (λ n, validateToolParams (params n) (kind_of (method n)) = true) ns →
  let queued := foldl (λ b n, sendToolNotification (method n) (params n) b) b ns in
  pendingNotifications queued = pendingNotifications b ++ ns
  ∧ posted queued = posted b
  ∧ (contentWindow b = true →
     let acked := handleInitialized props queued in
     posted acked
       = posted b ++ hydration props ++ map replay (pendingNotifications b ++ ns)
     ∧ pendingNotifications acked = []
     ∧ posted (handleInitialized props acked) = posted acked ++ hydration props).
Proof.
  intros Hnot Hvalid queued.
  assert (pendingNotifications queued = pendingNotifications b ++ ns
          ∧ posted queued = posted b ∧ contentWindow queued = contentWindow b)
    as (Hq & Hp & Hw).
  { subst queued. revert b Hnot.
    induction Hvalid as [|[m ps] ns Hn _ IH]; intros b Hnot; simpl.
    - by rewrite app_nil_r.
    - destruct (sendToolNotification_waits m ps b Hn (or_introl Hnot)) as [Hp Hq].
      destruct (IH (sendToolNotification m ps b)) as (IHq & IHp & IHw).
      { unfold sendToolNotification. simpl in Hn. rewrite Hn. simpl.
        by rewrite bool_decide_eq_false_2. }
      rewrite IHq, IHp, Hq, Hp, <-app_assoc. split_and!; try done.
      rewrite IHw. unfold sendToolNotification. simpl in Hn. rewrite Hn. simpl.
      by rewrite bool_decide_eq_false_2. }
  split_and!; try done. intros Hwb acked.
  destruct (handleInitialized_spec props queued) as (_ & _ & _ & Hpa & Hqa & Hwa);
    [congruence|].
  destruct (handleInitialized_spec props acked Hwa) as (_ & _ & _ & Hpa2 & _).
  subst acked. rewrite Hpa2, Hqa, Hpa, Hq, Hp, app_nil_r. done.
Qed.

(** *** Pending requests: the invariant *)

(** The invariant of the request bookkeeping, on the pending requests
    [P], the timers [T], the next timer handle, the number of promises
    made, the settlement log [S], the request counter and the handle in
    [initializeTimerRef]. *)
Record InvC (P : gmap string PendingRequest) (T : gmap positive Timer)
    (nt : positive) (np : nat) (S : gmap nat (list Settlement)) (nr : nat)
    (it : option positive) : Prop := {
  (* a pending request has its timer armed *)
  inv_armed : ∀ id pr, P !! id = Some pr →
    ∃ t m, T !! pr_timer pr = Some t
           ∧ callback t = RequestTimeout id (pr_promise pr) m;
  (* a request timer belongs to a pending request *)
  inv_owned : ∀ h t id p m, T !! h = Some t → callback t = RequestTimeout id p m →
    P !! id = Some {| pr_promise := p; pr_timer := h |};
  inv_handles : ∀ h t, T !! h = Some t → (h < nt)%positive;
  (* the promise of a pending request has seen no call yet *)
  inv_unsettled : ∀ id pr, P !! id = Some pr →
    pr_promise pr < np ∧ default [] (S !! pr_promise pr) = [];
  (* every promise made is pending or has seen exactly one call *)
  inv_once : ∀ p, p < np →
    (∃ id pr, P !! id = Some pr ∧ pr_promise pr = p)
    ∨ length (default [] (S !! p)) = 1;
  inv_future : ∀ p, np ≤ p → default [] (S !! p) = [];
  inv_ids : ∀ id, is_Some (P !! id) → ∃ k, id = "host-" +:+ pretty k ∧ k ≤ nr;
  inv_promises : ∀ id1 id2 pr1 pr2, P !! id1 = Some pr1 → P !! id2 = Some pr2 →
    pr_promise pr1 = pr_promise pr2 → id1 = id2;
  (* the retry handle never names a request timer *)
  inv_retry : ∀ h, it = Some h →
    (h < nt)%positive ∧ ∀ t, T !! h = Some t → callback t = AttemptSend;
}.

Lemma InvC_initial : InvC ∅ ∅ 1 0 ∅ 0 None.
Proof.
  split; intros; try lia; try done.
  by destruct H as [pr Hid].
Qed.

Section Primitives.
Context (P : gmap string PendingRequest) (T : gmap positive Timer)
  (nt : positive) (np : nat) (S : gmap nat (list Settlement)) (nr : nat)
  (it : option positive).
Context (HI : InvC P T nt np S nr it).

(** The retry handle is forgotten. *)
Lemma InvC_forget : InvC P T nt np S nr None.
Proof. destruct HI. by split. Qed.

(** [setTimeout(attemptSend, d)], the handle kept or not. *)
Lemma InvC_retry_timer (d : nat) (it' : option positive) :
  it' = Some nt ∨ it' = None →
  InvC P (<[nt := {| due := d; callback := AttemptSend |}]> T) (Pos.succ nt)
    np S nr it'.
Proof.
  intros Hit. destruct HI. split.
  - intros id pr Hid. destruct (inv_armed0 id pr Hid) as (t & m & Ht & Hc).
    exists t, m. split; [|done]. rewrite lookup_insert_ne; [done|].
    intros Heq. rewrite <-Heq in Ht. apply inv_handles0 in Ht. lia.
  - intros h t id p m Ht Hc. destruct (decide (h = nt)) as [->|Hne].
    + rewrite lookup_insert_eq in Ht. by injection Ht as <-.
    + rewrite lookup_insert_ne in Ht by done. eauto.
  - intros h t Ht. destruct (decide (h = nt)) as [->|Hne]; [lia|].
    rewrite lookup_insert_ne in Ht by done. apply inv_handles0 in Ht. lia.
  - done.
  - done.
  - done.
  - done.
  - done.
  - intros h Hh. destruct Hit as [->| ->]; [|done]. injection Hh as <-.
    split; [lia|]. intros t. rewrite lookup_insert_eq. by intros [= <-].
Qed.

(** [clearTimeout(h)] of a timer that is no request's. *)
Lemma InvC_clear (h : positive) (it' : option positive) :
  (∀ t, T !! h = Some t → callback t = AttemptSend) →
  it' = it ∨ it' = None →
  InvC P (delete h T) nt np S nr it'.
Proof.
  intros Hh Hit. destruct HI. split.
  - intros id pr Hid. destruct (inv_armed0 id pr Hid) as (t & m & Ht & Hc).
    exists t, m. split; [|done]. rewrite lookup_delete_ne; [done|].
    intros Heq. rewrite Heq in Hh. apply Hh in Ht. congruence.
  - intros h' t id p m [_ Ht]%lookup_delete_Some Hc. eauto.
  - intros h' t [_ Ht]%lookup_delete_Some. eauto.
  - done.
  - done.
  - done.
  - done.
  - done.
  - intros h' Hh'. destruct Hit as [->| ->]; [|done].
    destruct (inv_retry0 h' Hh') as [Hlt Hcb]. split; [done|].
    intros t [_ Ht]%lookup_delete_Some. eauto.
Qed.

(** A promise made and rejected at once. *)
Lemma InvC_reject_new (s : Settlement) :
  InvC P T nt (Datatypes.S np) (<[np := default [] (S !! np) ++ [s]]> S) nr it.
Proof.
  destruct HI. split.
  - done.
  - done.
  - done.
  - intros id pr Hid. destruct (inv_unsettled0 id pr Hid) as [Hlt Hnil].
    split; [lia|]. rewrite lookup_insert_ne by lia. done.
  - intros p Hp. destruct (decide (p = np)) as [->|Hne].
    + right. rewrite lookup_insert_eq. simpl.
      by rewrite (inv_future0 np) by lia.
    + rewrite lookup_insert_ne by done. apply inv_once0. lia.
  - intros p Hp. rewrite lookup_insert_ne by lia. apply inv_future0. lia.
  - done.
  - done.
  - done.
Qed.

(** A settled request leaves the map, its timer is cleared, and its
    promise sees its one call. *)
Lemma InvC_settle (id : string) (pr : PendingRequest) (s : Settlement) :
  P !! id = Some pr →
  InvC (delete id P) (delete (pr_timer pr) T) nt np
    (<[pr_promise pr := default [] (S !! pr_promise pr) ++ [s]]> S) nr it.
Proof.
  intros Hid. destruct HI.
  destruct (inv_armed0 id pr Hid) as (t0 & m0 & Ht0 & Hc0).
  destruct (inv_unsettled0 id pr Hid) as [Hlt0 Hnil0].
  split.
  - intros id' pr' [Hne Hid']%lookup_delete_Some.
    destruct (inv_armed0 id' pr' Hid') as (t & m & Ht & Hc).
    exists t, m. split; [|done]. rewrite lookup_delete_ne; [done|].
    intros Heq. rewrite Heq, Ht in Ht0. injection Ht0 as <-. congruence.
  - intros h t id' p m [Hne Ht]%lookup_delete_Some Hc.
    pose proof (inv_owned0 h t id' p m Ht Hc) as Hid'.
    rewrite lookup_delete_ne; [done|].
    intros <-. rewrite Hid in Hid'. injection Hid' as ->. done.
  - intros h t [_ Ht]%lookup_delete_Some. eauto.
  - intros id' pr' [Hne Hid']%lookup_delete_Some.
    destruct (inv_unsettled0 id' pr' Hid') as [Hlt Hnil]. split; [done|].
    rewrite lookup_insert_ne; [done|].
    intros Heq. apply Hne. by apply (inv_promises0 id id' pr pr').
  - intros p Hp. destruct (decide (p = pr_promise pr)) as [->|Hne].
    + right. rewrite lookup_insert_eq. simpl. by rewrite Hnil0.
    + rewrite lookup_insert_ne by done.
      destruct (inv_once0 p Hp) as [(id' & pr' & Hid' & Hp')|Hlen]; [|by right].
      left. exists id', pr'. split; [|done]. apply lookup_delete_Some.
      split; [|done]. intros <-. congruence.
  - intros p Hp. rewrite lookup_insert_ne by lia. by apply inv_future0.
  - intros id' [pr' [_ Hid']%lookup_delete_Some]. apply inv_ids0. by eexists.
  - intros id1 id2 pr1 pr2 [_ H1]%lookup_delete_Some [_ H2]%lookup_delete_Some.
    by apply inv_promises0.
  - intros h Hh. destruct (inv_retry0 h Hh) as [Hlt Hcb]. split; [done|].
    intros t [_ Ht]%lookup_delete_Some. eauto.
Qed.

(** A request sent: a fresh id, promise and timer. *)
Lemma InvC_request (d : nat) (m : string) :
  let id := "host-" +:+ pretty (Datatypes.S nr) in
  InvC (<[id := {| pr_promise := np; pr_timer := nt |}]> P)
    (<[nt := {| due := d; callback := RequestTimeout id np m |}]> T)
    (Pos.succ nt) (Datatypes.S np) S (Datatypes.S nr) it.
Proof.
  intros id. destruct HI.
  assert (P !! id = None) as Hfresh.
  { destruct (P !! id) as [pr|] eqn:Hid; [|done].
    destruct (inv_ids0 id) as (k & Hk & Hle); [by eexists|].
    apply (inj (String.app "host-")) in Hk. apply (inj pretty) in Hk. lia. }
  split.
  - intros id' pr'. destruct (decide (id' = id)) as [->|Hne].
    + rewrite lookup_insert_eq. intros [= <-]. simpl.
      eexists _, m. by rewrite lookup_insert_eq.
    + rewrite lookup_insert_ne by done. intros Hid'.
      destruct (inv_armed0 id' pr' Hid') as (t & m' & Ht & Hc).
      exists t, m'. split; [|done]. rewrite lookup_insert_ne; [done|].
      intros Heq. rewrite <-Heq in Ht. apply inv_handles0 in Ht. lia.
  - intros h t id' p m' Ht Hc. destruct (decide (h = nt)) as [->|Hne].
    + rewrite lookup_insert_eq in Ht. injection Ht as <-. simpl in Hc.
      injection Hc as <- <- <-. by rewrite lookup_insert_eq.
    + rewrite lookup_insert_ne in Ht by done.
      pose proof (inv_owned0 h t id' p m' Ht Hc) as Hid'.
      rewrite lookup_insert_ne; [done|]. intros <-. congruence.
  - intros h t Ht. destruct (decide (h = nt)) as [->|Hne]; [lia|].
    rewrite lookup_insert_ne in Ht by done. apply inv_handles0 in Ht. lia.
  - intros id' pr'. destruct (decide (id' = id)) as [->|Hne].
    + rewrite lookup_insert_eq. intros [= <-]. simpl. split; [lia|].
      by apply inv_future0.
    + rewrite lookup_insert_ne by done. intros Hid'.
      destruct (inv_unsettled0 id' pr' Hid'). split; [lia|done].
  - intros p Hp. destruct (decide (p = np)) as [->|Hne].
    + left. eexists id, _. by rewrite lookup_insert_eq.
    + destruct (inv_once0 p) as [(id' & pr' & Hid' & Hp')|Hlen]; [lia| |by right].
      left. exists id', pr'. split; [|done]. rewrite lookup_insert_ne; [done|].
      intros <-. congruence.
  - intros p Hp. apply inv_future0. lia.
  - intros id'. destruct (decide (id' = id)) as [->|Hne].
    + intros _. exists (Datatypes.S nr). split; [done|lia].
    + rewrite lookup_insert_ne by done. intros Hid'.
      destruct (inv_ids0 id' Hid') as (k & Hk & Hle). exists k. split; [done|lia].
  - intros id1 id2 pr1 pr2.
    destruct (decide (id1 = id)) as [->|Hne1], (decide (id2 = id)) as [->|Hne2];
      rewrite ?lookup_insert_eq, ?lookup_insert_ne by done; try done.
    + intros [= <-] H2 Heq. simpl in Heq. apply inv_unsettled0 in H2. lia.
    + intros H1 [= <-] Heq. simpl in Heq. apply inv_unsettled0 in H1. lia.
    + apply inv_promises0.
  - intros h Hh. destruct (inv_retry0 h Hh) as [Hlt Hcb]. split; [lia|].
    intros t. rewrite lookup_insert_ne by lia. apply Hcb.
Qed.

End Primitives.

Definition Inv (b : Bridge) : Prop :=
  InvC (pendingRequests b) (timers b) (nextTimer b) (nextPromise b) (settled b)
    (nextRequestId b) (initializeTimer b).

(** No timer is overdue. *)
Definition Timely (b : Bridge) : Prop :=
  ∀ h t, timers b !! h = Some t → now b ≤ due t.

(** From [b] to [b'] in the course of one task: the clock stands, and a
    timer of [b'] is one of [b] or a new one, not due before now, whose
    request (if it times one) has a promise made since [b]. *)
Record Calm (b b' : Bridge) : Prop := {
  calm_now : now b' = now b;
  calm_nextTimer : (nextTimer b ≤ nextTimer b')%positive;
  calm_nextPromise : nextPromise b ≤ nextPromise b';
  calm_timers : ∀ h t, timers b' !! h = Some t →
    timers b !! h = Some t
    ∨ ((nextTimer b ≤ h)%positive ∧ now b ≤ due t
       ∧ ∀ id p m, callback t = RequestTimeout id p m → nextPromise b ≤ p);
}.

(** An operation keeps the invariant and is calm. *)
Definition Sound (b b' : Bridge) : Prop := (Inv b → Inv b') ∧ Calm b b'.

Definition same_core (b b' : Bridge) : Prop :=
  pendingRequests b' = pendingRequests b ∧ timers b' = timers b
  ∧ nextTimer b' = nextTimer b ∧ nextPromise b' = nextPromise b
  ∧ settled b' = settled b ∧ nextRequestId b' = nextRequestId b
  ∧ initializeTimer b' = initializeTimer b ∧ now b' = now b.

Lemma Calm_refl (b : Bridge) : Calm b b.
Proof. split; (done || lia || by left). Qed.

Lemma Calm_trans (b b' b'' : Bridge) : Calm b b' → Calm b' b'' → Calm b b''.
Proof.
  intros [Hn1 Ht1 Hp1 H1] [Hn2 Ht2 Hp2 H2]. split; [congruence|lia|lia|].
  intros h t Hh. destruct (H2 h t Hh) as [Hold|(Hfresh & Hdue & Hreq)].
  - by apply H1.
  - right. split_and!; [lia|lia|]. intros id p m Hc. specialize (Hreq id p m Hc). lia.
Qed.

Lemma Sound_refl (b : Bridge) : Sound b b.
Proof. split; [done|apply Calm_refl]. Qed.

Lemma Sound_trans (b b' b'' : Bridge) : Sound b b' → Sound b' b'' → Sound b b''.
Proof. intros [Hi1 Hc1] [Hi2 Hc2]. split; [auto|by eapply Calm_trans]. Qed.

Lemma Sound_same_core (b b' : Bridge) : same_core b b' → Sound b b'.
Proof.
  intros (HP & HT & Hnt & Hnp & HS & Hnr & Hit & Hnow). split.
  - unfold Inv. by rewrite HP, HT, Hnt, Hnp, HS, Hnr, Hit.
  - split; [done|lia|lia|]. intros h t Hh. left. by rewrite <-HT.
Qed.

Lemma Timely_calm (b b' : Bridge) : Calm b b' → Timely b → Timely b'.
Proof.
  intros [Hn _ _ Ht] Hb h t Hh. rewrite Hn.
  destruct (Ht h t Hh) as [Hold|(_ & Hdue & _)]; [by eapply Hb|done].
Qed.

(** Proves [same_core] for an operation that only posts, queues or
    changes the iframe state. *)
Ltac same_core := repeat case_match; by repeat split.

Section Requests.
Context `{JsonParser} (props : Props).

Lemma sendRequest_sound (m : string) (ps : Value) (d : nat) (b : Bridge) :
  Sound b (sendRequest m ps d b).
Proof.
  unfold sendRequest. simpl. destruct (contentWindow b); simpl; split.
  - intros Hb. unfold Inv. simpl. by eapply InvC_request.
  - split; simpl; [done|lia|lia|]. intros h t Hh.
    destruct (decide (h = nextTimer b)) as [->|Hne].
    + rewrite lookup_insert_eq in Hh. injection Hh as <-. right. simpl.
      split_and!; [lia|lia|]. by intros id p m' [= _ <- _].
    + rewrite lookup_insert_ne in Hh by done. by left.
  - intros Hb. unfold Inv, settle, settlements. simpl. by eapply InvC_reject_new.
  - split; simpl; [done|lia|lia|]. intros h t Hh. by left.
Qed.

Lemma sendInitialize_sound (b : Bridge) : Sound b (sendInitialize props b).
Proof.
  unfold sendInitialize. case_match; [apply Sound_refl|apply sendRequest_sound].
Qed.

Lemma setTimeout_retry_sound (d : nat) (b : Bridge) :
  Sound b (set_initializeTimer (Some (nextTimer b)) (setTimeout AttemptSend d b)).
Proof.
  split.
  - intros Hb. unfold Inv. simpl. eapply InvC_retry_timer; [done|by left].
  - split; simpl; [done|lia|lia|]. intros h t Hh.
    destruct (decide (h = nextTimer b)) as [->|Hne].
    + rewrite lookup_insert_eq in Hh. injection Hh as <-. right. simpl.
      split_and!; [lia|lia|done].
    + rewrite lookup_insert_ne in Hh by done. by left.
Qed.

Lemma forget_retry_sound (b : Bridge) : Sound b (set_initializeTimer None b).
Proof.
  split; [|split; simpl; (done || lia || by left)].
  intros Hb. unfold Inv. simpl. by eapply InvC_forget.
Qed.

Lemma attemptSend_sound (b : Bridge) : Sound b (attemptSend props b).
Proof.
  unfold attemptSend. case_bool_decide; [apply Sound_refl|].
  apply (Sound_trans _ (set_initializeAttempts (S (initializeAttempts b)) b));
    [apply Sound_same_core; by repeat split|].
  eapply Sound_trans; [apply sendInitialize_sound|].
  case_bool_decide; [apply setTimeout_retry_sound|apply forget_retry_sound].
Qed.

(** [clearTimeout(initializeTimerRef.current)] *)
Lemma clear_retry_sound (b : Bridge) (it' : option positive) :
  it' = initializeTimer b ∨ it' = None →
  Sound b (set_initializeTimer it'
             (match initializeTimer b with
              | Some h => clearTimeout h b
              | None => b
              end)).
Proof.
  intros Hit. split.
  - intros Hb. unfold Inv. destruct (initializeTimer b) as [h|] eqn:Hh; simpl.
    + unfold Inv in Hb. rewrite Hh in Hb.
      apply InvC_clear with (Some h); [done| |done].
      intros t Ht. destruct Hb. destruct (inv_retry0 h eq_refl) as [_ Hcb]. by apply Hcb.
    + unfold Inv in Hb. rewrite Hh in Hb. by destruct Hit as [->| ->].
  - destruct (initializeTimer b) as [h|]; split; simpl; try (done || lia).
    + intros h' t [_ Ht]%lookup_delete_Some. by left.
    + intros h' t Ht. by left.
Qed.

Lemma sendInitializeWithRetry_sound (b : Bridge) :
  Sound b (sendInitializeWithRetry props b).
Proof.
  unfold sendInitializeWithRetry. case_bool_decide; [apply Sound_refl|].
  eapply Sound_trans; [|apply attemptSend_sound].
  eapply Sound_trans; [apply (clear_retry_sound b (initializeTimer b)); by left|].
  apply Sound_same_core. by destruct (initializeTimer b) eqn:Hit; repeat split.
Qed.

Lemma cancelInitializeTimer_sound (b : Bridge) : Sound b (cancelInitializeTimer b).
Proof.
  unfold cancelInitializeTimer.
  pose proof (clear_retry_sound b None (or_intror eq_refl)) as Hs.
  destruct (initializeTimer b) eqn:Hh; [done|apply Sound_refl].
Qed.

Lemma sendHydrationData_core (b : Bridge) : same_core b (sendHydrationData props b).
Proof. unfold sendHydrationData. same_core. Qed.

Lemma handleInitialized_sound (b : Bridge) : Sound b (handleInitialized props b).
Proof.
  unfold handleInitialized.
  eapply Sound_trans; [apply cancelInitializeTimer_sound|].
  set (b1 := cancelInitializeTimer b).
  eapply Sound_trans; [apply (Sound_same_core b1 (set_iframeState ready b1)); by repeat split|].
  set (b2 := set_iframeState ready b1).
  eapply Sound_trans; [apply Sound_same_core, sendHydrationData_core|].
  apply Sound_same_core. same_core.
Qed.

Lemma handleLegacyInitialize_sound (id : Value) (b : Bridge) :
  Sound b (handleLegacyInitialize props id b).
Proof.
  unfold handleLegacyInitialize.
  set (b1 := sendNotification _ _ _).
  eapply (Sound_trans _ b1).
  { apply Sound_same_core. subst b1. unfold sendNotification, sendResponse. simpl.
    same_core. }
  eapply Sound_trans; [apply cancelInitializeTimer_sound|].
  apply Sound_same_core. by repeat split.
Qed.

Lemma handleResponse_sound (data : Value) (b : Bridge) :
  Sound b (handleResponse data b).
Proof.
  unfold handleResponse.
  destruct (pendingRequests b !! String_of (get data "id")) as [pending|] eqn:Hid;
    [|apply Sound_refl].
  split.
  - intros Hb. unfold Inv. case_match; simpl; by eapply InvC_settle.
  - case_match; split; simpl; try (done || lia);
      intros h t [_ Ht]%lookup_delete_Some; by left.
Qed.

Lemma handleMessage_sound (data : Value) (b b' : Bridge) :
  handleMessage props data b = Some b' → Sound b b'.
Proof.
  unfold handleMessage. intros Hm.
  repeat (case_match; simplify_eq);
    first [ apply Sound_refl
          | apply handleResponse_sound
          | apply sendInitializeWithRetry_sound
          | apply handleInitialized_sound
          | apply handleLegacyInitialize_sound
          | apply Sound_same_core;
            unfold acknowledge, handleSandboxReady, sendResponse, sendNotification;
            same_core ].
Qed.

Lemma render_sound (b : Bridge) : Sound b (render props b).
Proof.
  unfold render. simpl. case_bool_decide.
  - eapply Sound_trans; [|apply sendInitializeWithRetry_sound].
    apply Sound_same_core. by repeat split.
  - apply Sound_same_core. by repeat split.
Qed.

(** The loop of the unmount cleanup settles the pending requests one
    by one: after the entries [m], the bridge with the other entries
    pending satisfies the invariant. *)
Lemma unmount_loop (b : Bridge) (m : gmap string PendingRequest) :
  Inv b →
  m ⊆ pendingRequests b →
  Inv (set_pendingRequests (pendingRequests b ∖ m)
         (map_fold
            (λ _ pending b,
               settle (pr_promise pending) (RejectedError "Component unmounted")
                 (clearTimeout (pr_timer pending) b))
            b m)).
Proof.
  intros Hb. revert m.
  apply (map_fold_weak_ind
           (λ r (m : gmap string PendingRequest),
              m ⊆ pendingRequests b →
              Inv (set_pendingRequests (pendingRequests b ∖ m) r))).
  - intros _. rewrite map_difference_empty. by destruct b.
  - intros id pr m r Hfresh IH Hsub.
    assert (pendingRequests b !! id = Some pr) as Hid.
    { apply (lookup_weaken _ _ _ _ (lookup_insert_eq m id pr) Hsub). }
    assert (m ⊆ pendingRequests b) as Hm.
    { etrans; [apply (insert_subseteq m id pr Hfresh)|done]. }
    specialize (IH Hm). unfold Inv in *. simpl in *.
    rewrite <-(delete_difference _ _ id pr).
    eapply InvC_settle; [exact IH|]. by apply lookup_difference_Some.
Qed.

Lemma unmount_loop_calm (b : Bridge) (m : gmap string PendingRequest) :
  Calm b (map_fold
            (λ _ pending b,
               settle (pr_promise pending) (RejectedError "Component unmounted")
                 (clearTimeout (pr_timer pending) b))
            b m).
Proof.
  apply (map_fold_weak_ind (λ r _, Calm b r)); [apply Calm_refl|].
  intros id pr m' r _ IH. eapply Calm_trans; [exact IH|].
  split; simpl; try (done || lia).
  intros h t [_ Ht]%lookup_delete_Some. by left.
Qed.

Lemma unmount_sound (b : Bridge) : Sound b (unmount b).
Proof.
  unfold unmount.
  pose proof (clear_retry_sound b (initializeTimer b) (or_introl eq_refl)) as [Hi1 Hc1].
  set (b1 := match initializeTimer b with Some h => clearTimeout h b | None => b end) in *.
  assert (Sound b b1) as [Hi Hc].
  { split.
    - intros Hb. specialize (Hi1 Hb). unfold Inv in *. simpl in Hi1.
      assert (initializeTimer b1 = initializeTimer b) as ->; [|done].
      subst b1. by destruct (initializeTimer b) eqn:Hit.
    - destruct Hc1 as [? ? ? Ht]. by split. }
  split.
  - intros Hb. pose proof (unmount_loop b1 (pendingRequests b1) (Hi Hb)) as Hloop.
    rewrite map_difference_diag in Hloop. by apply Hloop.
  - eapply Calm_trans; [exact Hc|].
    eapply Calm_trans; [apply unmount_loop_calm|].
    split; simpl; try (done || lia). intros h t Ht. by left.
Qed.

(** *** Timers *)

Lemma fire_sound (h : positive) (b : Bridge) : Sound b (fire props h b).
Proof.
  unfold fire. destruct (timers b !! h) as [[d c]|] eqn:Hh; [|apply Sound_refl].
  destruct c as [id p m|]; simpl.
  - split.
    + intros Hb. pose proof (inv_owned _ _ _ _ _ _ _ Hb h _ id p m Hh eq_refl) as Hid.
      unfold Inv, requestTimeout, settle, settlements. simpl.
      by apply (InvC_settle _ _ _ _ _ _ _ Hb id {| pr_promise := p; pr_timer := h |}).
    + split; simpl; try (done || lia).
      intros h' t [_ Ht]%lookup_delete_Some. by left.
  - eapply Sound_trans; [|apply attemptSend_sound]. split.
    + intros Hb. unfold Inv. simpl. eapply InvC_clear; [exact Hb| |by left].
      intros t Ht. rewrite Hh in Ht. by injection Ht as <-.
    + split; simpl; try (done || lia).
      intros h' t [_ Ht]%lookup_delete_Some. by left.
Qed.

Lemma fire_removes (h : positive) (b : Bridge) :
  Inv b → timers (fire props h b) !! h = None.
Proof.
  intros Hb. unfold fire. destruct (timers b !! h) as [t|] eqn:Hh; [|done].
  pose proof (inv_handles _ _ _ _ _ _ _ Hb h t Hh) as Hlt.
  assert (Calm (clearTimeout h b) (runCallback props (callback t) (clearTimeout h b)))
    as [_ _ _ Ht].
  { destruct (callback t) as [id p m|]; simpl.
    - split; simpl; try (done || lia). intros h' t' Ht'. by left.
    - apply attemptSend_sound. }
  destruct (timers (runCallback props (callback t) (clearTimeout h b)) !! h)
    as [t'|] eqn:Hh'; [|done].
  destruct (Ht h t' Hh') as [Hold|[Hfresh _]].
  - simpl in Hold. by rewrite lookup_delete_eq in Hold.
  - simpl in Hfresh. lia.
Qed.

Lemma elem_of_due_timers (h : positive) (b : Bridge) :
  h ∈ due_timers b ↔ ∃ t, timers b !! h = Some t ∧ due t ≤ now b.
Proof.
  unfold due_timers. rewrite list_elem_of_fmap. split.
  - intros [[h' t] [-> [Ht Hdue]%elem_of_map_to_list%map_lookup_filter_Some]].
    by exists t.
  - intros [t [Ht Hdue]]. exists (h, t). split; [done|].
    by apply elem_of_map_to_list, map_lookup_filter_Some.
Qed.

(** The timers due run one after the other; none is left overdue. *)
Lemma fire_all (hs : list positive) (b : Bridge) :
  Inv b →
  (∀ h t, timers b !! h = Some t → now b ≤ due t ∨ h ∈ hs) →
  let b' := foldl (λ b h, fire props h b) b hs in
  Inv b' ∧ Timely b' ∧ Calm b b'.
Proof.
  revert b. induction hs as [|h hs IH]; intros b Hb Hdue; simpl.
  - split_and!; [done| |apply Calm_refl].
    intros h t Ht. destruct (Hdue h t Ht) as [?|Hin]; [done|].
    by apply elem_of_nil in Hin.
  - destruct (fire_sound h b) as [Hi Hc].
    destruct (IH (fire props h b)) as (Hi' & Ht' & Hc'); [by apply Hi| |].
    + intros h' t Ht. destruct Hc as [Hnow _ _ Hts]. rewrite Hnow.
      destruct (Hts h' t Ht) as [Hold|(_ & Hfresh & _)]; [|by left].
      destruct (Hdue h' t Hold) as [?|Hin]; [by left|].
      apply elem_of_cons in Hin as [->|Hin]; [|by right].
      by rewrite fire_removes in Ht.
    + split_and!; [done..|]. by eapply Calm_trans.
Qed.

(** From [b] to [b'] over any number of tasks: timer handles and
    promises are never reused. *)
Record Grows (b b' : Bridge) : Prop := {
  grows_nextTimer : (nextTimer b ≤ nextTimer b')%positive;
  grows_nextPromise : nextPromise b ≤ nextPromise b';
  grows_now : now b ≤ now b';
  grows_timers : ∀ h t, timers b' !! h = Some t →
    timers b !! h = Some t
    ∨ ((nextTimer b ≤ h)%positive
       ∧ ∀ id p m, callback t = RequestTimeout id p m → nextPromise b ≤ p);
}.

Lemma Grows_refl (b : Bridge) : Grows b b.
Proof. split; (done || lia || by left). Qed.

Lemma Grows_trans (b b' b'' : Bridge) : Grows b b' → Grows b' b'' → Grows b b''.
Proof.
  intros [Ht1 Hp1 Hn1 H1] [Ht2 Hp2 Hn2 H2]. split; [lia..|].
  intros h t Hh. destruct (H2 h t Hh) as [Hold|(Hfresh & Hreq)].
  - by apply H1.
  - right. split; [lia|]. intros id p m Hc. specialize (Hreq id p m Hc). lia.
Qed.

Lemma Calm_grows (b b' : Bridge) : Calm b b' → Grows b b'.
Proof.
  intros [Hn Ht Hp H1]. split; [lia..|].
  intros h t Hh. destruct (H1 h t Hh) as [?|(? & _ & ?)]; [by left|by right].
Qed.

Definition Good (b : Bridge) : Prop := Inv b ∧ Timely b.

Lemma tick_good (b : Bridge) : Good b → Good (tick props b) ∧ Grows b (tick props b).
Proof.
  intros [Hb Ht]. unfold tick.
  set (b1 := set_now (S (now b)) b).
  destruct (fire_all (due_timers b1) b1) as (Hi & Htimely & Hc).
  - done.
  - intros h t Hh. destruct (decide (due t ≤ now b1)) as [Hle|Hgt]; [|left; lia].
    right. apply elem_of_due_timers. by exists t.
  - split; [done|]. eapply Grows_trans; [|by apply Calm_grows].
    split; simpl; try (done || lia). intros h t Hh. by left.
Qed.

Lemma step_good (e : Event) (b b' : Bridge) :
  Good b → step props e b = Some b' → Good b' ∧ Grows b b'.
Proof.
  intros [Hb Ht] Hstep.
  assert (Sound b b' → Good b' ∧ Grows b b') as Hsound.
  { intros [Hi Hc]. split; [split; [by apply Hi|by eapply Timely_calm]|].
    by apply Calm_grows. }
  destruct e as [present| | |data| | |m ps|m ps d]; simpl in Hstep;
    try (injection Hstep as <-).
  - apply Hsound, Sound_same_core. by repeat split.
  - apply Hsound, Sound_same_core. by repeat split.
  - apply Hsound, render_sound.
  - by apply Hsound, (handleMessage_sound data).
  - by apply tick_good.
  - apply Hsound, unmount_sound.
  - apply Hsound, Sound_same_core. unfold sendToolNotification. same_core.
  - apply Hsound, sendRequest_sound.
Qed.

Lemma run_good (es : list Event) (b b' : Bridge) :
  Good b → run props es b = Some b' → Good b' ∧ Grows b b'.
Proof.
  revert b. induction es as [|e es IH]; intros b Hb; simpl.
  - intros [= <-]. split; [done|apply Grows_refl].
  - destruct (step props e b) as [b1|] eqn:Hstep; [|done]. simpl. intros Hrun.
    destruct (step_good e b b1 Hb Hstep) as [Hb1 Hg1].
    destruct (IH b1 Hb1 Hrun) as [Hb' Hg']. split; [done|].
    by eapply Grows_trans.
Qed.

Lemma initial_good : Good initial.
Proof. split; [apply InvC_initial|]. intros h t Ht. done. Qed.

(** *** Pending requests: what the invariant gives *)

(** A promise made by [sendRequest] is pending and has seen no call, or
    it has seen exactly one and is pending no more. *)
Lemma settled_once (b : Bridge) (p : nat) :
  Inv b → p < nextPromise b →
  (settlements p b = []
   ∧ ∃ id pr, pendingRequests b !! id = Some pr ∧ pr_promise pr = p)
  ∨ (length (settlements p b) = 1
     ∧ ∀ id pr, pendingRequests b !! id = Some pr → pr_promise pr ≠ p).
Proof.
  intros Hb Hp. destruct (inv_once _ _ _ _ _ _ _ Hb p Hp) as [(id & pr & Hid & <-)|Hlen].
  - left. split; [|by eauto]. by destruct (inv_unsettled _ _ _ _ _ _ _ Hb id pr Hid).
  - right. split; [done|]. intros id pr Hid <-.
    destruct (inv_unsettled _ _ _ _ _ _ _ Hb id pr Hid) as [_ Hnil].
    unfold settlements in Hlen. by rewrite Hnil in Hlen.
Qed.

Lemma pending_armed (b : Bridge) (id : string) (pr : PendingRequest) :
  Good b → pendingRequests b !! id = Some pr →
  ∃ t m, timers b !! pr_timer pr = Some t
         ∧ callback t = RequestTimeout id (pr_promise pr) m ∧ now b ≤ due t.
Proof.
  intros [Hb Ht] Hid. destruct (inv_armed _ _ _ _ _ _ _ Hb id pr Hid) as (t & m & Hh & Hc).
  exists t, m. split_and!; [done..|]. by eapply Ht.
Qed.

(** The timer of the promise [sendRequest] makes is due [timeout] from
    now, if a timer there is. *)
Lemma sendRequest_deadline (m : string) (ps : Value) (d : nat) (b : Bridge)
    (h : positive) (t : Timer) (id m' : string) :
  Inv b →
  timers (sendRequest m ps d b) !! h = Some t →
  callback t = RequestTimeout id (nextPromise b) m' →
  due t = now b + d.
Proof.
  intros Hb Hh Hc. unfold sendRequest in Hh. simpl in Hh.
  assert (timers b !! h = Some t → False) as Hold.
  { intros Hold. pose proof (inv_owned _ _ _ _ _ _ _ Hb h t _ _ _ Hold Hc) as Hid.
    destruct (inv_unsettled _ _ _ _ _ _ _ Hb _ _ Hid) as [Hlt _]. simpl in Hlt. lia. }
  destruct (contentWindow b); simpl in Hh; [|done].
  destruct (decide (h = nextTimer b)) as [->|Hne].
  - rewrite lookup_insert_eq in Hh. by injection Hh as <-.
  - by rewrite lookup_insert_ne in Hh.
Qed.

(** A request whose target never answers is rejected by the time the
    clock passes its timeout. *)
Lemma request_times_out (es : list Event) (m : string) (ps : Value) (d : nat)
    (b b' : Bridge) :
  Good b →
  run props es (sendRequest m ps d b) = Some b' →
  now b + d < now b' →
  length (settlements (nextPromise b) b') = 1
  ∧ ∀ id pr, pendingRequests b' !! id = Some pr → pr_promise pr ≠ nextPromise b.
Proof.
  intros Hb Hrun Hlate.
  destruct (sendRequest_sound m ps d b) as [Hi1 Hc1].
  assert (Good (sendRequest m ps d b)) as Hb1.
  { destruct Hb as [Hi Ht]. split; [by apply Hi1|by eapply Timely_calm]. }
  assert (nextPromise b < nextPromise (sendRequest m ps d b)) as Hmade.
  { unfold sendRequest. simpl. destruct (contentWindow b); simpl; lia. }
  destruct (run_good es _ b' Hb1 Hrun) as [[Hi' Ht'] Hg].
  assert (∀ id pr, pendingRequests b' !! id = Some pr → pr_promise pr ≠ nextPromise b)
    as Hgone.
  { intros id pr Hid Hp.
    destruct (inv_armed _ _ _ _ _ _ _ Hi' id pr Hid) as (t & m' & Hh & Hc).
    rewrite Hp in Hc. pose proof (Ht' _ _ Hh) as Hdue.
    destruct (grows_timers _ _ Hg _ _ Hh) as [Hold|[_ Hnew]].
    - rewrite (sendRequest_deadline m ps d b (pr_timer pr) t id m') in Hdue;
        [lia|apply Hb|done..].
    - specialize (Hnew _ _ _ Hc). lia. }
  split; [|done].
  destruct (settled_once b' (nextPromise b) Hi') as [[_ (id & pr & Hid & Hp)]|[Hlen _]];
    [pose proof (grows_nextPromise _ _ Hg); lia| |done].
  by destruct (Hgone id pr Hid).
Qed.

(** Settling the request [id] ([s] being the call its promise sees)
    leaves every other pending request as it was. *)
Definition settles (id : string) (pr : PendingRequest) (s : Settlement)
    (b b' : Bridge) : Prop :=
  pendingRequests b' !! id = None
  ∧ timers b' !! pr_timer pr = None
  ∧ settlements (pr_promise pr) b' = [s]
  ∧ ∀ id' pr', id' ≠ id → pendingRequests b !! id' = Some pr' →
      pendingRequests b' !! id' = Some pr'
      ∧ timers b' !! pr_timer pr' = timers b !! pr_timer pr'
      ∧ settlements (pr_promise pr') b' = [].

Lemma settle_settles (id : string) (pr : PendingRequest) (s : Settlement) (b : Bridge) :
  Inv b → pendingRequests b !! id = Some pr →
  settles id pr s b
    (settle (pr_promise pr) s
       (set_pendingRequests (delete id (pendingRequests b))
          (clearTimeout (pr_timer pr) b))).
Proof.
  intros Hb Hid. unfold settles, settle. simpl. unfold settlements. simpl.
  destruct (inv_unsettled _ _ _ _ _ _ _ Hb id pr Hid) as [_ Hnil].
  rewrite !lookup_delete_eq, lookup_insert_eq, Hnil. split_and!; try done.
  intros id' pr' Hne Hid'.
  destruct (inv_unsettled _ _ _ _ _ _ _ Hb id' pr' Hid') as [_ Hnil'].
  destruct (inv_armed _ _ _ _ _ _ _ Hb id pr Hid) as (t & m & Ht & Hc).
  destruct (inv_armed _ _ _ _ _ _ _ Hb id' pr' Hid') as (t' & m' & Ht' & Hc').
  rewrite lookup_delete_ne by done. split_and!; [done| |].
  - rewrite lookup_delete_ne; [done|]. intros Heq. rewrite Heq, Ht' in Ht.
    injection Ht as <-. congruence.
  - rewrite lookup_insert_ne; [done|]. intros Heq. apply Hne. symmetry.
    by apply (inv_promises _ _ _ _ _ _ _ Hb id id' pr pr').
Qed.

Lemma handleResponse_settles (data : Value) (pr : PendingRequest) (b : Bridge) :
  Inv b →
  pendingRequests b !! String_of (get data "id") = Some pr →
  settles (String_of (get data "id")) pr
    (if has "error" data then RejectedWith (get data "error")
     else Resolved (get data "result"))
    b (handleResponse data b).
Proof.
  intros Hb Hid. unfold handleResponse. rewrite Hid.
  destruct (has "error" data); exact (settle_settles _ pr _ b Hb Hid).
Qed.

Lemma handleResponse_unmatched (data : Value) (b : Bridge) :
  pendingRequests b !! String_of (get data "id") = None →
  handleResponse data b = b.
Proof. intros Hid. unfold handleResponse. by rewrite Hid. Qed.

Lemma timeout_settles (h : positive) (t : Timer) (id m : string) (p : nat)
    (b : Bridge) :
  Inv b → timers b !! h = Some t → callback t = RequestTimeout id p m →
  settles id {| pr_promise := p; pr_timer := h |}
    (RejectedError ("Request timeout: " +:+ m)) b (fire props h b).
Proof.
  intros Hb Hh Hc. unfold fire. rewrite Hh, Hc. simpl.
  pose proof (inv_owned _ _ _ _ _ _ _ Hb h t id p m Hh Hc) as Hid.
  exact (settle_settles id {| pr_promise := p; pr_timer := h |} _ b Hb Hid).
Qed.

Lemma unmount_loop_rejects (b : Bridge) (m : gmap string PendingRequest) (p : nat) :
  ∃ k, settlements p
         (map_fold
            (λ _ pending b,
               settle (pr_promise pending) (RejectedError "Component unmounted")
                 (clearTimeout (pr_timer pending) b))
            b m)
       = settlements p b ++ replicate k (RejectedError "Component unmounted").
Proof.
  revert m.
  apply (map_fold_weak_ind
           (λ r (_ : gmap string PendingRequest),
              ∃ k, settlements p r
                   = settlements p b ++ replicate k (RejectedError "Component unmounted"))).
  - exists 0. by rewrite app_nil_r.
  - intros id pr m r _ [k IH]. unfold settle. simpl. unfold settlements in *. simpl.
    destruct (decide (pr_promise pr = p)) as [->|Hne].
    + exists (S k). rewrite lookup_insert_eq. simpl. rewrite IH, <-app_assoc.
      f_equal. by rewrite <-replicate_cons_app.
    + exists k. by rewrite lookup_insert_ne.
Qed.

Lemma unmount_rejects (b : Bridge) :
  Inv b →
  pendingRequests (unmount b) = ∅
  ∧ ∀ id pr, pendingRequests b !! id = Some pr →
      settlements (pr_promise pr) (unmount b) = [RejectedError "Component unmounted"].
Proof.
  intros Hb. split; [done|]. intros id pr Hid.
  destruct (unmount_sound b) as [Hi _]. specialize (Hi Hb).
  destruct (inv_unsettled _ _ _ _ _ _ _ Hb id pr Hid) as [Hlt Hnil].
  assert (nextPromise (unmount b) = nextPromise b) as Hnp.
  { destruct (unmount_sound b) as [_ [_ _ Hle _]]. clear Hi.
    unfold unmount. simpl.
    set (b1 := match initializeTimer b with Some h => clearTimeout h b | None => b end).
    assert (nextPromise b1 = nextPromise b) as <- by (subst b1; by destruct (initializeTimer b)).
    generalize (pendingRequests b1).
    apply (map_fold_weak_ind (λ r _, nextPromise r = nextPromise b1)); [done|].
    by intros ? ? ? ? _ <-. }
  destruct (settled_once (unmount b) (pr_promise pr) Hi) as [[_ (id' & pr' & Hid' & _)]|[Hlen _]];
    [lia|done|].
  unfold unmount in *.
  set (b1 := match initializeTimer b with Some h => clearTimeout h b | None => b end) in *.
  destruct (unmount_loop_rejects b1 (pendingRequests b1) (pr_promise pr)) as [k Hk].
  change (settlements (pr_promise pr) (set_pendingRequests ∅ ?r))
    with (settlements (pr_promise pr) r) in *.
  assert (settlements (pr_promise pr) b1 = []) as Hnil1.
  { subst b1. by destruct (initializeTimer b). }
  rewrite Hk, Hnil1 in *. simpl in *. rewrite length_replicate in Hlen. by subst k.
Qed.

End Requests.



(** *** The theorems at work *)

#[local] Existing Instance ReferenceJsonFacts.reference_parser.

(** A bridge whose iframe has loaded: the window is there, the first
    [ui/initialize] is out and the retry timer runs. *)
Definition loaded : Bridge :=
  default initial
    (run (H := ReferenceJsonFacts.reference_parser) (search_props true)
       [IframeRef true; IframeLoad; Render; Render] initial).

Definition initialized : Value :=
  obj [("jsonrpc", VStr "2.0"); ("method", VStr "ui/notifications/initialized")].


Lemma initialized_hydrates_again_witness :
  ∃ b1 b2,
    handleMessage (H := ReferenceJsonFacts.reference_parser)
      (search_props true) initialized loaded = Some b1
    ∧ posted b1
      = posted loaded ++ hydration (H := ReferenceJsonFacts.reference_parser) (search_props true)
        ++ map replay (pendingNotifications loaded)
    ∧ iframeStateRef (render (search_props true) b1) = ready
    ∧ handleMessage (search_props true) initialized (render (search_props true) b1)
      = Some b2
    ∧ posted b2
      = posted b1 ++ hydration (H := ReferenceJsonFacts.reference_parser) (search_props true).
Proof.
  exact (initialized_hydrates_again (H := ReferenceJsonFacts.reference_parser)
           (search_props true) initialized loaded eq_refl eq_refl eq_refl).
Defined.


(** A result sent to a bridge that is ready goes out at once. *)
Lemma sendToolNotification_validates_witness :
  let params := obj [("tool", obj [("name", VStr "t")]); ("result", VStr "done")] in
  let b := render (search_props true) (handleInitialized (search_props true) loaded) in
  posted (sendToolNotification "ui/notifications/tool-result" params b)
  = posted b ++ [PostNotification "ui/notifications/tool-result" params].
Proof.
  intros params b.
  destruct (sendToolNotification_validates "ui/notifications/tool-result" params b)
    as (_ & _ & _ & Hsent & _).
  apply Hsent; vm_compute; reflexivity.
Defined.

End HostBridgeFacts.

(** ** The provider: queues, routing and the app-data cache *)

Module ChatProviderFacts.
Import McpUtils ChatProvider.

Lemma push_lookup {A} (k k' : string) (x : A) (queues : gmap string (list A)) :
  default [] (push k x queues !! k')
  = if decide (k = k') then default [] (queues !! k) ++ [x]
    else default [] (queues !! k').
Proof.
  unfold push. destruct (decide (k = k')) as [->|Hne].
  - by rewrite lookup_insert_eq.
  - by rewrite lookup_insert_ne.
Qed.

(** The fields a call of a sender leaves alone. *)
Definition same_registry (p p' : Provider) : Prop :=
  toolNotificationSenders p' = toolNotificationSenders p
  ∧ pendingToolNotifications p' = pendingToolNotifications p
  ∧ pendingBroadcastNotifications p' = pendingBroadcastNotifications p.

Lemma received_callSender (appId other : string) (n : Notification) (p : Provider) :
  received other (callSender appId n p)
  = if decide (appId = other) then received appId p ++ [n] else received other p.
Proof. unfold received. simpl. apply push_lookup. Qed.

Lemma callSender_all (appId : string) (ns : list Notification) (p : Provider) :
  let p' := foldl (λ p n, callSender appId n p) p ns in
  same_registry p p'
  ∧ received appId p' = received appId p ++ ns
  ∧ ∀ other, other ≠ appId → received other p' = received other p.
Proof.
  revert p. induction ns as [|n ns IH]; intros p; simpl.
  - by rewrite app_nil_r.
  - destruct (IH (callSender appId n p)) as (Hsame & Hrecv & Hother).
    split_and!.
    + exact Hsame.
    + rewrite Hrecv, received_callSender, decide_True by done.
      by rewrite <-app_assoc.
    + intros other Hne. rewrite Hother by done.
      by rewrite received_callSender, decide_False.
Qed.

Definition notification_of (n : BroadcastNotification) : Notification :=
  {| method := b_method n; params := b_params n |}.

Lemma callSender_broadcasts (appId : string) (ns : list BroadcastNotification)
    (p : Provider) :
  foldl (λ p n, callSender appId {| method := b_method n; params := b_params n |} p) p ns
  = foldl (λ p n, callSender appId n p) p (map notification_of ns).
Proof. revert p. induction ns as [|n ns IH]; intros p; simpl; [done|apply IH]. Qed.

(** What a registration delivers: the app's own queue, then the broadcast
    queue, each in order; both are empty afterwards. *)
Lemma registerToolNotificationSender_spec (appId : string) (p : Provider) :
  let p' := registerToolNotificationSender appId p in
  received appId p'
  = received appId p ++ queued appId p
    ++ map notification_of (pendingBroadcastNotifications p)
  ∧ queued appId p' = []
  ∧ pendingBroadcastNotifications p' = []
  ∧ toolNotificationSenders p' = {[appId]} ∪ toolNotificationSenders p
  ∧ (∀ other, other ≠ appId →
       received other p' = received other p ∧ queued other p' = queued other p).
Proof.
  unfold registerToolNotificationSender.
  set (p0 := set_toolNotificationSenders _ p).
  set (p1 := match pendingToolNotifications p0 !! appId with
             | Some pendingForApp => _ | None => _ end).
  assert (received appId p1 = received appId p ++ queued appId p
          ∧ queued appId p1 = []
          ∧ pendingBroadcastNotifications p1 = pendingBroadcastNotifications p
          ∧ toolNotificationSenders p1 = {[appId]} ∪ toolNotificationSenders p
          ∧ (∀ other, other ≠ appId →
               received other p1 = received other p ∧ queued other p1 = queued other p))
    as (Hr1 & Hq1 & Hb1 & Hs1 & Ho1).
  { subst p1. unfold queued. change (pendingToolNotifications p0) with (pendingToolNotifications p).
    destruct (pendingToolNotifications p !! appId) as [l|] eqn:Hl; simpl.
    - case_bool_decide as Hlen.
      + destruct (callSender_all appId l p0) as ((Hs & Hq & Hb) & Hr & Ho).
        simpl. change (received ?a (set_pendingToolNotifications _ ?q))
          with (received a q).
        rewrite lookup_delete_eq, Hb, Hs, Hr. split_and!; try done.
        intros other Hne. rewrite lookup_delete_ne by done. by rewrite Ho.
      + destruct l; [|simpl in Hlen; lia].
        change (pendingToolNotifications p0) with (pendingToolNotifications p).
        rewrite Hl, app_nil_r. split_and!; done.
    - change (pendingToolNotifications p0) with (pendingToolNotifications p).
      rewrite Hl, app_nil_r. split_and!; done. }
  simpl. rewrite Hb1. case_bool_decide as Hlen.
  - rewrite callSender_broadcasts.
    destruct (callSender_all appId (map notification_of (pendingBroadcastNotifications p)) p1)
      as ((Hs & Hq & Hb) & Hr & Ho).
    unfold queued, received in *. simpl.
    rewrite Hq, Hs, Hr, Hr1, Hq1, Hs1, <-app_assoc.
    split_and!; try done. intros other Hne. rewrite Ho by done. by apply Ho1.
  - destruct (pendingBroadcastNotifications p) eqn:Hnil; [|simpl in Hlen; lia].
    simpl. rewrite app_nil_r. split_and!; (done || congruence).
Qed.

Lemma sendToolNotificationToApp_unregistered (appId m : string) (ps : Value)
    (p : Provider) :
  appId ∉ toolNotificationSenders p →
  sendToolNotificationToApp appId m ps p
  = set_pendingToolNotifications
      (push appId {| method := m; params := ps |} (pendingToolNotifications p)) p.
Proof.
  intros Hout. unfold sendToolNotificationToApp.
  by rewrite bool_decide_eq_false_2.
Qed.

Lemma sendToolNotificationToApp_queues (appId : string) (ns : list Notification)
    (p : Provider) :
  appId ∉ toolNotificationSenders p →
  let p' := foldl (λ p n, sendToolNotificationToApp appId (method n) (params n) p) p ns in
  queued appId p' = queued appId p ++ ns
  ∧ received appId p' = received appId p
  ∧ pendingBroadcastNotifications p' = pendingBroadcastNotifications p
  ∧ toolNotificationSenders p' = toolNotificationSenders p.
Proof.
  intros Hout. revert p Hout. induction ns as [|[m ps] ns IH]; intros p Hout.
  - simpl. by rewrite app_nil_r.
  - cbn [foldl method params].
    rewrite sendToolNotificationToApp_unregistered by done.
    destruct (IH (set_pendingToolNotifications
                    (push appId {| method := m; params := ps |}
                       (pendingToolNotifications p)) p)) as (Hq & Hr & Hb & Hs); [done|].
    rewrite Hq, Hr, Hb, Hs. unfold queued, received. simpl. rewrite push_lookup.
    rewrite decide_True by done. by rewrite <-app_assoc.
Qed.

(** *** The broadcast queue *)

Lemma broadcastToolNotification_queued (m : string) (ps toolName : Value)
    (p : Provider) :
  toolNotificationSenders p = ∅ →
  let p' := broadcastToolNotification m ps toolName p in
  map notification_of (pendingBroadcastNotifications p')
  = map notification_of (pendingBroadcastNotifications p) ++ [{| method := m; params := ps |}]
  ∧ (∀ appId, received appId p' = received appId p ∧ queued appId p' = queued appId p)
  ∧ toolNotificationSenders p' = ∅.
Proof.
  intros Hnone. unfold broadcastToolNotification.
  rewrite Hnone, size_empty, bool_decide_eq_true_2 by done. simpl.
  by rewrite map_app.
Qed.

(** The calls the provider's registry takes. *)
Inductive Call :=
  | Register (appId : string)
  | Unregister (appId : string)
  | SendTo (appId method : string) (params : Value)
  | Broadcast (method : string) (params toolName : Value).

Definition call (c : Call) (p : Provider) : Provider :=
  match c with
  | Register appId => registerToolNotificationSender appId p
  | Unregister appId => unregisterToolNotificationSender appId p
  | SendTo appId m ps => sendToolNotificationToApp appId m ps p
  | Broadcast m ps toolName => broadcastToolNotification m ps toolName p
  end.

Definition is_broadcast (c : Call) : Prop :=
  match c with Broadcast _ _ _ => True | _ => False end.

Lemma broadcast_queue_stays_empty (cs : list Call) (p : Provider) :
  Forall (λ c, ¬ is_broadcast c) cs →
  pendingBroadcastNotifications p = [] →
  pendingBroadcastNotifications (foldl (λ p c, call c p) p cs) = [].
Proof.
  intros Hcs. revert p. induction Hcs as [|c cs Hc _ IH]; intros p Hp; [done|].
  simpl. apply IH. destruct c as [a|a|a m ps|m ps tn]; simpl.
  - by destruct (registerToolNotificationSender_spec a p) as (_ & _ & ? & _).
  - done.
  - unfold sendToolNotificationToApp. by case_bool_decide.
  - by destruct Hc.
Qed.

(** C2. A broadcast sent while no app is registered is queued; the first
    app to register receives the whole broadcast queue, in order, and no
    other app does; the queue is then empty, so that whatever registers
    later (no further broadcast being queued meanwhile) receives its own
    queue and nothing else. *)
Theorem broadcast_consumed_once (m : string) (ps toolName : Value)
    (first : string) (p : Provider) :
  toolNotificationSenders p = ∅ →
  let n := {| method := m; params := ps |} in
  let p1 := broadcastToolNotification m ps toolName p in
  let p2 := registerToolNotificationSender first p1 in
  (∀ appId, received appId p1 = received appId p)
  ∧ map notification_of (pendingBroadcastNotifications p1)
    = map notification_of (pendingBroadcastNotifications p) ++ [n]
  ∧ received first p2
    = received first p ++ queued first p
      ++ map notification_of (pendingBroadcastNotifications p) ++ [n]
  ∧ (∀ other, other ≠ first → received other p2 = received other p)
  ∧ pendingBroadcastNotifications p2 = []
  ∧ ∀ cs later,
      Forall (λ c, ¬ is_broadcast c) cs →
      let p3 := foldl (λ p c, call c p) p2 cs in
      received later (registerToolNotificationSender later p3)
      = received later p3 ++ queued later p3.
Proof.
  intros Hnone n p1 p2.
  destruct (broadcastToolNotification_queued m ps toolName p Hnone) as (Hb1 & Hsame & _).
  destruct (registerToolNotificationSender_spec first p1) as (Hr2 & _ & Hb2 & _ & Ho2).
  fold p1 in Hb1, Hsame. fold p2 in Hr2, Hb2, Ho2.
  split_and!.
  - intros appId. apply Hsame.
  - exact Hb1.
  - rewrite Hr2, Hb1. by destruct (Hsame first) as [-> ->].
  - intros other Hne. destruct (Ho2 other Hne) as [-> _]. apply Hsame.
  - exact Hb2.
  - intros cs later Hcs p3.
    destruct (registerToolNotificationSender_spec later p3) as (Hr3 & _).
    rewrite Hr3. subst p3. rewrite broadcast_queue_stays_empty by done.
    simpl. by rewrite app_nil_r.
Qed.

Lemma broadcast_consumed_once_witness :
  let n := {| method := "ui/notifications/tool-result";
              params := obj [("result", VStr "done")] |} in
  let p1 := broadcastToolNotification (method n) (params n) VUndefined initial in
  received "A" (registerToolNotificationSender "A" p1) = [n]
  ∧ received "B" (registerToolNotificationSender "B"
                    (registerToolNotificationSender "A" p1)) = [].
Proof.
  destruct (broadcast_consumed_once "ui/notifications/tool-result"
              (obj [("result", VStr "done")]) VUndefined "A" initial eq_refl)
    as (_ & _ & Hfirst & _ & _ & Hlater).
  split; [exact Hfirst|]. exact (Hlater [] "B" (List.Forall_nil _)).
Defined.

(** *** Routing of a tool invocation *)

(** The step updates an app's callback has received, and those kept for
    it until its callback registers. *)
Definition delivered (appId : string) (p : Provider) : list Value :=
  default [] (callbackCalls p !! appId).

Definition held (appId : string) (p : Provider) : list Value :=
  default [] (pendingStepUpdates p !! appId).

(** The step updates of one run of a tool, in order: one per call of a
    notify function, and the returned result unless it is [undefined]. *)
Definition updatesOf (exec : Value → list ToolCall * Completion Value)
    (toolName : string) (args : Value) : list Value :=
  map (stepUpdateOf toolName) (exec args).1
  ++ match (exec args).2 with
     | Normal result =>
         if is_undefined result then [] else [resultStepUpdate toolName result]
     | Throw _ => []
     end.

(** What routing one step update changes. *)
Definition routed (resolvedAppId : option string) (us : list Value)
    (p p' : Provider) : Prop :=
  stepUpdateCallbacks p' = stepUpdateCallbacks p
  ∧ ∀ appId,
      if present resolvedAppId then
        if decide (resolvedAppId = Some appId) then
          if decide (appId ∈ stepUpdateCallbacks p)
          then delivered appId p' = delivered appId p ++ us
               ∧ held appId p' = held appId p
          else delivered appId p' = delivered appId p
               ∧ held appId p' = held appId p ++ us
        else delivered appId p' = delivered appId p ∧ held appId p' = held appId p
      else
        held appId p' = held appId p
        ∧ delivered appId p'
          = if decide (appId ∈ stepUpdateCallbacks p)
            then delivered appId p ++ us else delivered appId p.

Lemma routed_nil (resolvedAppId : option string) (p : Provider) :
  routed resolvedAppId [] p p.
Proof.
  split; [done|]. intros appId.
  repeat case_match; by rewrite ?app_nil_r.
Qed.

Lemma routed_app (resolvedAppId : option string) (us vs : list Value)
    (p p' p'' : Provider) :
  routed resolvedAppId us p p' → routed resolvedAppId vs p' p'' →
  routed resolvedAppId (us ++ vs) p p''.
Proof.
  intros [Hc1 H1] [Hc2 H2]. split; [congruence|]. intros appId.
  specialize (H1 appId). specialize (H2 appId). rewrite Hc1 in H2.
  repeat case_match; destruct H1 as [H1a H1b], H2 as [H2a H2b];
    by rewrite H2a, H2b, H1a, H1b, ?app_assoc.
Qed.

Lemma callCallback_all (u : Value) (X : gset string) (p : Provider) :
  let p' := set_fold (λ appId p, callCallback appId u p) p X in
  stepUpdateCallbacks p' = stepUpdateCallbacks p
  ∧ pendingStepUpdates p' = pendingStepUpdates p
  ∧ ∀ appId, delivered appId p'
             = if decide (appId ∈ X) then delivered appId p ++ [u]
               else delivered appId p.
Proof.
  intros p'. subst p'. revert X.
  apply (set_fold_ind_L
           (λ r (Y : gset string),
              stepUpdateCallbacks r = stepUpdateCallbacks p
              ∧ pendingStepUpdates r = pendingStepUpdates p
              ∧ ∀ appId, delivered appId r
                         = if decide (appId ∈ Y) then delivered appId p ++ [u]
                           else delivered appId p)).
  - done.
  - intros x Y r Hx (Hc & Hq & Hd). split_and!; try done.
    intros appId. unfold delivered at 1. simpl. rewrite push_lookup.
    fold (delivered x r) (delivered appId r). rewrite !Hd.
    destruct (decide (x = appId)) as [->|Hne].
    + rewrite decide_False by done. by rewrite decide_True by set_solver.
    + destruct (decide (appId ∈ Y)).
      * by rewrite decide_True by set_solver.
      * by rewrite decide_False by set_solver.
Qed.

Lemma routeStepUpdate_routed (resolvedAppId : option string) (u : Value)
    (p : Provider) :
  routed resolvedAppId [u] p (routeStepUpdate resolvedAppId u p).
Proof.
  unfold routeStepUpdate, routed.
  destruct (present resolvedAppId) eqn:Hpresent.
  - destruct resolvedAppId as [a|]; [|done]. simpl.
    case_bool_decide as Hreg; (split; [done|]); intros appId;
      unfold delivered, held; simpl;
      (destruct (decide (Some a = Some appId)) as [[= <-]|Hne];
       [rewrite ?push_lookup, ?decide_True by done
       |rewrite ?push_lookup, ?decide_False by congruence]);
      by repeat case_decide.
  - destruct (callCallback_all u (stepUpdateCallbacks p) p) as (Hc & Hq & Hd).
    split; [done|]. intros appId. unfold held. by rewrite Hq, Hd.
Qed.

Lemma routeStepUpdate_all (resolvedAppId : option string) (us : list Value)
    (p : Provider) :
  routed resolvedAppId us p (foldl (λ p u, routeStepUpdate resolvedAppId u p) p us).
Proof.
  revert p. induction us as [|u us IH]; intros p; simpl.
  - apply routed_nil.
  - apply (routed_app _ [u] us _ (routeStepUpdate resolvedAppId u p));
      [apply routeStepUpdate_routed|apply IH].
Qed.

Lemma routed_ext (resolvedAppId : option string) (us : list Value)
    (p q p' : Provider) :
  stepUpdateCallbacks q = stepUpdateCallbacks p →
  callbackCalls q = callbackCalls p →
  pendingStepUpdates q = pendingStepUpdates p →
  routed resolvedAppId us q p' → routed resolvedAppId us p p'.
Proof.
  intros Hc Hd Hq [Hc' Hr]. split; [congruence|]. intros appId.
  specialize (Hr appId). unfold delivered, held in *. by rewrite Hc, Hd, Hq in Hr.
Qed.

(** The notifications of one run go where [resolveAppId] says. *)
Lemma runTool_routed (context : ModelContext)
    (exec : Value → list ToolCall * Completion Value)
    (toolName : string) (args : Value) (targetAppId : option string) (p : Provider) :
  routed (resolveAppId (name context) toolName targetAppId p)
    (updatesOf exec toolName args) p
    (runTool context exec toolName args targetAppId p).1
  ∧ (runTool context exec toolName args targetAppId p).2 = (exec args).2.
Proof.
  unfold runTool, updatesOf.
  set (a := resolveAppId (name context) toolName targetAppId p).
  set (p1 := if present a then _ else _).
  assert (stepUpdateCallbacks p1 = stepUpdateCallbacks p
          ∧ callbackCalls p1 = callbackCalls p
          ∧ pendingStepUpdates p1 = pendingStepUpdates p) as (Hc & Hd & Hq).
  { subst p1. by destruct (present a); split_and!. }
  destruct (exec args) as [calls outcome]. simpl.
  assert (foldl (λ p u, routeStepUpdate a u p) p1 (map (stepUpdateOf toolName) calls)
          = foldl (λ p c, routeStepUpdate a (stepUpdateOf toolName c) p) p1 calls) as Hfold.
  { generalize p1. induction calls as [|c calls IH]; intros q; simpl; [done|apply IH]. }
  pose proof (routeStepUpdate_all a (map (stepUpdateOf toolName) calls) p1) as Hcalls.
  rewrite Hfold in Hcalls. apply (routed_ext _ _ p p1) in Hcalls; try done.
  destruct outcome as [result|e]; simpl.
  - destruct (is_undefined result); simpl.
    + by rewrite app_nil_r.
    + split; [|done]. eapply routed_app; [exact Hcalls|apply routeStepUpdate_routed].
  - by rewrite app_nil_r.
Qed.

Lemma resolveAppId_explicit (contextName : option string) (toolName : string)
    (targetAppId : option string) (p : Provider) :
  present targetAppId = true →
  resolveAppId contextName toolName targetAppId p = targetAppId.
Proof. intros Ht. unfold resolveAppId. by rewrite Ht. Qed.

Lemma resolveAppId_lookup (contextName : option string) (toolName : string)
    (targetAppId : option string) (p : Provider) :
  present targetAppId = false →
  resolveAppId contextName toolName targetAppId p
  = if present (activeAppByTool p !! toolName) then activeAppByTool p !! toolName
    else if present contextName
         then activeAppByTool p !! (default "" contextName +:+ "_" +:+ toolName)
         else activeAppByTool p !! toolName.
Proof.
  intros Ht. unfold resolveAppId. rewrite Ht. simpl.
  by destruct (present (activeAppByTool p !! toolName)), (present contextName).
Qed.

(** The context and tool the loop of [executeToolCall] settles on: the
    first context whose first tool of that name has an [execute]. *)
Fixpoint chosen (contexts : list ModelContext) (toolName : string)
  : option (ModelContext * (Value → list ToolCall * Completion Value)) :=
  match contexts with
  | [] => None
  | context :: rest =>
      match (tools context
             ≫= List.find (λ t, bool_decide (tool_name t = toolName)))
            ≫= execute with
      | Some exec => Some (context, exec)
      | None => chosen rest toolName
      end
  end.

Lemma executeToolCall_chosen (contexts : list ModelContext) (toolName : string)
    (args : Value) (targetAppId : option string) (p : Provider) :
  executeToolCall (Some contexts) toolName args targetAppId p
  = match chosen contexts toolName with
    | Some (context, exec) => runTool context exec toolName args targetAppId p
    | None => (p, Throw ("Tool not found: " +:+ toolName))
    end.
Proof.
  simpl. induction contexts as [|context rest IH]; simpl; [done|].
  destruct (tools context) as [toolsArray|]; simpl; [|done].
  destruct (List.find _ toolsArray) as [tool|]; simpl; [|done].
  by destruct (execute tool).
Qed.

Lemma registerActiveApp_records (rawStep : RawServerStep) (c : Canvas)
    (toolName appId : string) (p : Provider) :
  canvas rawStep = Some c → canvasId c = Some appId → appId ≠ "" →
  or_str (stepToolName rawStep) (stepLabel rawStep) = Some toolName → toolName ≠ "" →
  activeAppByTool (registerActiveApp rawStep p) !! toolName = Some appId.
Proof.
  intros Hc Hid Hne Htool Hnt. unfold registerActiveApp. rewrite Hc, Hid, Htool.
  simpl. rewrite !bool_decide_eq_false_2 by done. simpl.
  destruct (present (stepId rawStep)); simpl; apply lookup_insert_eq.
Qed.

(** Scenario D: apps "A" and "B" have mounted, and a step of tool
    "render" carried the canvas of "A". *)
Definition render_step (appId : string) : RawServerStep :=
  {| stepId := Some ("step-" +:+ appId); stepToolName := Some "render";
     stepLabel := None; stepToolArguments := VUndefined;
     stepToolResult := VUndefined; arguments := None; content := VUndefined;
     stepStatus := Some "processing";
     canvas := Some {| canvasId := Some appId; canvasData := None |} |}.

Definition render_tool : Tool :=
  {| tool_name := "render";
     execute := Some (λ args, ([NotifyToolInputPartial args],
                               Normal (obj [("ok", VBool true)]))) |}.

Definition render_context : ModelContext :=
  {| name := Some "demo"; tools := Some [render_tool] |}.

Definition two_apps : Provider :=
  registerStepUpdateCallback "B"
    (registerStepUpdateCallback "A" (registerActiveApp (render_step "A") initial)).

(** C6. The notifications of [executeToolCall] go to the app resolved in
    this order: the app the caller names; else the app recorded for the
    tool's name (the one of the latest step update that carried a canvas
    for that tool); else the app recorded for the name prefixed with the
    context's; else every registered app.  With "A" recorded for
    "render" and "A", "B" both registered, a call without target reaches
    "A" only. *)
Theorem executeToolCall_routing :
  (∀ contextName toolName targetAppId p,
     let active := activeAppByTool p in
     resolveAppId contextName toolName targetAppId p
     = if present targetAppId then targetAppId
       else if present (active !! toolName) then active !! toolName
       else if present contextName
            then active !! (default "" contextName +:+ "_" +:+ toolName)
            else active !! toolName)
  ∧ (∀ contexts toolName args targetAppId p context exec,
       chosen contexts toolName = Some (context, exec) →
       let resolvedAppId := resolveAppId (name context) toolName targetAppId p in
       let updates := updatesOf exec toolName args in
       let p' := (executeToolCall (Some contexts) toolName args targetAppId p).1 in
       ∀ appId,
         if present resolvedAppId then
           if decide (resolvedAppId = Some appId) then
             if decide (appId ∈ stepUpdateCallbacks p)
             then delivered appId p' = delivered appId p ++ updates
                  ∧ held appId p' = held appId p
             else delivered appId p' = delivered appId p
                  ∧ held appId p' = held appId p ++ updates
           else delivered appId p' = delivered appId p ∧ held appId p' = held appId p
         else
           held appId p' = held appId p
           ∧ delivered appId p'
             = if decide (appId ∈ stepUpdateCallbacks p)
               then delivered appId p ++ updates else delivered appId p)
  ∧ (∀ rawStep c toolName appId p,
       canvas rawStep = Some c → canvasId c = Some appId → appId ≠ "" →
       or_str (stepToolName rawStep) (stepLabel rawStep) = Some toolName →
       toolName ≠ "" →
       activeAppByTool (registerActiveApp rawStep p) !! toolName = Some appId)
  ∧ (let args := obj [("id", VNum 7)] in
     let p' := (executeToolCall (Some [render_context]) "render" args None two_apps).1 in
     delivered "A" p'
     = [partialStepUpdate "render" args;
        resultStepUpdate "render" (obj [("ok", VBool true)])]
     ∧ delivered "B" p' = [] ∧ held "B" p' = []).
Proof.
  split_and!.
  - intros contextName toolName targetAppId p active.
    destruct (present targetAppId) eqn:Ht.
    + by apply resolveAppId_explicit.
    + by apply resolveAppId_lookup.
  - intros contexts toolName args targetAppId p context exec Hchosen
      resolvedAppId updates p' appId. subst p'.
    rewrite executeToolCall_chosen, Hchosen.
    destruct (runTool_routed context exec toolName args targetAppId p) as [[_ Hr] _].
    exact (Hr appId).
  - exact registerActiveApp_records.
  - vm_compute. done.
Qed.

Lemma executeToolCall_routing_witness :
  let args := obj [("id", VNum 7)] in
  let p' := (executeToolCall (Some [render_context]) "render" args None two_apps).1 in
  delivered "A" p'
  = delivered "A" two_apps
    ++ [partialStepUpdate "render" args;
        resultStepUpdate "render" (obj [("ok", VBool true)])]
  ∧ held "A" p' = held "A" two_apps.
Proof.
  intros args p'.
  destruct executeToolCall_routing as (_ & Hrouted & _).
  pose proof (Hrouted [render_context] "render" args None two_apps
                render_context _ eq_refl "A") as Hto.
  vm_compute in Hto. vm_compute. exact Hto.
Defined.

(** *** The app-data cache *)

Lemma updateMcpAppDataCache_lookup (appId other : string)
    (data : gmap string Value) (p : Provider) :
  mcpAppDataCache (updateMcpAppDataCache appId data p) !! other
  = if decide (appId = other)
    then Some (data ∪ default ∅ (mcpAppDataCache p !! appId))
    else mcpAppDataCache p !! other.
Proof.
  unfold updateMcpAppDataCache. simpl. destruct (decide (appId = other)) as [->|Hne].
  - by rewrite lookup_insert_eq.
  - by rewrite lookup_insert_ne.
Qed.

Lemma when_lookup (cond : bool) (k k' : string) (v : Value) :
  when cond k v !! k' = if cond && bool_decide (k = k') then Some v else None.
Proof.
  unfold when. destruct cond; simpl; [|done].
  case_bool_decide as Hk; [subst; apply lookup_singleton_eq|by apply lookup_singleton_ne].
Qed.

Section WithJson.
Context `{JsonParser}.

(** A step update writes [toolInfo], [isComplete], [result] and
    [arguments] at most, and never [undefined]. *)
Lemma stepCacheData_lookup (step : RawServerStep) (appId k : string)
    (v : Value) (p : Provider) :
  stepCacheData step appId p !! k = Some v →
  k ∈ ["toolInfo"; "isComplete"; "result"; "arguments"] ∧ v ≠ VUndefined.
Proof.
  unfold stepCacheData. rewrite !lookup_union_Some_raw, !when_lookup.
  intros Hk. repeat destruct Hk as [Hk|[_ Hk]];
    (destruct (_ && bool_decide (_ = k)) eqn:Hcond; [|done]);
    apply andb_prop in Hcond as [Hv <-%bool_decide_eq_true];
    injection Hk as <-; (split; [set_solver|]); try done.
  - by destruct (stepResultOf step).
  - by destruct (stepArgumentsOf _ _ _ _).
Qed.

(** C8. Merging an update into the record of an app keeps every
    property the update does not carry: [updateMcpAppDataCache] replaces
    only the properties present in the update (and touches no other
    app), and the update a step makes carries [toolInfo], [isComplete],
    [result] and [arguments] at most, each only with a value; the
    resolved [html] of the record, like any other property, stays. *)
Theorem cache_merge_keeps_fields :
  (∀ appId data p existing k v,
     mcpAppDataCache p !! appId = Some existing →
     existing !! k = Some v → data !! k = None →
     ∃ merged,
       mcpAppDataCache (updateMcpAppDataCache appId data p) !! appId = Some merged
       ∧ merged !! k = Some v)
  ∧ (∀ appId data p other,
       other ≠ appId →
       mcpAppDataCache (updateMcpAppDataCache appId data p) !! other
       = mcpAppDataCache p !! other)
  ∧ (∀ step p appId existing k v,
       mcpAppDataCache p !! appId = Some existing →
       existing !! k = Some v →
       k ∉ ["toolInfo"; "isComplete"; "result"; "arguments"] →
       ∃ merged,
         mcpAppDataCache (cacheStepUpdate step p) !! appId = Some merged
         ∧ merged !! k = Some v)
  ∧ (∀ step p appId existing html,
       mcpAppDataCache p !! appId = Some existing →
       existing !! "html" = Some html →
       ∃ merged,
         mcpAppDataCache (cacheStepUpdate step p) !! appId = Some merged
         ∧ merged !! "html" = Some html).
Proof.
  assert (∀ appId data p existing k v,
            mcpAppDataCache p !! appId = Some existing →
            existing !! k = Some v → data !! k = None →
            ∃ merged,
              mcpAppDataCache (updateMcpAppDataCache appId data p) !! appId = Some merged
              ∧ merged !! k = Some v) as Hmerge.
  { intros appId data p existing k v Hcache Hk Hdata.
    eexists. rewrite updateMcpAppDataCache_lookup, decide_True by done.
    split; [done|]. rewrite Hcache. simpl. by rewrite lookup_union_r. }
  assert (∀ step p appId existing k v,
            mcpAppDataCache p !! appId = Some existing →
            existing !! k = Some v →
            k ∉ ["toolInfo"; "isComplete"; "result"; "arguments"] →
            ∃ merged,
              mcpAppDataCache (cacheStepUpdate step p) !! appId = Some merged
              ∧ merged !! k = Some v) as Hstep.
  { intros step p appId existing k v Hcache Hk Hout. unfold cacheStepUpdate.
    destruct (present (appIdOf step p)); [|by eauto].
    destruct (decide (default "" (appIdOf step p) = appId)) as [<-|Hne].
    - apply Hmerge with existing; try done.
      destruct (stepCacheData step _ p !! k) as [w|] eqn:Hw; [|done].
      by apply stepCacheData_lookup in Hw as [Hin _].
    - exists existing. by rewrite updateMcpAppDataCache_lookup, decide_False. }
  split_and!.
  - exact Hmerge.
  - intros appId data p other Hne.
    by rewrite updateMcpAppDataCache_lookup, decide_False.
  - exact Hstep.
  - intros step p appId existing html Hcache Hhtml.
    apply Hstep with existing; try done. set_solver.
Qed.

End WithJson.

Lemma cache_merge_keeps_fields_witness :
  let p := updateMcpAppDataCache "A" {[ "html" := VStr "<div/>" ]} initial in
  ∃ merged,
    mcpAppDataCache (cacheStepUpdate (H := ReferenceJsonFacts.reference_parser)
                       (render_step "A") p) !! "A" = Some merged
    ∧ merged !! "html" = Some (VStr "<div/>").
Proof.
  intros p.
  destruct (cache_merge_keeps_fields (H := ReferenceJsonFacts.reference_parser))
    as (_ & _ & _ & Hhtml).
  apply (Hhtml (render_step "A") p "A" {[ "html" := VStr "<div/>" ]});
    vm_compute; reflexivity.
Defined.

(** A property an update carries as [undefined] is carried: the call
    made after a [ui://] resource is resolved writes [toolInfo] as
    [undefined] when the step has neither tool name nor label, over the
    tool recorded before. *)
Example undefined_overwrites :
  let unnamed := {| stepId := None; stepToolName := None; stepLabel := None;
                    stepToolArguments := VUndefined; stepToolResult := VUndefined;
                    arguments := None; content := VUndefined; stepStatus := None;
                    canvas := None |} in
  let data := {| cd_url := Some "ui://widget/main"; cd_html := None;
                 cd_result := VUndefined; cd_arguments := VUndefined;
                 cd_height := VUndefined; cd_width := VUndefined |} in
  let p := updateMcpAppDataCache "A" {[ "toolInfo" := toolInfoOf "render" ]} initial in
  (mcpAppDataCache (cacheResolvedHtml unnamed "A" "<div/>" "ui://widget/main" data p)
     !! "A") ≫= (.!! "toolInfo")
  = Some VUndefined.
Proof. vm_compute. done. Qed.

End ChatProviderFacts.

(** ** Resource URI templates *)

Module ConnectorFacts.
Import Connector.

(** *** Strings *)

Lemma app_cons (c : ascii) (s t : string) : String c s +:+ t = String c (s +:+ t).
Proof. reflexivity. Qed.

Lemma app_nil_l (s : string) : "" +:+ s = s.
Proof. reflexivity. Qed.

Lemma app_nil_r (s : string) : s +:+ "" = s.
Proof. induction s as [|c s IH]; [done|]. by rewrite app_cons, IH. Qed.

Lemma app_assoc (s t u : string) : (s +:+ t) +:+ u = s +:+ (t +:+ u).
Proof. induction s as [|c s IH]; [done|]. by rewrite !app_cons, IH. Qed.

Lemma app_inv_length (v v' r r' : string) :
  String.length v = String.length v' → v +:+ r = v' +:+ r' → v = v' ∧ r = r'.
Proof.
  revert v'. induction v as [|c v IH]; intros [|c' v'] Hlen Happ; try done.
  rewrite !app_cons in Happ. simpl in Hlen. injection Happ as -> Happ.
  destruct (IH v') as [-> ->]; [lia|done|done].
Qed.

(** All characters of the text satisfy [P]. *)
Fixpoint all_chars (P : ascii → bool) (s : string) : bool :=
  match s with
  | String c s => P c && all_chars P s
  | EmptyString => true
  end.

(** *** What the pattern matches *)

(** [Matches items s captures]: [s] is the items one after the other, a
    group standing for one character or more, none a line terminator;
    [captures] are the texts of the groups. *)
Inductive Matches : list Item → string → list string → Prop :=
  | Matches_end : Matches [] "" []
  | Matches_char c items s captures :
      Matches items s captures →
      Matches (Char c :: items) (String c s) captures
  | Matches_any c items s captures :
      is_line_terminator c = false →
      Matches items s captures →
      Matches (AnyChar :: items) (String c s) captures
  | Matches_group value items s captures :
      value ≠ "" →
      all_chars (λ c, negb (is_line_terminator c)) value = true →
      Matches items s captures →
      Matches (Group :: items) (value +:+ s) (value :: captures).

(** The first capture that differs is longer on the left. *)
Fixpoint longest_first (captures captures' : list string) : Prop :=
  match captures, captures' with
  | value :: rest, value' :: rest' =>
      String.length value' < String.length value
      ∨ (value = value' ∧ longest_first rest rest')
  | _, _ => True
  end.

Section Greedy.
Context (continue : string → option (list string)).

Lemma greedy_sound (s value : string) (captures : list string) :
  greedy continue s = Some (value, captures) →
  ∃ rest, s = value +:+ rest ∧ value ≠ ""
          ∧ all_chars (λ c, negb (is_line_terminator c)) value = true
          ∧ continue rest = Some captures.
Proof.
  revert value. induction s as [|c s IH]; intros value; simpl; [done|].
  destruct (is_line_terminator c) eqn:Hc; [done|].
  destruct (greedy continue s) as [[value' captures']|].
  - intros [= <- <-]. destruct (IH value' eq_refl) as (rest & -> & _ & Hall & Hk).
    exists rest. simpl. by rewrite Hc, Hall.
  - destruct (continue s) as [captures'|] eqn:Hk; [|done].
    intros [= <- <-]. exists s. simpl. by rewrite Hc.
Qed.

(** The greedy choice is at least as long as any other that lets the
    rest match. *)
Lemma greedy_longest (value rest : string) :
  value ≠ "" →
  all_chars (λ c, negb (is_line_terminator c)) value = true →
  is_Some (continue rest) →
  ∃ value' captures,
    greedy continue (value +:+ rest) = Some (value', captures)
    ∧ String.length value ≤ String.length value'.
Proof.
  induction value as [|c value IH]; [done|]. intros _ Hall Hk.
  rewrite app_cons. simpl in *.
  apply andb_prop in Hall as [Hc%negb_true_iff Hall]. rewrite Hc.
  destruct value as [|c' value].
  - rewrite app_nil_l. destruct (greedy continue rest) as [[value' captures]|].
    + eexists _, _. split; [done|]. simpl. lia.
    + destruct Hk as [captures ->]. eexists _, _. by split.
  - destruct (IH ltac:(done) Hall Hk) as (value' & captures & -> & Hlen).
    eexists _, _. split; [done|]. simpl in *. lia.
Qed.

End Greedy.

Lemma exec_sound (items : list Item) (s : string) (captures : list string) :
  exec items s = Some captures → Matches items s captures.
Proof.
  revert s captures. induction items as [|[c| |] items IH]; intros s captures; simpl.
  - case_bool_decide as Hs; [|done]. intros [= <-]. subst. constructor.
  - destruct s as [|c' s]; [done|]. case_bool_decide as Hc; [|done].
    subst. intros Hexec. constructor. by apply IH.
  - destruct s as [|c' s]; [done|].
    destruct (is_line_terminator c') eqn:Hc; [done|].
    intros Hexec. constructor; [done|]. by apply IH.
  - destruct (greedy (exec items) s) as [[value rest]|] eqn:Hg; [|done].
    intros [= <-]. apply greedy_sound in Hg as (s' & -> & Hne & Hall & Hk).
    constructor; [done..|]. by apply IH.
Qed.

Lemma exec_complete (items : list Item) (s : string) (captures : list string) :
  Matches items s captures → is_Some (exec items s).
Proof.
  induction 1 as [|c items s captures _ IH|c items s captures Hc _ IH
                  |value items s captures Hne Hall _ IH]; simpl.
  - by eexists.
  - by rewrite bool_decide_eq_true_2.
  - by rewrite Hc.
  - destruct (greedy_longest (exec items) value s Hne Hall IH)
      as (value' & captures' & -> & _). by eexists.
Qed.

Lemma exec_greedy (items : list Item) (s : string) (captures captures' : list string) :
  exec items s = Some captures → Matches items s captures' →
  longest_first captures captures'.
Proof.
  intros Hexec Hm. revert captures Hexec.
  induction Hm as [|c items s captures' _ IH|c items s captures' Hc _ IH
                   |value' items s captures' Hne Hall Hm IH]; intros captures; simpl.
  - by destruct captures.
  - rewrite bool_decide_eq_true_2 by done. apply IH.
  - rewrite Hc. apply IH.
  - destruct (greedy (exec items) (value' +:+ s)) as [[value rest]|] eqn:Hg; [|done].
    intros [= <-]. cbn [longest_first].
    destruct (greedy_longest (exec items) value' s Hne Hall (exec_complete _ _ _ Hm))
      as (value2 & captures2 & Hg2 & Hlen).
    rewrite Hg in Hg2. injection Hg2 as <- <-.
    destruct (decide (String.length value' = String.length value)) as [Heq|Hlt]; [|left; lia].
    right. apply greedy_sound in Hg as (s' & Happ & _ & _ & Hk).
    destruct (app_inv_length _ _ _ _ Heq Happ) as [-> ->]. split; [done|]. by apply IH.
Qed.

(** *** A template that ends with its one parameter *)

(** A character that stands for itself in a template and in a pattern. *)
Definition ordinary (c : ascii) : bool :=
  negb (bool_decide (c = "{"%char)) && negb (bool_decide (c = "("%char))
  && negb (bool_decide (c = "."%char)) && negb (is_syntax_character c).

Definition chars (s : string) : list ascii := String.list_ascii_of_string s.

Lemma length_app (s t : string) :
  String.length (s +:+ t) = String.length s + String.length t.
Proof. induction s as [|c s IH]; [done|]. rewrite app_cons. simpl. by rewrite IH. Qed.

Lemma break_at_closing (paramName rest : string) :
  all_chars (λ c, negb (bool_decide (c = "}"%char))) paramName = true →
  break_at "}" (paramName +:+ String "}" rest) = Some (paramName, rest).
Proof.
  induction paramName as [|c n IH]; intros Hall.
  - done.
  - rewrite app_cons. simpl in *.
    apply andb_prop in Hall as [Hc%negb_true_iff Hall].
    rewrite Hc, IH by done. done.
Qed.

Lemma pieces_fuel_literal (fuel : nat) (prefix rest : string) :
  all_chars ordinary prefix = true →
  pieces_fuel (String.length prefix + fuel) (prefix +:+ rest)
  = map Literal (chars prefix) ++ pieces_fuel fuel rest.
Proof.
  induction prefix as [|c prefix IH]; intros Hall; [done|].
  rewrite app_cons. simpl in *.
  apply andb_prop in Hall as [Hc Hall]. unfold ordinary in Hc.
  case_bool_decide; [done|]. by rewrite IH.
Qed.

Lemma pieces_trailing (prefix paramName : string) :
  all_chars ordinary prefix = true →
  paramName ≠ "" →
  all_chars (λ c, negb (bool_decide (c = "}"%char))) paramName = true →
  pieces (prefix +:+ String "{" (paramName +:+ "}"))
  = map Literal (chars prefix) ++ [Placeholder paramName].
Proof.
  intros Hprefix Hne Hname. unfold pieces. rewrite length_app.
  rewrite pieces_fuel_literal by done. f_equal. simpl.
  rewrite break_at_closing by done. destruct paramName; [done|].
  by destruct (String.length _).
Qed.

Lemma concat_cons (s : string) (l : list string) :
  String.concat "" (s :: l) = s +:+ String.concat "" l.
Proof. destruct l; simpl; [by rewrite app_nil_r|done]. Qed.

Lemma concat_literal (l : list ascii) (tail : list Piece) :
  String.concat ""
    (map (λ p, match p with
               | Literal c => String c ""
               | Placeholder _ => "(.+)"
               end) (map Literal l ++ tail))
  = String.string_of_list_ascii l
    +:+ String.concat ""
          (map (λ p, match p with
                     | Literal c => String c ""
                     | Placeholder _ => "(.+)"
                     end) tail).
Proof.
  induction l as [|c l IH]; [done|].
  cbn [map app String.string_of_list_ascii]. by rewrite concat_cons, IH.
Qed.

Lemma regexPattern_trailing (prefix paramName : string) :
  all_chars ordinary prefix = true →
  paramName ≠ "" →
  all_chars (λ c, negb (bool_decide (c = "}"%char))) paramName = true →
  regexPattern (prefix +:+ String "{" (paramName +:+ "}")) = prefix +:+ "(.+)"
  ∧ paramNames (prefix +:+ String "{" (paramName +:+ "}")) = [paramName].
Proof.
  intros Hprefix Hne Hname. unfold regexPattern, paramNames.
  rewrite pieces_trailing by done. split.
  - rewrite concat_literal. unfold chars. by rewrite String.string_of_list_ascii_of_string.
  - induction (chars prefix) as [|c l IH]; [done|]. simpl. apply IH.
Qed.

Lemma compile_fuel_literal (fuel : nat) (prefix rest : string) :
  all_chars ordinary prefix = true →
  compile_fuel (String.length prefix + fuel) (prefix +:+ rest)
  = (map Char (chars prefix) ++.) <$> compile_fuel fuel rest.
Proof.
  induction prefix as [|c prefix IH]; intros Hall.
  - rewrite app_nil_l. simpl. by destruct (compile_fuel fuel rest).
  - rewrite app_cons. simpl in *.
    apply andb_prop in Hall as [Hc Hall]. unfold ordinary in Hc.
    repeat (case_bool_decide; [done|]).
    destruct (is_syntax_character c); [by rewrite !andb_false_r in Hc|].
    rewrite IH by done. by destruct (compile_fuel fuel rest).
Qed.

Lemma compile_trailing (prefix : string) :
  all_chars ordinary prefix = true →
  compile (prefix +:+ "(.+)") = Some (map Char (chars prefix) ++ [Group]).
Proof.
  intros Hprefix. unfold compile. rewrite length_app.
  by rewrite compile_fuel_literal.
Qed.

Lemma exec_literal (prefix s : string) (items : list Item) :
  exec (map Char (chars prefix) ++ items) (prefix +:+ s) = exec items s.
Proof.
  induction prefix as [|c prefix IH]; [done|].
  rewrite app_cons. simpl. by rewrite bool_decide_eq_true_2.
Qed.

Lemma greedy_all (value : string) :
  value ≠ "" →
  all_chars (λ c, negb (is_line_terminator c)) value = true →
  greedy (exec []) value = Some (value, []).
Proof.
  induction value as [|c value IH]; [done|]. intros _ Hall. simpl in *.
  apply andb_prop in Hall as [Hc%negb_true_iff Hall]. rewrite Hc.
  destruct value as [|c' value]; [done|]. by rewrite IH.
Qed.



(** A dot of the template is a dot of the pattern: it matches any
    character. *)
Example template_dot_matches_any :
  matchesUriTemplate "res://file/axtxt" "res://file/a.txt" = Some true.
Proof. reflexivity. Qed.

End ConnectorFacts.

(** ** The two queues *)

Module QueueFacts.
Import McpUtils.



End QueueFacts.

(** ** Step updates *)

Module StepUpdatesFacts.
Import McpUtils HostBridge StepUpdates.

Lemma get_obj_cons (k k' : string) (v : Value) (fields : list (string * Value)) :
  get (obj ((k, v) :: fields)) k' = if decide (k = k') then v else get (obj fields) k'.
Proof.
  unfold get, obj. simpl. destruct (decide (k = k')) as [->|Hne].
  - by rewrite lookup_insert_eq.
  - by rewrite lookup_insert_ne.
Qed.

Lemma get_obj_nil (k : string) : get (obj []) k = VUndefined.
Proof. done. Qed.

Ltac get_obj :=
  repeat (rewrite get_obj_cons;
          first [rewrite decide_True by done|rewrite decide_False by done]);
  rewrite ?get_obj_nil.

Lemma get_toolParams (toolName : Value) (k : string) (v : Value) :
  k ≠ "tool" →
  get (toolParams toolName k v) k = v
  ∧ get (get (toolParams toolName k v) "tool") "name" = toolName.
Proof.
  intros Hk. unfold toolParams. rewrite !get_obj_cons.
  rewrite decide_False, !decide_True by done. by rewrite get_obj_cons, decide_True.
Qed.

Section WithJson.
Context `{JsonParser}.

Definition valid (n : Notification) : Prop :=
  validateToolParams (params n) (kind_of (method n)) = true.

Lemma progressOf_valid (stepUpdate toolName : Value) :
  Forall valid (progressOf stepUpdate toolName).
Proof.
  unfold progressOf.
  destruct (truthy (get stepUpdate "stepToolProgress")); [|destruct (_ && _)];
    [apply Forall_singleton..|apply Forall_nil_2];
    unfold valid; cbn [method params];
    (apply HostBridgeFacts.validateToolParams_arguments; [by vm_compute|]);
    rewrite (proj1 (get_toolParams _ "arguments" _ ltac:(done))); simpl;
    apply insert_non_empty.
Qed.

Lemma inputOf_valid (stepUpdate toolName : Value) :
  Forall valid (inputOf stepUpdate toolName).
Proof.
  unfold inputOf. destruct (_ && truthy _); [|apply Forall_nil_2].
  destruct (_ && bool_decide _) eqn:Hargs; [apply Forall_singleton|apply Forall_nil_2].
  unfold valid. cbn [method params].
  apply HostBridgeFacts.validateToolParams_arguments; [by vm_compute|].
  rewrite (proj1 (get_toolParams _ "arguments" _ ltac:(done))).
  by apply HostBridgeFacts.nonempty_object_spec.
Qed.

Lemma resultOf_valid (stepUpdate toolName : Value) :
  Forall valid (resultOf stepUpdate toolName).
Proof.
  unfold resultOf. destruct (_ && _) eqn:Hresult; [apply Forall_singleton|apply Forall_nil_2].
  unfold valid. cbn [method params].
  apply HostBridgeFacts.validateToolParams_result.
  rewrite (proj1 (get_toolParams _ "result" _ ltac:(done))).
  by apply HostBridgeFacts.nonempty_result_spec.
Qed.

Definition toolNameOf (stepUpdate : Value) : Value :=
  or_else (get stepUpdate "stepToolName") (get stepUpdate "toolName").

Lemma processStepUpdate_blocks (stepUpdate : Value) (ns : list Notification) :
  processStepUpdate stepUpdate = Normal ns →
  ns = if truthy (toolNameOf stepUpdate)
       then progressOf stepUpdate (toolNameOf stepUpdate)
            ++ inputOf stepUpdate (toolNameOf stepUpdate)
            ++ resultOf stepUpdate (toolNameOf stepUpdate)
       else [].
Proof.
  unfold processStepUpdate. fold (toolNameOf stepUpdate). intros Hns.
  assert ((if negb (truthy (toolNameOf stepUpdate)) then Normal []
           else Normal (progressOf stepUpdate (toolNameOf stepUpdate)
                        ++ inputOf stepUpdate (toolNameOf stepUpdate)
                        ++ resultOf stepUpdate (toolNameOf stepUpdate)))
          = Normal ns) as Hbody by (by destruct stepUpdate).
  destruct (truthy (toolNameOf stepUpdate)); simpl in Hbody; congruence.
Qed.

Lemma blocks_valid (stepUpdate toolName : Value) :
  Forall valid (progressOf stepUpdate toolName
                ++ inputOf stepUpdate toolName ++ resultOf stepUpdate toolName).
Proof.
  rewrite !Forall_app.
  split_and!; [apply progressOf_valid|apply inputOf_valid|apply resultOf_valid].
Qed.

(** X1. Every notification [processStepUpdate] returns passes the
    validation of [sendToolNotification] for the kind its method has: the
    bridge drops none of them. *)
Theorem processStepUpdate_valid (stepUpdate : Value) (ns : list Notification) :
  processStepUpdate stepUpdate = Normal ns →
  Forall (λ n, validateToolParams (params n) (kind_of (method n)) = true) ns.
Proof.
  intros ->%processStepUpdate_blocks.
  destruct (truthy (toolNameOf stepUpdate)); [|apply Forall_nil_2].
  apply blocks_valid.
Qed.

(** X2. A step update gives at most one tool-input-partial, one
    tool-input and one tool-result notification, in this order, each
    naming the tool [stepToolName || toolName]; without a tool name it
    gives none. *)
Theorem processStepUpdate_shape (stepUpdate : Value) (ns : list Notification) :
  processStepUpdate stepUpdate = Normal ns →
  sublist (map method ns)
    ["ui/notifications/tool-input-partial"; "ui/notifications/tool-input";
     "ui/notifications/tool-result"]
  ∧ Forall (λ n, get (get (params n) "tool") "name" = toolNameOf stepUpdate) ns
  ∧ (truthy (toolNameOf stepUpdate) = false → ns = []).
Proof.
  intros ->%processStepUpdate_blocks.
  destruct (truthy (toolNameOf stepUpdate)); [|by split_and!; [apply sublist_nil_l|..]].
  split_and!; [| |done].
  - rewrite !map_app.
    apply (sublist_app _ [_]); [|apply (sublist_app _ [_] _ [_])].
    + unfold progressOf. destruct (truthy _); [done|].
      destruct (_ && _); [done|apply sublist_nil_l].
    + unfold inputOf. destruct (_ && truthy _); [|apply sublist_nil_l].
      destruct (_ && bool_decide _); [done|apply sublist_nil_l].
    + unfold resultOf. destruct (_ && _); [done|apply sublist_nil_l].
  - rewrite !Forall_app. split_and!.
    + unfold progressOf. destruct (truthy _); [|destruct (_ && _)];
        [apply Forall_singleton..|apply Forall_nil_2];
        apply (get_toolParams _ "arguments"); done.
    + unfold inputOf. destruct (_ && truthy _); [|apply Forall_nil_2].
      destruct (_ && bool_decide _); [apply Forall_singleton|apply Forall_nil_2].
      apply (get_toolParams _ "arguments"); done.
    + unfold resultOf. destruct (_ && _); [apply Forall_singleton|apply Forall_nil_2].
      apply (get_toolParams _ "result"); done.
Qed.

Lemma send_all_ready (ns : list Notification) (b : Bridge) :
  Forall valid ns → iframeStateRef b = ready → contentWindow b = true →
  let b' := foldl (λ b n, sendToolNotification (method n) (params n) b) b ns in
  posted b' = posted b ++ map replay ns
  ∧ pendingNotifications b' = pendingNotifications b.
Proof.
  intros Hvalid. revert b. induction Hvalid as [|[m ps] ns Hn _ IH]; intros b Hr Hw; simpl.
  - by rewrite app_nil_r.
  - rewrite HostBridgeFacts.sendToolNotification_posts by done.
    destruct (IH (postMessage (PostNotification m ps) b) Hr Hw) as [-> ->].
    simpl. by rewrite <-app_assoc.
Qed.

Lemma send_all_waiting (ns : list Notification) (b : Bridge) :
  Forall valid ns → iframeStateRef b ≠ ready ∨ contentWindow b = false →
  let b' := foldl (λ b n, sendToolNotification (method n) (params n) b) b ns in
  posted b' = posted b
  ∧ pendingNotifications b' = pendingNotifications b ++ ns.
Proof.
  intros Hvalid. revert b. induction Hvalid as [|[m ps] ns Hn _ IH]; intros b Hnot; simpl.
  - by rewrite app_nil_r.
  - destruct (HostBridgeFacts.sendToolNotification_waits m ps b Hn Hnot) as [Hp Hq].
    destruct (IH (sendToolNotification m ps b)) as [-> ->].
    + unfold sendToolNotification. unfold valid in Hn. simpl in Hn. rewrite Hn. simpl.
      destruct Hnot as [Hs|Hw].
      * rewrite bool_decide_eq_false_2 by done. by left.
      * rewrite Hw, andb_false_r. by right.
    + by rewrite Hp, Hq, <-app_assoc.
Qed.

(** X3. [sendStepUpdate] hands over all the notifications of the step
    update, in order: a ready bridge posts them, a bridge that is not
    ready (or has no window) queues them; none is dropped. *)
Theorem sendStepUpdate_sends_all (stepUpdate : Value) (ns : list Notification)
    (b : Bridge) :
  processStepUpdate stepUpdate = Normal ns →
  ∃ b', sendStepUpdate stepUpdate b = Normal b'
    ∧ (iframeStateRef b = ready → contentWindow b = true →
       posted b' = posted b ++ map replay ns
       ∧ pendingNotifications b' = pendingNotifications b)
    ∧ (iframeStateRef b ≠ ready ∨ contentWindow b = false →
       posted b' = posted b
       ∧ pendingNotifications b' = pendingNotifications b ++ ns).
Proof.
  intros Hns. unfold sendStepUpdate. rewrite Hns. eexists. split; [done|].
  assert (Forall valid ns) as Hvalid.
  { apply processStepUpdate_blocks in Hns as ->.
    destruct (truthy (toolNameOf stepUpdate)); [apply blocks_valid|apply Forall_nil_2]. }
  split.
  - intros Hr Hw. by apply send_all_ready.
  - intros Hnot. by apply send_all_waiting.
Qed.

Lemma get_partialStepUpdate (toolName : string) (data : Value) :
  let u := ChatProvider.partialStepUpdate toolName data in
  let isProgressUpdate := is_string "botdojo-tool-progress" (get data "kind") in
  get u "stepToolName" = VStr toolName
  ∧ get u "toolName" = VStr toolName
  ∧ get u "stepToolProgress" = (if isProgressUpdate then data else VUndefined)
  ∧ get u "toolPhase" = VUndefined
  ∧ get u "stepToolResult" = VUndefined.
Proof.
  intros u isProgressUpdate. subst u. unfold ChatProvider.partialStepUpdate.
  split_and!; by get_obj.
Qed.

Lemma get_resultStepUpdate (toolName : string) (data : Value) :
  let u := ChatProvider.resultStepUpdate toolName data in
  get u "stepToolName" = VStr toolName
  ∧ get u "toolName" = VStr toolName
  ∧ get u "stepToolProgress" = VUndefined
  ∧ get u "toolPhase" = VUndefined
  ∧ get u "stepToolResult" = nullish_else (get data "result") data.
Proof.
  intros u. subst u. unfold ChatProvider.resultStepUpdate.
  split_and!; by get_obj.
Qed.

(** X4. What the app sees of the calls a tool makes during
    [executeToolCall]: a [notifyToolInputPartial] whose data is not a
    progress update ([kind: 'botdojo-tool-progress']) becomes a step
    update from which [processStepUpdate] draws no notification at all; a
    progress update becomes one tool-input-partial with the data and
    [_botdojoProgress]; a result becomes one tool-result, unless it
    parses to [undefined] or the empty string. *)
Theorem tool_calls_as_notifications :
  (∀ toolName data,
     is_string "botdojo-tool-progress" (get data "kind") = false →
     processStepUpdate (ChatProvider.partialStepUpdate toolName data) = Normal [])
  ∧ (∀ toolName data,
       toolName ≠ "" →
       is_string "botdojo-tool-progress" (get data "kind") = true →
       processStepUpdate (ChatProvider.partialStepUpdate toolName data)
       = Normal [{| method := "ui/notifications/tool-input-partial";
                    params := toolParams (VStr toolName) "arguments"
                                (VObj (<["_botdojoProgress" := VBool true]>
                                         (spread data))) |}])
  ∧ (∀ toolName data,
       toolName ≠ "" →
       let result := returned (parseMaybeJson (nullish_else (get data "result") data)) in
       processStepUpdate (ChatProvider.resultStepUpdate toolName data)
       = Normal (if decide (HostBridgeFacts.nonempty_result result)
                 then [{| method := "ui/notifications/tool-result";
                          params := toolParams (VStr toolName) "result" result |}]
                 else [])).
Proof.
  split_and!.
  - intros toolName data Hkind.
    destruct (get_partialStepUpdate toolName data) as (Hn & Hn' & Hp & Hphase & Hr).
    rewrite Hkind in Hp.
    unfold processStepUpdate, progressOf, inputOf, resultOf.
    rewrite Hn, Hn', Hp, Hphase, Hr. unfold ChatProvider.partialStepUpdate, obj.
    unfold or_else. simpl. by destruct (negb (truthy _)).
  - intros toolName data Hname Hkind.
    destruct (get_partialStepUpdate toolName data) as (Hn & Hn' & Hp & Hphase & Hr).
    rewrite Hkind in Hp.
    assert (truthy data = true) as Hdata by (by destruct data).
    unfold processStepUpdate, progressOf, inputOf, resultOf.
    rewrite Hn, Hn', Hp, Hphase, Hr, Hdata. unfold ChatProvider.partialStepUpdate, obj.
    unfold or_else. simpl. by repeat (rewrite bool_decide_eq_false_2 by done; simpl).
  - intros toolName data Hname result.
    destruct (get_resultStepUpdate toolName data) as (Hn & Hn' & Hp & Hphase & Hr).
    unfold processStepUpdate, progressOf, inputOf, resultOf.
    rewrite Hn, Hn', Hp, Hphase, Hr. unfold ChatProvider.resultStepUpdate, obj.
    unfold or_else. simpl. repeat (rewrite bool_decide_eq_false_2 by done; simpl).
    fold result. destruct (decide (HostBridgeFacts.nonempty_result result)) as [Hres|Hres].
    + by rewrite (proj2 (HostBridgeFacts.nonempty_result_spec result) Hres).
    + rewrite <-HostBridgeFacts.nonempty_result_spec in Hres.
      by apply not_true_is_false in Hres as ->.
Qed.

End WithJson.

(** X5. Two URLs have the same content key exactly when they are the
    same URL or are both missing or empty. *)
Theorem getContentKey_same (u v : option string) :
  let blank url := url = None ∨ url = Some "" in
  getContentKey u = getContentKey v ↔ (blank u ∧ blank v) ∨ u = v.
Proof.
  intros blank. unfold getContentKey, blank.
  destruct u as [u|], v as [v|]; repeat case_bool_decide; subst;
    split; try (intros [= ->]); try done; try naive_solver.
Qed.

(** A step of tool "search" that is executing, with its arguments and a
    result that is no JSON text. *)
Definition search_update : Value :=
  obj [("stepToolName", VStr "search"); ("toolPhase", VStr "executing");
       ("stepToolArguments", obj [("q", VStr "x")]);
       ("stepToolResult", VStr "done")].

Definition search_notifications : list Notification :=
  [{| method := "ui/notifications/tool-input";
      params := toolParams (VStr "search") "arguments" (obj [("q", VStr "x")]) |};
   {| method := "ui/notifications/tool-result";
      params := toolParams (VStr "search") "result" (VStr "done") |}].

Lemma processStepUpdate_valid_witness :
  Forall (λ n, validateToolParams (params n) (kind_of (method n)) = true)
    search_notifications.
Proof.
  apply (processStepUpdate_valid (H := ReferenceJsonFacts.reference_parser)
           search_update).
  vm_compute. reflexivity.
Defined.

Lemma processStepUpdate_shape_witness :
  Forall (λ n, get (get (params n) "tool") "name" = VStr "search")
    search_notifications.
Proof.
  refine (proj1 (proj2 (processStepUpdate_shape
                          (H := ReferenceJsonFacts.reference_parser)
                          search_update search_notifications _))).
  vm_compute. reflexivity.
Defined.

Lemma sendStepUpdate_sends_all_witness :
  ∃ b', sendStepUpdate (H := ReferenceJsonFacts.reference_parser)
          search_update HostBridge.initial = Normal b'
        ∧ posted b' = []
        ∧ pendingNotifications b' = search_notifications.
Proof.
  destruct (sendStepUpdate_sends_all (H := ReferenceJsonFacts.reference_parser)
              search_update search_notifications HostBridge.initial)
    as (b' & Hsent & _ & Hqueued); [vm_compute; reflexivity|].
  exists b'. split; [exact Hsent|]. apply Hqueued. left. discriminate.
Defined.

End StepUpdatesFacts.

(** ** The host bridge: replies, the legacy handshake, retries *)

Module HostBridgeMore.
Import McpUtils HostBridge HostBridgeFacts.

(** The ids of the responses (results and errors) among posted messages. *)
Definition replies (ms : list Posted) : list Value :=
  omap (λ m, match m with
             | PostResult id _ => Some id
             | PostError id _ _ => Some id
             | _ => None
             end) ms.

(** The [ui/initialize] requests among posted messages. *)
Definition is_initialize (m : Posted) : bool :=
  match m with
  | PostRequest _ method _ => bool_decide (method = "ui/initialize")
  | _ => false
  end.

Definition initializes (ms : list Posted) : nat :=
  length (List.filter is_initialize ms).

Section WithProps.
Context `{JsonParser} (props : Props).

(** [b'] has posted what [b] had, then [added]. *)
Definition adds (added : list Posted) (b b' : Bridge) : Prop :=
  posted b' = posted b ++ added.

Lemma adds_nil (b b' : Bridge) : posted b' = posted b → adds [] b b'.
Proof. unfold adds. intros ->. by rewrite app_nil_r. Qed.

Lemma adds_trans (l1 l2 : list Posted) (b1 b2 b3 : Bridge) :
  adds l1 b1 b2 → adds l2 b2 b3 → adds (l1 ++ l2) b1 b3.
Proof. unfold adds. intros H1 H2. by rewrite H2, H1, app_assoc. Qed.

Lemma sendRequest_adds (method : string) (params : Value) (timeout : nat) (b : Bridge) :
  adds (if contentWindow b
        then [PostRequest ("host-" +:+ pretty (S (nextRequestId b))) method params]
        else []) b (sendRequest method params timeout b).
Proof.
  unfold sendRequest, adds. simpl. destruct (contentWindow b); simpl; [done|].
  by rewrite app_nil_r.
Qed.

Lemma sendInitialize_adds (b : Bridge) :
  ∃ added, adds added b (sendInitialize props b)
    ∧ replies added = []
    ∧ initializes added
      = (if bool_decide (iframeStateRef b = ready) || negb (contentWindow b)
         then 0 else 1)
    ∧ (contentWindow b = false → added = []).
Proof.
  unfold sendInitialize.
  destruct (bool_decide (iframeStateRef b = ready) || negb (contentWindow b)) eqn:Hskip.
  - exists []. split; [by apply adds_nil|done].
  - eexists. split; [apply sendRequest_adds|].
    apply orb_false_elim in Hskip as [_ Hw]. apply negb_false_iff in Hw. by rewrite Hw.
Qed.

Lemma replies_app (l1 l2 : list Posted) : replies (l1 ++ l2) = replies l1 ++ replies l2.
Proof. apply omap_app. Qed.

Lemma initializes_app (l1 l2 : list Posted) :
  initializes (l1 ++ l2) = initializes l1 + initializes l2.
Proof. unfold initializes. by rewrite List.filter_app, length_app. Qed.

Lemma replies_replay (q : list Notification) : replies (map replay q) = [].
Proof. by induction q. Qed.

Lemma replies_hydration : replies (hydration props) = [].
Proof.
  unfold hydration. destruct (truthy _); [|done]. rewrite replies_app.
  by repeat case_match.
Qed.

(** What [sendInitialize] leaves alone. *)
Lemma sendInitialize_frame (b : Bridge) :
  let b' := sendInitialize props b in
  initializeAttempts b' = initializeAttempts b
  ∧ iframeStateRef b' = iframeStateRef b
  ∧ contentWindow b' = contentWindow b
  ∧ now b' = now b.
Proof.
  unfold sendInitialize, sendRequest. simpl. by repeat case_match.
Qed.

Lemma attemptSend_spec (b : Bridge) :
  iframeStateRef b ≠ ready →
  let b' := attemptSend props b in
  initializeAttempts b' = S (initializeAttempts b)
  ∧ iframeStateRef b' = iframeStateRef b
  ∧ contentWindow b' = contentWindow b
  ∧ now b' = now b
  ∧ (∃ added, adds added b b' ∧ replies added = []
       ∧ initializes added = (if contentWindow b then 1 else 0)
       ∧ (contentWindow b = false → added = []))
  ∧ (if bool_decide (S (initializeAttempts b) < 5)
     then ∃ h, initializeTimer b' = Some h
               ∧ timers b' !! h = Some {| due := now b + 300; callback := AttemptSend |}
     else initializeTimer b' = None).
Proof.
  intros Hnot b'. subst b'. unfold attemptSend.
  rewrite bool_decide_eq_false_2 by done.
  set (b1 := set_initializeAttempts (S (initializeAttempts b)) b).
  destruct (sendInitialize_frame b1) as (Ha & Hs & Hw & Hn).
  destruct (sendInitialize_adds b1) as (added & Hadds & Hreplies & Hcount & Hnone).
  set (b2 := sendInitialize props b1) in *. simpl in Ha, Hs, Hw, Hn, Hcount.
  rewrite Ha. rewrite bool_decide_eq_false_2 in Hcount by done. simpl in Hcount.
  assert (adds added b (if bool_decide (S (initializeAttempts b) < 5)
                        then set_initializeTimer (Some (nextTimer b2))
                               (setTimeout AttemptSend 300 b2)
                        else set_initializeTimer None b2)) as Hposted.
  { unfold adds in *. by case_bool_decide. }
  case_bool_decide; simpl; split_and!; try done.
  - exists added. split_and!; [done..| |done]. by destruct (contentWindow b).
  - eexists. split; [done|]. by rewrite lookup_insert_eq, Hn.
  - exists added. split_and!; [done..| |done]. by destruct (contentWindow b).
Qed.

(** The retry timer fires, if it is set. *)
Definition fireRetry (b : Bridge) : Bridge :=
  match initializeTimer b with
  | Some h => fire props h b
  | None => b
  end.

Lemma retry_chain (b : Bridge) (k : nat) :
  iframeStateRef b ≠ ready →
  let c := Nat.iter k fireRetry (sendInitializeWithRetry props b) in
  iframeStateRef c ≠ ready
  ∧ contentWindow c = contentWindow b
  ∧ now c = now b
  ∧ initializeAttempts c = S k `min` 5
  ∧ (∃ added, adds added b c ∧ replies added = []
       ∧ initializes added = (if contentWindow b then S k `min` 5 else 0)
       ∧ (contentWindow b = false → added = []))
  ∧ (if bool_decide (k < 4)
     then ∃ h, initializeTimer c = Some h
               ∧ timers c !! h = Some {| due := now b + 300; callback := AttemptSend |}
     else initializeTimer c = None).
Proof.
  intros Hnot. induction k as [|k IH]; simpl.
  - unfold sendInitializeWithRetry. rewrite bool_decide_eq_false_2 by done.
    set (b0 := set_initializeAttempts 0 _).
    assert (iframeStateRef b0 = iframeStateRef b ∧ contentWindow b0 = contentWindow b
            ∧ now b0 = now b ∧ posted b0 = posted b ∧ initializeAttempts b0 = 0)
      as (Hs0 & Hw0 & Hn0 & Hp0 & Ha0) by (subst b0; by destruct (initializeTimer b)).
    destruct (attemptSend_spec b0)
      as (Ha & Hs & Hw & Hn & (added & Hadds & Hr & Hc & Hnone) & Ht); [congruence|].
    rewrite Ha0 in Ha, Ht. rewrite Hn0 in Ht. rewrite Hw0 in Hc, Hnone.
    split_and!; try congruence; [|done].
    exists added. split_and!; try done. unfold adds in *. congruence.
  - destruct IH as (Hs & Hw & Hn & Ha & (added & Hadds & Hr & Hc & Hnone) & Ht).
    set (c := Nat.iter k fireRetry (sendInitializeWithRetry props b)) in *.
    case_bool_decide as Hk.
    + destruct Ht as (h & Hit & Hh).
      assert (fireRetry c = attemptSend props (clearTimeout h c)) as ->
        by (unfold fireRetry, fire; by rewrite Hit, Hh).
      destruct (attemptSend_spec (clearTimeout h c))
        as (Ha' & Hs' & Hw' & Hn' & (added' & Hadds' & Hr' & Hc' & Hnone') & Ht');
        [done|].
      simpl in Ha', Hs', Hw', Hn', Hc', Ht', Hnone'. rewrite Ha in Ha', Ht'.
      rewrite Hn in Ht'. rewrite Hw in Hc', Hnone'.
      split_and!; try congruence; [lia| |].
      * exists (added ++ added'). split_and!.
        -- eapply adds_trans; [done|]. unfold adds in *. by simpl in Hadds'.
        -- by rewrite replies_app, Hr, Hr'.
        -- rewrite initializes_app, Hc, Hc'. destruct (contentWindow b); lia.
        -- intros Hno. by rewrite Hnone, Hnone'.
      * repeat case_bool_decide; (done || lia).
    + assert (fireRetry c = c) as -> by (unfold fireRetry; by rewrite Ht).
      rewrite Ht. rewrite bool_decide_eq_false_2 by lia.
      split_and!; try done; [lia|].
      exists added. split_and!; try done. rewrite Hc. destruct (contentWindow b); lia.
Qed.

(** X6. One handshake makes five attempts at most.  After
    [sendInitializeWithRetry] and [k] firings of the retry timer the
    bridge has made [min (k+1) 5] attempts, each posting one
    [ui/initialize] request if the iframe has a window; a retry is due
    300 ms after the attempt before it, and after the fifth attempt no
    retry timer is left. *)
Theorem initialize_retries_stop (b : Bridge) (k : nat) :
  iframeStateRef b ≠ ready →
  let c := Nat.iter k fireRetry (sendInitializeWithRetry props b) in
  initializeAttempts c = S k `min` 5
  ∧ (∃ added, posted c = posted b ++ added
       ∧ initializes added = (if contentWindow b then S k `min` 5 else 0)
       ∧ replies added = [])
  ∧ (k < 4 → ∃ h, initializeTimer c = Some h
                  ∧ timers c !! h
                    = Some {| due := now b + 300; callback := AttemptSend |})
  ∧ (4 ≤ k → initializeTimer c = None ∧ fireRetry c = c).
Proof.
  intros Hnot c.
  destruct (retry_chain b k Hnot)
    as (_ & _ & _ & Ha & (added & Hadds & Hr & Hc & _) & Ht).
  fold c in Ha, Hadds, Ht. split_and!; [done|by exists added|..].
  - intros Hk. by rewrite bool_decide_eq_true_2 in Ht.
  - intros Hk. rewrite bool_decide_eq_false_2 in Ht by lia.
    split; [done|]. unfold fireRetry. by rewrite Ht.
Qed.

Lemma handleMessage_legacy (data : Value) (b : Bridge) :
  get data "jsonrpc" = VStr "2.0" →
  get data "method" = VStr "ui/initialize" →
  handleMessage props data b = Some (handleLegacyInitialize props (get data "id") b).
Proof.
  intros Hrpc Hmethod. unfold handleMessage.
  destruct data as [| | | | | |fields]; try done.
  rewrite Hrpc, Hmethod.
  assert (has "method" (VObj fields) = true) as ->.
  { unfold get in Hmethod. simpl. apply bool_decide_eq_true.
    destruct (fields !! "method"); [by eexists|done]. }
  by rewrite andb_false_r.
Qed.

Lemma handleLegacyInitialize_spec (id : Value) (b : Bridge) :
  contentWindow b = true →
  let b' := handleLegacyInitialize props id b in
  (∃ result, posted b' = posted b ++ [PostResult id result;
                                     PostNotification "ui/notifications/initialized"
                                       (obj [])])
  ∧ iframeState b' = ready
  ∧ contentWindow b' = true
  ∧ pendingNotifications b' = pendingNotifications b.
Proof.
  intros Hw b'. subst b'. unfold handleLegacyInitialize, sendResponse, sendNotification.
  rewrite Hw. simpl. rewrite Hw. simpl.
  unfold cancelInitializeTimer. simpl.
  destruct (initializeTimer b); simpl; rewrite <-app_assoc; by eauto.
Qed.

(** X7. The legacy handshake (the app sends [ui/initialize] as a
    request) makes the bridge ready without hydration and without
    flushing: the response and [ui/notifications/initialized] are all it
    posts, the queued notifications stay queued, and a notification sent
    after the next render is posted ahead of them. *)
Theorem legacy_initialize_skips_queue (data : Value) (b : Bridge) :
  contentWindow b = true →
  get data "jsonrpc" = VStr "2.0" →
  get data "method" = VStr "ui/initialize" →
  ∃ b' result,
    handleMessage props data b = Some b'
    ∧ posted b' = posted b ++ [PostResult (get data "id") result;
                              PostNotification "ui/notifications/initialized" (obj [])]
    ∧ iframeState b' = ready
    ∧ pendingNotifications b' = pendingNotifications b
    ∧ ∀ method params,
        validateToolParams params (kind_of method) = true →
        let b'' := sendToolNotification method params (render props b') in
        posted b'' = posted b' ++ [PostNotification method params]
        ∧ pendingNotifications b'' = pendingNotifications b.
Proof.
  intros Hw Hrpc Hmethod.
  destruct (handleLegacyInitialize_spec (get data "id") b Hw)
    as ((result & Hposted) & Hstate & Hw' & Hqueue).
  exists (handleLegacyInitialize props (get data "id") b), result.
  split_and!; [by apply handleMessage_legacy|done..|].
  intros method params Hvalid b''. subst b''.
  destruct (render_ready props _ Hstate) as (Hr & _ & Hrp & Hrq & Hrw).
  rewrite sendToolNotification_posts by congruence.
  unfold postMessage, set_posted. cbn [posted pendingNotifications].
  by rewrite Hrp, Hrq, Hqueue.
Qed.

(** [b'] has posted what [b] had and then at most one response, to
    [id]; and nothing at all if the iframe has no window. *)
Definition answers (id : Value) (b b' : Bridge) : Prop :=
  ∃ added, adds added b b'
    ∧ (replies added = [] ∨ replies added = [id])
    ∧ (contentWindow b = false → added = []).

Lemma answers_refl (id : Value) (b b' : Bridge) :
  posted b' = posted b → answers id b b'.
Proof. intros Hp. exists []. split_and!; [by apply adds_nil|by left|done]. Qed.

Lemma sendInitializeWithRetry_answers (id : Value) (b : Bridge) :
  answers id b (sendInitializeWithRetry props b).
Proof.
  destruct (decide (iframeStateRef b = ready)) as [Hr|Hnot].
  - apply answers_refl. unfold sendInitializeWithRetry. by rewrite bool_decide_eq_true_2.
  - destruct (retry_chain b 0 Hnot) as (_ & _ & _ & _ & (added & Hadds & Hr & _ & Hnone) & _).
    exists added. split_and!; [done|by left|done].
Qed.

Lemma sendNotification_answers (id : Value) (method : string) (params : Value)
    (b : Bridge) :
  answers id b (sendNotification method params b).
Proof.
  unfold sendNotification. destruct (contentWindow b) eqn:Hw; simpl.
  - exists [PostNotification method params]. split_and!; [done|by left|by rewrite Hw].
  - by apply answers_refl.
Qed.

Lemma sendResponse_answers (id result : Value) (b : Bridge) :
  answers id b (sendResponse id result b).
Proof.
  unfold sendResponse. destruct (contentWindow b) eqn:Hw; simpl.
  - exists [PostResult id result]. split_and!; [done|by right|by rewrite Hw].
  - by apply answers_refl.
Qed.

Lemma handleInitialized_answers (id : Value) (b : Bridge) :
  answers id b (handleInitialized props b).
Proof.
  destruct (contentWindow b) eqn:Hw.
  - destruct (handleInitialized_spec props b Hw) as (_ & _ & _ & Hp & _).
    eexists. split_and!; [exact Hp| |by rewrite Hw].
    left. by rewrite replies_app, replies_hydration, replies_replay.
  - apply answers_refl. unfold handleInitialized.
    destruct (cancelInitializeTimer_spec b) as (_ & _ & Hp & _ & Hcw & _).
    rewrite sendHydrationData_no_window by (simpl; congruence).
    simpl. by rewrite Hcw, Hw, andb_false_r.
Qed.

Lemma handleLegacyInitialize_answers (id : Value) (b : Bridge) :
  answers id b (handleLegacyInitialize props id b).
Proof.
  destruct (contentWindow b) eqn:Hw.
  - destruct (handleLegacyInitialize_spec id b Hw) as ((result & Hp) & _).
    eexists. split_and!; [exact Hp|by right|by rewrite Hw].
  - apply answers_refl. unfold handleLegacyInitialize, sendResponse, sendNotification.
    rewrite Hw. simpl. rewrite Hw. simpl.
    by destruct (cancelInitializeTimer_spec b) as (_ & _ & -> & _).
Qed.

Lemma handleResponse_posted (data : Value) (b : Bridge) :
  posted (handleResponse data b) = posted b.
Proof. unfold handleResponse. by repeat case_match. Qed.



End WithProps.

(** *** The theorems at work *)

#[local] Existing Instance ReferenceJsonFacts.reference_parser.

Lemma initialize_retries_stop_witness :
  let c := Nat.iter 7 (fireRetry (search_props true))
             (sendInitializeWithRetry (search_props true)
                (set_contentWindow true HostBridge.initial)) in
  initializeAttempts c = 5 ∧ initializes (posted c) = 5 ∧ initializeTimer c = None.
Proof.
  intros c.
  destruct (initialize_retries_stop (search_props true)
              (set_contentWindow true HostBridge.initial) 7)
    as (Hattempts & (added & Hposted & Hcount & _) & _ & Hstop); [discriminate|].
  fold c in Hattempts, Hposted, Hstop.
  split_and!; [exact Hattempts| |apply Hstop; lia].
  rewrite Hposted. exact Hcount.
Defined.

Definition legacy_request : Value :=
  obj [("jsonrpc", VStr "2.0"); ("id", VNum 1); ("method", VStr "ui/initialize")].

Lemma legacy_initialize_skips_queue_witness :
  ∃ b', handleMessage (search_props true) legacy_request
          (sendToolNotification "ui/notifications/tool-result"
             (obj [("result", VStr "early")]) loaded) = Some b'
        ∧ iframeState b' = ready
        ∧ pendingNotifications b'
          = [{| method := "ui/notifications/tool-result";
                params := obj [("result", VStr "early")] |}].
Proof.
  destruct (legacy_initialize_skips_queue (search_props true) legacy_request
              (sendToolNotification "ui/notifications/tool-result"
                 (obj [("result", VStr "early")]) loaded))
    as (b' & result & Hhandled & _ & Hready & Hqueue & _);
    [vm_compute; reflexivity..|].
  exists b'. split_and!; [exact Hhandled|exact Hready|].
  rewrite Hqueue. vm_compute. reflexivity.
Defined.

Definition ping : Value :=
  obj [("jsonrpc", VStr "2.0"); ("id", VNum 7); ("method", VStr "ping")].


(** The request [host-1] of the first attempt is pending in [loaded]. *)
Definition first_response : Value :=
  obj [("jsonrpc", VStr "2.0"); ("id", VStr "host-1"); ("result", obj [])].


End HostBridgeMore.

(** ** The provider: conservation, broadcasts, failures, step routing *)

Module ChatProviderMore.
Import McpUtils ChatProvider ChatProviderFacts.

(** The notifications a sequence of calls sends to [appId]. *)
Fixpoint sent_to (appId : string) (cs : list Call) : list Notification :=
  match cs with
  | [] => []
  | SendTo a m ps :: cs =>
      if decide (a = appId) then {| method := m; params := ps |} :: sent_to appId cs
      else sent_to appId cs
  | _ :: cs => sent_to appId cs
  end.

Lemma sent_to_app (appId : string) (cs cs' : list Call) :
  sent_to appId (cs ++ cs') = sent_to appId cs ++ sent_to appId cs'.
Proof.
  induction cs as [|c cs IH]; [done|]. destruct c; simpl; try done.
  case_decide; simpl; by rewrite IH.
Qed.

(** What one call without broadcast keeps: an app's notifications are
    those received and then those queued, and a registered app has no
    queue. *)
Definition conserved (appId : string) (sent : list Notification) (p : Provider) : Prop :=
  received appId p ++ queued appId p = sent
  ∧ (appId ∈ toolNotificationSenders p → queued appId p = [])
  ∧ pendingBroadcastNotifications p = [].

Lemma call_conserved (appId : string) (sent : list Notification) (c : Call)
    (p : Provider) :
  ¬ is_broadcast c →
  conserved appId sent p →
  conserved appId (sent ++ sent_to appId [c]) (call c p).
Proof.
  intros Hc (Hsent & Hreg & Hb). unfold conserved.
  destruct c as [a|a|a m ps|m ps tn]; simpl.
  - destruct (registerToolNotificationSender_spec a p) as (Hr & Hq & Hb' & Hs & Ho).
    rewrite Hb in Hr. simpl in Hr. rewrite !app_nil_r in *.
    destruct (decide (a = appId)) as [->|Hne].
    + split_and!; [|done..]. by rewrite Hr, Hq, app_nil_r.
    + destruct (Ho appId) as [Hr' Hq']; [done|]. rewrite Hr', Hq'.
      split_and!; [done| |done]. rewrite Hs. intros Hin. apply Hreg. set_solver.
  - rewrite app_nil_r. split_and!; [done| |done].
    intros Hin. apply Hreg. set_solver.
  - unfold sendToolNotificationToApp. case_bool_decide as Hin.
    + unfold conserved, queued. simpl. fold (queued appId p).
      rewrite received_callSender.
      destruct (decide (a = appId)) as [->|Hne]; simpl.
      * rewrite Hreg in * by done. rewrite !app_nil_r in *. by rewrite Hsent.
      * by rewrite app_nil_r.
    + unfold conserved, queued, received. simpl. rewrite push_lookup.
      fold (queued a p) (queued appId p) (received appId p).
      destruct (decide (a = appId)) as [->|Hne]; simpl.
      * by rewrite app_assoc, Hsent.
      * by rewrite app_nil_r.
  - by destruct Hc.
Qed.

Lemma calls_conserved (appId : string) (cs : list Call) (sent : list Notification)
    (p : Provider) :
  Forall (λ c, ¬ is_broadcast c) cs →
  conserved appId sent p →
  conserved appId (sent ++ sent_to appId cs) (foldl (λ p c, call c p) p cs).
Proof.
  intros Hcs. revert sent p. induction Hcs as [|c cs Hc _ IH]; intros sent p Hp.
  - simpl. by rewrite app_nil_r.
  - change (c :: cs) with ([c] ++ cs) at 1. rewrite sent_to_app, app_assoc.
    simpl. apply IH. by apply call_conserved.
Qed.

(** X10. Over any sequence of registrations, unregistrations and
    targeted sends (no broadcast), starting from the empty registry, no
    notification is lost, duplicated or reordered: what an app's sender
    has received, followed by what is queued for it, is exactly what was
    sent to it, in order; and nothing is queued for a registered app. *)
Theorem notifications_conserved (cs : list Call) (appId : string) :
  Forall (λ c, ¬ is_broadcast c) cs →
  let p := foldl (λ p c, call c p) initial cs in
  received appId p ++ queued appId p = sent_to appId cs
  ∧ (appId ∈ toolNotificationSenders p → queued appId p = []).
Proof.
  intros Hcs p.
  destruct (calls_conserved appId cs [] initial Hcs) as (Hsent & Hreg & _); [done|].
  by split.
Qed.

Lemma callSender_everyone (n : Notification) (X : gset string) (p : Provider) :
  let p' := set_fold (λ appId p, callSender appId n p) p X in
  same_registry p p'
  ∧ ∀ appId, received appId p'
             = if decide (appId ∈ X) then received appId p ++ [n] else received appId p.
Proof.
  intros p'. subst p'. revert X.
  apply (set_fold_ind_L
           (λ r (Y : gset string),
              same_registry p r
              ∧ ∀ appId, received appId r
                         = if decide (appId ∈ Y) then received appId p ++ [n]
                           else received appId p)).
  - done.
  - intros x Y r Hx (Hsame & Hr). split; [done|].
    intros appId. rewrite received_callSender, !Hr.
    destruct (decide (x = appId)) as [->|Hne].
    + rewrite decide_False by done. by rewrite decide_True by set_solver.
    + destruct (decide (appId ∈ Y)).
      * by rewrite decide_True by set_solver.
      * by rewrite decide_False by set_solver.
Qed.

(** X11. A broadcast sent while some app is registered goes to every
    registered app, once, and is not queued: an app that registers later
    never receives it. *)
Theorem broadcast_misses_late_apps (m : string) (ps toolName : Value) (p : Provider) :
  toolNotificationSenders p ≠ ∅ →
  let n := {| method := m; params := ps |} in
  let p' := broadcastToolNotification m ps toolName p in
  (∀ appId, received appId p'
            = if decide (appId ∈ toolNotificationSenders p)
              then received appId p ++ [n] else received appId p)
  ∧ pendingBroadcastNotifications p' = pendingBroadcastNotifications p
  ∧ (∀ appId, queued appId p' = queued appId p)
  ∧ ∀ late, late ∉ toolNotificationSenders p →
      received late (registerToolNotificationSender late p')
      = received late (registerToolNotificationSender late p).
Proof.
  intros Hsome n p'. subst p'. unfold broadcastToolNotification.
  rewrite bool_decide_eq_false_2 by (by intros ?%size_empty_inv%leibniz_equiv).
  destruct (callSender_everyone n (toolNotificationSenders p) p)
    as ((Hs & Hq & Hb) & Hr).
  set (p' := set_fold _ p _) in *.
  split_and!; [done|done|by intros appId; unfold queued; rewrite Hq|].
  intros late Hlate.
  destruct (registerToolNotificationSender_spec late p') as (-> & _).
  destruct (registerToolNotificationSender_spec late p) as (-> & _).
  unfold queued. rewrite Hq, Hb, Hr. by rewrite decide_False.
Qed.

Lemma held_routed (appId : string) (us : list Value) (p : Provider) :
  appId ≠ "" → appId ∉ stepUpdateCallbacks p →
  let p' := foldl (λ p u, routeStepUpdate (Some appId) u p) p us in
  held appId p' = held appId p ++ us
  ∧ delivered appId p' = delivered appId p
  ∧ ∀ other, other ≠ appId →
      held other p' = held other p ∧ delivered other p' = delivered other p.
Proof.
  intros Hne Hout p'.
  destruct (routeStepUpdate_all (Some appId) us p) as [Hc Hr]. fold p' in Hc, Hr.
  assert (present (Some appId) = true) as Hp
    by (simpl; by rewrite bool_decide_eq_false_2).
  split_and!.
  - specialize (Hr appId). rewrite Hp, decide_True, decide_False in Hr by done.
    by destruct Hr.
  - specialize (Hr appId). rewrite Hp, decide_True, decide_False in Hr by done.
    by destruct Hr.
  - intros other Hother. specialize (Hr other).
    rewrite Hp, decide_False in Hr by congruence. by destruct Hr.
Qed.

Lemma callCallback_each (appId : string) (us : list Value) (p : Provider) :
  let p' := foldl (λ p u, callCallback appId u p) p us in
  stepUpdateCallbacks p' = stepUpdateCallbacks p
  ∧ pendingStepUpdates p' = pendingStepUpdates p
  ∧ delivered appId p' = delivered appId p ++ us
  ∧ ∀ other, other ≠ appId → delivered other p' = delivered other p.
Proof.
  revert p. induction us as [|u us IH]; intros p; simpl.
  - by rewrite app_nil_r.
  - destruct (IH (callCallback appId u p)) as (Hc & Hq & Hd & Ho).
    split_and!; [done|done| |].
    + rewrite Hd. unfold delivered. simpl. rewrite push_lookup, decide_True by done.
      by rewrite <-app_assoc.
    + intros other Hne. rewrite Ho by done. unfold delivered. simpl.
      by rewrite push_lookup, decide_False.
Qed.

Lemma registerStepUpdateCallback_spec (appId : string) (p : Provider) :
  let p' := registerStepUpdateCallback appId p in
  delivered appId p' = delivered appId p ++ held appId p
  ∧ held appId p' = []
  ∧ stepUpdateCallbacks p' = {[appId]} ∪ stepUpdateCallbacks p
  ∧ ∀ other, other ≠ appId →
      delivered other p' = delivered other p ∧ held other p' = held other p.
Proof.
  unfold registerStepUpdateCallback, held. simpl.
  destruct (pendingStepUpdates p !! appId) as [l|] eqn:Hl; simpl.
  - case_bool_decide as Hlen.
    + destruct (callCallback_each appId l
                  (set_stepUpdateCallbacks ({[appId]} ∪ stepUpdateCallbacks p) p))
        as (Hc & Hq & Hd & Ho).
      simpl. change (delivered ?a (set_pendingStepUpdates _ ?q)) with (delivered a q).
      rewrite lookup_delete_eq, Hc, Hd. split_and!; try done.
      intros other Hne. rewrite lookup_delete_ne by done. by rewrite Ho.
    + destruct l; [|simpl in Hlen; lia]. rewrite app_nil_r.
      unfold set_stepUpdateCallbacks, delivered. simpl. rewrite Hl. by split_and!.
  - rewrite app_nil_r.
    unfold set_stepUpdateCallbacks, delivered. simpl. rewrite Hl. by split_and!.
Qed.

(** X12. Step updates routed to an app before its callback registers
    are kept in order; [registerStepUpdateCallback] hands them to the
    callback in that order and deletes the queue, so that registering
    again replays nothing; other apps are not touched. *)
Theorem step_updates_replayed_once (appId : string) (us : list Value) (p : Provider) :
  appId ≠ "" → appId ∉ stepUpdateCallbacks p →
  let waiting := foldl (λ p u, routeStepUpdate (Some appId) u p) p us in
  let registered := registerStepUpdateCallback appId waiting in
  held appId waiting = held appId p ++ us
  ∧ delivered appId waiting = delivered appId p
  ∧ delivered appId registered = delivered appId p ++ held appId p ++ us
  ∧ held appId registered = []
  ∧ delivered appId (registerStepUpdateCallback appId registered)
    = delivered appId registered
  ∧ ∀ other, other ≠ appId →
      delivered other registered = delivered other p
      ∧ held other registered = held other p.
Proof.
  intros Hne Hout waiting registered.
  destruct (held_routed appId us p Hne Hout) as (Hh & Hd & Ho).
  destruct (registerStepUpdateCallback_spec appId waiting) as (Hd1 & Hh1 & _ & Ho1).
  destruct (registerStepUpdateCallback_spec appId registered) as (Hd2 & _).
  fold waiting in Hh, Hd, Ho. fold registered in Hd1, Hh1, Ho1, Hd2.
  split_and!; try done.
  - by rewrite Hd1, Hd, Hh.
  - by rewrite Hd2, Hh1, app_nil_r.
  - intros other Hother. destruct (Ho1 other Hother) as [-> ->].
    destruct (Ho other Hother) as [-> ->]. done.
Qed.

(** X13. [sendStepUpdateToApp] calls the callback of the app if it is
    registered and otherwise does nothing at all: unlike the routing of
    [executeToolCall], it queues nothing, and a later registration does
    not deliver the update. *)
Theorem sendStepUpdateToApp_never_queues (appId : string) (u : Value) (p : Provider) :
  let p' := sendStepUpdateToApp appId u p in
  (appId ∈ stepUpdateCallbacks p →
     delivered appId p' = delivered appId p ++ [u]
     ∧ (∀ other, other ≠ appId → delivered other p' = delivered other p))
  ∧ (appId ∉ stepUpdateCallbacks p →
     p' = p
     ∧ delivered appId (registerStepUpdateCallback appId p')
       = delivered appId p ++ held appId p)
  ∧ pendingStepUpdates p' = pendingStepUpdates p.
Proof.
  intros p'. subst p'. unfold sendStepUpdateToApp. split_and!.
  - intros Hin. rewrite bool_decide_eq_true_2 by done. unfold delivered. simpl.
    rewrite push_lookup, decide_True by done. split; [done|].
    intros other Hne. by rewrite push_lookup, decide_False.
  - intros Hout. rewrite bool_decide_eq_false_2 by done. split; [done|].
    by destruct (registerStepUpdateCallback_spec appId p) as (-> & _).
  - by case_bool_decide.
Qed.

(** *** Tool calls: failures and the argument cache *)

Lemma routeStepUpdate_cache (resolvedAppId : option string) (u : Value) (p : Provider) :
  toolArgumentsCache (routeStepUpdate resolvedAppId u p) = toolArgumentsCache p.
Proof.
  unfold routeStepUpdate. destruct (present resolvedAppId); [by case_bool_decide|].
  by apply (set_fold_ind_L
              (λ r (Y : gset string), toolArgumentsCache r = toolArgumentsCache p)).
Qed.

Lemma runTool_cache (context : ModelContext)
    (exec : Value → list ToolCall * Completion Value)
    (toolName : string) (args : Value) (targetAppId : option string) (p : Provider) :
  let resolvedAppId := resolveAppId (name context) toolName targetAppId p in
  toolArgumentsCache (runTool context exec toolName args targetAppId p).1
  = if present resolvedAppId
    then <[default "" resolvedAppId := args]> (<[toolName := args]> (toolArgumentsCache p))
    else <[toolName := args]> (toolArgumentsCache p).
Proof.
  intros a. unfold runTool. fold a.
  set (p1 := if present a then _ else _).
  assert (toolArgumentsCache p1
          = if present a
            then <[default "" a := args]> (<[toolName := args]> (toolArgumentsCache p))
            else <[toolName := args]> (toolArgumentsCache p)) as <-
    by (subst p1; by destruct (present a)).
  destruct (exec args) as [calls outcome].
  assert (∀ q, toolArgumentsCache
                 (foldl (λ p c, routeStepUpdate a (stepUpdateOf toolName c) p) q calls)
               = toolArgumentsCache q) as Hcalls.
  { induction calls as [|c calls IH]; intros q; simpl; [done|].
    by rewrite IH, routeStepUpdate_cache. }
  destruct outcome as [result|e]; simpl; [|apply Hcalls].
  destruct (is_undefined result); simpl; [apply Hcalls|].
  by rewrite routeStepUpdate_cache.
Qed.

(** X14. How [executeToolCall] fails.  Without a model context, or
    when no context has a tool of that name whose [execute] is a function,
    it throws and leaves the provider as it was.  When the tool itself
    throws, the error is passed on, the step updates the tool had already
    sent stay sent (no result update follows them), and the arguments are
    cached under the tool's name all the same. *)
Theorem executeToolCall_failures :
  (∀ toolName args targetAppId p,
     executeToolCall None toolName args targetAppId p
     = (p, Throw "No model context available"))
  ∧ (∀ contexts toolName args targetAppId p,
       chosen contexts toolName = None →
       executeToolCall (Some contexts) toolName args targetAppId p
       = (p, Throw ("Tool not found: " +:+ toolName)))
  ∧ (∀ contexts toolName args targetAppId p context exec e,
       chosen contexts toolName = Some (context, exec) →
       (exec args).2 = Throw e →
       let r := executeToolCall (Some contexts) toolName args targetAppId p in
       r.2 = Throw e
       ∧ routed (resolveAppId (name context) toolName targetAppId p)
           (map (stepUpdateOf toolName) (exec args).1) p r.1
       ∧ toolArgumentsCache r.1 !! toolName = Some args).
Proof.
  split_and!.
  - done.
  - intros contexts toolName args targetAppId p Hnone.
    by rewrite executeToolCall_chosen, Hnone.
  - intros contexts toolName args targetAppId p context exec e Hchosen Hthrow r.
    subst r. rewrite executeToolCall_chosen, Hchosen.
    destruct (runTool_routed context exec toolName args targetAppId p) as [Hr Ho].
    unfold updatesOf in Hr. rewrite Hthrow, app_nil_r in Hr.
    split_and!; [congruence|done|].
    rewrite runTool_cache. case_match.
    + destruct (decide (default "" (resolveAppId (name context) toolName targetAppId p)
                        = toolName)) as [->|Hne].
      * by rewrite lookup_insert_eq.
      * by rewrite lookup_insert_ne, lookup_insert_eq.
    + by rewrite lookup_insert_eq.
Qed.

Section WithJson.
Context `{JsonParser}.

(** X15. The arguments [executeToolCall] caches are the ones a later
    step update of that tool is given when it carries none of its own:
    for the app the call resolved to, and for any app with no cached
    arguments of its own. *)
Theorem cached_arguments_reach_steps (contexts : list ModelContext)
    (toolName : string) (args : Value) (targetAppId : option string) (p : Provider)
    (context : ModelContext) (exec : Value → list ToolCall * Completion Value)
    (step : RawServerStep) (appId : string) :
  chosen contexts toolName = Some (context, exec) →
  truthy args = true → toolName ≠ "" → appId ≠ "" →
  truthy (stepToolArguments step) && typeof_object (stepToolArguments step) = false →
  arguments step = None →
  from_option cd_arguments VUndefined (canvasDataOf step) = VUndefined →
  resolveAppId (name context) toolName targetAppId p = Some appId
  ∨ toolArgumentsCache p !! appId = None →
  let p' := (executeToolCall (Some contexts) toolName args targetAppId p).1 in
  stepArgumentsOf step appId (Some toolName) p' = args.
Proof.
  intros Hchosen Hargs Htool Happ Hraw Hstring Hcanvas Hwhere p'.
  assert (toolArgumentsCache p' !! toolName = Some args
          ∧ (toolArgumentsCache p' !! appId = Some args
             ∨ toolArgumentsCache p' !! appId = None)) as [Hbyname Hbyapp].
  { subst p'. rewrite executeToolCall_chosen, Hchosen, runTool_cache.
    set (a := resolveAppId (name context) toolName targetAppId p) in *.
    destruct (present a) eqn:Hpresent.
    - split.
      + destruct (decide (default "" a = toolName)) as [->|Hne].
        * by rewrite lookup_insert_eq.
        * by rewrite lookup_insert_ne, lookup_insert_eq.
      + destruct (decide (default "" a = appId)) as [->|Hne];
          [left; by rewrite lookup_insert_eq|].
        rewrite lookup_insert_ne by done.
        destruct (decide (toolName = appId)) as [->|Hne'];
          [left; by rewrite lookup_insert_eq|].
        rewrite lookup_insert_ne by done.
        destruct Hwhere as [Ha|Hnone]; [|by right].
        rewrite Ha in Hne. by destruct Hne.
    - split; [by rewrite lookup_insert_eq|].
      destruct (decide (toolName = appId)) as [->|Hne'];
        [left; by rewrite lookup_insert_eq|].
      rewrite lookup_insert_ne by done.
      destruct Hwhere as [Ha|Hnone]; [|by right].
      rewrite Ha in Hpresent. simpl in Hpresent.
      by rewrite bool_decide_eq_false_2 in Hpresent. }
  unfold stepArgumentsOf. rewrite Hraw, Hstring, Hcanvas. simpl.
  rewrite bool_decide_eq_false_2 by done. simpl. rewrite Hbyname. simpl.
  unfold or_else. destruct Hbyapp as [->| ->]; simpl; by rewrite ?Hargs.
Qed.

End WithJson.

(** *** Which app a step update belongs to *)

Lemma registerActiveApp_step (rawStep : RawServerStep) (c : Canvas)
    (appId sid : string) (p : Provider) :
  canvas rawStep = Some c → canvasId c = Some appId → appId ≠ "" →
  stepId rawStep = Some sid → sid ≠ "" →
  stepIdToAppId (registerActiveApp rawStep p) !! sid = Some appId.
Proof.
  intros Hc Hid Hne Hs Hsid. unfold registerActiveApp. rewrite Hc, Hid, Hs.
  simpl. rewrite !bool_decide_eq_false_2 by done. simpl. apply lookup_insert_eq.
Qed.

Lemma registerActiveApp_other_step (rawStep : RawServerStep) (sid : string)
    (p : Provider) :
  stepId rawStep ≠ Some sid →
  stepIdToAppId (registerActiveApp rawStep p) !! sid = stepIdToAppId p !! sid.
Proof.
  intros Hs. unfold registerActiveApp. destruct (canvas rawStep) as [c|]; [|done].
  set (p1 := if present _ && present (canvasId c) then _ else p).
  assert (stepIdToAppId p1 = stepIdToAppId p) as Hp1 by (subst p1; by case_match).
  destruct (stepId rawStep) as [s|]; simpl; [|by rewrite Hp1].
  destruct (negb (bool_decide (s = "")) && present (canvasId c)); simpl;
    [|by rewrite Hp1].
  rewrite lookup_insert_ne by congruence. by rewrite Hp1.
Qed.

(** X16. A step update without a canvas goes to the app of the step
    it continues, not to the app that is active for its tool: once a
    step with a canvas has tied its step id to app [A], later updates with
    that step id belong to [A], even after another step has made [B] the
    active app of the same tool. *)
Theorem step_id_outlives_tool_mapping (first second later : RawServerStep)
    (c1 c2 : Canvas) (A B sid toolName : string) (p : Provider) :
  A ≠ "" → B ≠ "" → sid ≠ "" → toolName ≠ "" →
  canvas first = Some c1 → canvasId c1 = Some A → stepId first = Some sid →
  canvas second = Some c2 → canvasId c2 = Some B → stepId second ≠ Some sid →
  or_str (stepToolName second) (stepLabel second) = Some toolName →
  canvas later = None → stepId later = Some sid →
  let p' := registerActiveApp second (registerActiveApp first p) in
  activeAppByTool p' !! toolName = Some B
  ∧ appIdOf later p' = Some A.
Proof.
  intros HA HB Hsid Htool Hc1 Hid1 Hs1 Hc2 Hid2 Hs2 Ht2 Hc3 Hs3 p'. split.
  - by apply (registerActiveApp_records second c2).
  - unfold appIdOf. rewrite Hc3, Hs3. simpl.
    rewrite bool_decide_eq_false_2 by done. simpl. subst p'.
    rewrite registerActiveApp_other_step by done.
    rewrite (registerActiveApp_step first c1 A sid) by done.
    unfold or_str. simpl. by rewrite bool_decide_eq_false_2.
Qed.

(** *** The theorems at work *)

Definition note (text : string) : Notification :=
  {| method := "ui/notifications/tool-result"; params := obj [("result", VStr text)] |}.

Lemma notifications_conserved_witness :
  let p := foldl (λ p c, call c p) initial
             [SendTo "A" (method (note "one")) (params (note "one"));
              Register "A";
              SendTo "A" (method (note "two")) (params (note "two"));
              Unregister "A";
              SendTo "A" (method (note "three")) (params (note "three"))] in
  received "A" p ++ queued "A" p = [note "one"; note "two"; note "three"].
Proof.
  intros p.
  refine (proj1 (notifications_conserved _ "A" _)).
  repeat (constructor; [by intros []|]). constructor.
Defined.

Lemma broadcast_misses_late_apps_witness :
  let p := registerToolNotificationSender "A" initial in
  let p' := broadcastToolNotification (method (note "all")) (params (note "all"))
              VUndefined p in
  received "A" p' = [note "all"]
  ∧ received "B" (registerToolNotificationSender "B" p') = [].
Proof.
  intros p p'.
  destruct (broadcast_misses_late_apps (method (note "all")) (params (note "all"))
              VUndefined p) as (Hreceived & _ & _ & Hlate).
  - intros Hempty. apply (f_equal (λ X : gset string, bool_decide ("A" ∈ X))) in Hempty.
    vm_compute in Hempty. discriminate.
  - split.
    + etrans; [apply Hreceived|]. vm_compute. reflexivity.
    + etrans; [apply Hlate|vm_compute; reflexivity].
      intros Hin. apply (bool_decide_eq_true_2 _) in Hin. vm_compute in Hin.
      discriminate.
Defined.

Lemma step_updates_replayed_once_witness :
  let us := [partialStepUpdate "render" (obj [("id", VNum 1)]);
             resultStepUpdate "render" (obj [("ok", VBool true)])] in
  let waiting := foldl (λ p u, routeStepUpdate (Some "A") u p) initial us in
  held "A" waiting = us
  ∧ delivered "A" (registerStepUpdateCallback "A" waiting) = us
  ∧ held "A" (registerStepUpdateCallback "A" waiting) = [].
Proof.
  intros us waiting.
  destruct (step_updates_replayed_once "A" us initial)
    as (Hheld & _ & Hdelivered & Hempty & _); [done|apply not_elem_of_empty|].
  split_and!; [exact Hheld|exact Hdelivered|exact Hempty].
Defined.

Definition render_exec (args : Value) : list ToolCall * Completion Value :=
  ([NotifyToolInputPartial args], Normal (obj [("ok", VBool true)])).

Definition bare_step (sid : string) : RawServerStep :=
  {| stepId := Some sid; stepToolName := Some "render"; stepLabel := None;
     stepToolArguments := VUndefined; stepToolResult := VUndefined;
     arguments := None; content := VUndefined; stepStatus := Some "processing";
     canvas := None |}.

Lemma cached_arguments_reach_steps_witness :
  let args := obj [("id", VNum 7)] in
  let p' := (executeToolCall (Some [render_context]) "render" args None two_apps).1 in
  stepArgumentsOf (H := ReferenceJsonFacts.reference_parser)
    (bare_step "step-A") "A" (Some "render") p' = args.
Proof.
  intros args p'.
  apply (cached_arguments_reach_steps (H := ReferenceJsonFacts.reference_parser)
           [render_context] "render" args None two_apps render_context render_exec);
    try done.
  left. vm_compute. reflexivity.
Defined.

Lemma step_id_outlives_tool_mapping_witness :
  let p' := registerActiveApp (render_step "B")
              (registerActiveApp (render_step "A") initial) in
  activeAppByTool p' !! "render" = Some "B"
  ∧ appIdOf (bare_step "step-A") p' = Some "A".
Proof.
  intros p'.
  by apply (step_id_outlives_tool_mapping (render_step "A") (render_step "B")
              (bare_step "step-A")
              {| canvasId := Some "A"; canvasData := None |}
              {| canvasId := Some "B"; canvasData := None |}
              "A" "B" "step-A" "render" initial).
Defined.

End ChatProviderMore.

(** ** Resource URI templates: exact templates, trailing parameters, captures *)

Module ConnectorMore.
Import Connector ConnectorFacts.

Lemma pieces_literal (template : string) :
  all_chars ordinary template = true →
  pieces template = map Literal (chars template).
Proof.
  intros Hall. unfold pieces.
  pose proof (pieces_fuel_literal 0 template "" Hall) as Hp.
  rewrite ConnectorFacts.app_nil_r, Nat.add_0_r in Hp. rewrite Hp. simpl.
  by rewrite List.app_nil_r.
Qed.

Lemma regexPattern_literal (template : string) :
  all_chars ordinary template = true →
  regexPattern template = template ∧ paramNames template = [].
Proof.
  intros Hall. unfold regexPattern, paramNames. rewrite pieces_literal by done. split.
  - pose proof (concat_literal (chars template) []) as Hc.
    rewrite List.app_nil_r in Hc. rewrite Hc. simpl.
    unfold chars. by rewrite String.string_of_list_ascii_of_string, ConnectorFacts.app_nil_r.
  - by induction (chars template).
Qed.

Lemma compile_literal (template : string) :
  all_chars ordinary template = true →
  compile template = Some (map Char (chars template)).
Proof.
  intros Hall. unfold compile.
  pose proof (compile_fuel_literal 0 template "" Hall) as Hc.
  rewrite ConnectorFacts.app_nil_r, Nat.add_0_r in Hc. rewrite Hc. simpl.
  by rewrite List.app_nil_r.
Qed.

(** Leading characters of a pattern match themselves and nothing else. *)
Lemma exec_literal_inv (prefix : string) (items : list Item) (s : string)
    (captures : list string) :
  exec (map Char (chars prefix) ++ items) s = Some captures →
  ∃ rest, s = prefix +:+ rest ∧ exec items rest = Some captures.
Proof.
  revert s. induction prefix as [|c prefix IH]; intros s; simpl.
  - intros Hexec. by exists s.
  - destruct s as [|c' s]; [done|]. case_bool_decide as Hc; [|done]. subst c'.
    intros (rest & -> & Hrest)%IH. by exists rest.
Qed.

(** X17. A template without parameters (and without characters that
    mean something in a pattern) matches its own text and no other URI,
    and gives no parameters. *)
Theorem plain_template_matches_itself (uri template : string) :
  all_chars ordinary template = true →
  (matchesUriTemplate uri template = Some true ↔ uri = template)
  ∧ matchesUriTemplate uri template = Some (bool_decide (uri = template))
  ∧ extractUriParams uri template = Some ∅.
Proof.
  intros Hall. destruct (regexPattern_literal template Hall) as [Hpattern Hnames].
  assert (is_Some (exec (map Char (chars template)) uri) ↔ uri = template) as Hexec.
  { split.
    - intros [captures Hc]. pose proof (exec_literal_inv template [] uri captures) as Hinv.
      rewrite List.app_nil_r in Hinv. destruct (Hinv Hc) as (rest & -> & Hrest).
      simpl in Hrest. case_bool_decide; [subst|done]. by rewrite ConnectorFacts.app_nil_r.
    - intros ->. pose proof (exec_literal template "" []) as He.
      rewrite List.app_nil_r, ConnectorFacts.app_nil_r in He. rewrite He. by eexists. }
  assert (matchesUriTemplate uri template = Some (bool_decide (uri = template))) as Hm.
  { unfold matchesUriTemplate. rewrite Hpattern, compile_literal by done. simpl.
    f_equal. apply bool_decide_ext, Hexec. }
  split_and!; [|done|].
  - rewrite Hm. split; [by intros [= ?%bool_decide_eq_true]|].
    intros ->. by rewrite bool_decide_eq_true_2.
  - unfold extractUriParams. rewrite Hpattern, Hnames, compile_literal by done. simpl.
    by destruct (exec _ uri).
Qed.

Lemma exec_group (items : list Item) (s : string) :
  exec (Group :: items) s
  = '(value, captures) ← greedy (exec items) s; Some (value :: captures).
Proof. done. Qed.

Definition one_line (value : string) : Prop :=
  value ≠ "" ∧ all_chars (λ c, negb (is_line_terminator c)) value = true.


(** The captures of a match are parts of the text, each of one character
    or more and without line terminator. *)
Lemma Matches_captures (items : list Item) (s : string) (captures : list string) :
  Matches items s captures →
  Forall (λ value, one_line value
                   ∧ ∃ before after, s = before +:+ value +:+ after) captures.
Proof.
  induction 1 as [|c items s captures _ IH|c items s captures Hc _ IH
                  |value items s captures Hne Hall _ IH].
  - constructor.
  - eapply Forall_impl; [exact IH|]. intros v (Hv & before & after & ->).
    split; [done|]. by exists (String c before), after.
  - eapply Forall_impl; [exact IH|]. intros v (Hv & before & after & ->).
    split; [done|]. by exists (String c before), after.
  - constructor.
    + split; [done|]. by exists "", s.
    + eapply Forall_impl; [exact IH|]. intros v (Hv & before & after & ->).
      split; [done|]. exists (value +:+ before), after.
      by rewrite ConnectorFacts.app_assoc.
Qed.

Lemma params_lookup (pairs : list (string * string)) (acc : gmap string string)
    (k v : string) :
  foldl (λ params '(paramName, value), <[paramName := value]> params) acc pairs !! k
  = Some v →
  (k, v) ∈ pairs ∨ acc !! k = Some v.
Proof.
  revert acc. induction pairs as [|[k' v'] pairs IH]; intros acc; simpl; [by right|].
  intros [Hin|Hacc]%IH; [left; by constructor|].
  destruct (decide (k' = k)) as [->|Hne].
  - rewrite lookup_insert_eq in Hacc. injection Hacc as ->. left. constructor.
  - rewrite lookup_insert_ne in Hacc by done. by right.
Qed.



Lemma plain_template_matches_itself_witness :
  matchesUriTemplate "app://docs/index" "app://docs/readme" = Some false
  ∧ extractUriParams "app://docs/index" "app://docs/readme" = Some ∅.
Proof.
  destruct (plain_template_matches_itself "app://docs/index" "app://docs/readme")
    as (_ & Hmatch & Hparams); [done|].
  split; [exact Hmatch|exact Hparams].
Defined.


End ConnectorMore.

Module RegexFacts.
Import Regex.

Lemma sapp_cons (c : ascii) (s t : string) : String c s +:+ t = String c (s +:+ t).
Proof. reflexivity. Qed.

Lemma sapp_nil_l (s : string) : "" +:+ s = s.
Proof. reflexivity. Qed.

Lemma sapp_nil_r (s : string) : s +:+ "" = s.
Proof. induction s as [|c s IH]; [done|]. by rewrite sapp_cons, IH. Qed.

Lemma sapp_assoc (s t u : string) : (s +:+ t) +:+ u = s +:+ (t +:+ u).
Proof. induction s as [|c s IH]; [done|]. by rewrite !sapp_cons, IH. Qed.

Lemma sapp_nil_inv (s t : string) : s +:+ t = "" → s = "" ∧ t = "".
Proof. by destruct s. Qed.

(** The texts an expression stands for. *)
Inductive Lang : Re → string → Prop :=
  | Lang_eps : Lang Eps ""
  | Lang_class p c : p c = true → Lang (Class p) (String c "")
  | Lang_seq a b s t : Lang a s → Lang b t → Lang (Seq a b) (s +:+ t)
  | Lang_alt_l a b s : Lang a s → Lang (Alt a b) s
  | Lang_alt_r a b s : Lang b s → Lang (Alt a b) s
  | Lang_star_nil a : Lang (Star a) ""
  | Lang_star_cons a s t : Lang a s → Lang (Star a) t → Lang (Star a) (s +:+ t).

Lemma nullable_spec (r : Re) : nullable r = true ↔ Lang r "".
Proof.
  induction r as [| |p|a IHa b IHb|a IHa b IHb|a IHa]; simpl.
  - split; [done|]. inversion 1.
  - split; [constructor|done].
  - split; [done|]. inversion 1.
  - rewrite andb_true_iff, IHa, IHb. split.
    + intros [Ha Hb]. by apply (Lang_seq a b "" "").
    + inversion 1 as [| |a' b' s t Hs Ht Heq| | | |]; subst.
      match goal with H : _ +:+ _ = "" |- _ => apply sapp_nil_inv in H as [-> ->] end.
      done.
  - rewrite orb_true_iff, IHa, IHb. split.
    + intros [Ha|Hb]; [by apply Lang_alt_l|by apply Lang_alt_r].
    + inversion 1; subst; [by left|by right].
  - split; [constructor|done].
Qed.

Lemma Lang_star_inv (a : Re) (c : ascii) (s : string) :
  Lang (Star a) (String c s) →
  ∃ s1 s2, s = s1 +:+ s2 ∧ Lang a (String c s1) ∧ Lang (Star a) s2.
Proof.
  intros Hs. remember (Star a) as r eqn:Hr. remember (String c s) as w eqn:Hw.
  revert a c s Hr Hw.
  induction Hs as [|p' c'| | | | |a' s1 s2 H1 _ H2 IH2]; intros a0 c0 s0 Hr Hw;
    try done.
  injection Hr as ->. destruct s1 as [|c1 s1].
  - rewrite sapp_nil_l in Hw. by apply IH2.
  - rewrite sapp_cons in Hw. injection Hw as -> <-. by exists s1, s2.
Qed.

Lemma deriv_spec (c : ascii) (r : Re) (s : string) :
  Lang (deriv c r) s ↔ Lang r (String c s).
Proof.
  revert s. induction r as [| |p|a IHa b IHb|a IHa b IHb|a IHa]; intros s; simpl.
  - split; inversion 1.
  - split; inversion 1.
  - destruct (p c) eqn:Hp; split.
    + inversion 1; subst. by constructor.
    + inversion 1; subst. constructor.
    + inversion 1.
    + inversion 1; subst. congruence.
  - assert (Lang (Seq (deriv c a) b) s ∨ (Lang a "" ∧ Lang (deriv c b) s)
            ↔ Lang (Seq a b) (String c s)) as Hseq.
    { split.
      - intros [Hd|[Hn Hd]].
        + inversion Hd as [| |a' b' s1 s2 H1 H2| | | |]; subst.
          apply IHa in H1. by apply (Lang_seq a b (String c s1) s2).
        + apply IHb in Hd. by apply (Lang_seq a b "" (String c s)).
      - inversion 1 as [| |a' b' s1 s2 H1 H2 Heq| | | |]; subst.
        destruct s1 as [|c1 s1].
        + match goal with H : _ +:+ _ = _ |- _ => rewrite sapp_nil_l in H; subst end.
          right. split; [done|]. by apply IHb.
        + match goal with
            H : _ +:+ _ = _ |- _ => rewrite sapp_cons in H; injection H as -> <-
          end.
          left. apply Lang_seq; [by apply IHa|done]. }
    destruct (nullable a) eqn:Hn.
    + rewrite <-Hseq. split.
      * inversion 1; subst; [by left|right].
        split; [by apply nullable_spec|done].
      * intros [Hd|[_ Hd]]; [by apply Lang_alt_l|by apply Lang_alt_r].
    + rewrite <-Hseq. split; [by left|].
      intros [Hd|[Hn' _]]; [done|]. apply nullable_spec in Hn'. congruence.
  - split.
    + inversion 1; subst; [apply Lang_alt_l|apply Lang_alt_r]; by (apply IHa || apply IHb).
    + inversion 1; subst; [apply Lang_alt_l|apply Lang_alt_r]; by (apply IHa || apply IHb).
  - split.
    + inversion 1 as [| |a' b' s1 s2 H1 H2| | | |]; subst.
      apply IHa in H1. by apply (Lang_star_cons a (String c s1) s2).
    + intros (s1 & s2 & -> & H1 & H2)%Lang_star_inv.
      apply Lang_seq; [by apply IHa|done].
Qed.

Lemma matches_spec (r : Re) (s : string) : matches r s = true ↔ Lang r s.
Proof.
  revert r. induction s as [|c s IH]; intros r; simpl.
  - apply nullable_spec.
  - by rewrite IH, deriv_spec.
Qed.

End RegexFacts.

(** ** src/utils/uiCsp.ts *)

Module UiCspFacts.
Import Regex RegexFacts UiCsp JsFacts.

(** *** Trimming *)

Lemma trim_end_cons (c : ascii) (s : string) :
  is_white_space c = false → trim_end (String c s) = String c (trim_end s).
Proof. intros Hc. simpl. rewrite Hc. by destruct (trim_end s). Qed.

Lemma trim_start_cons (c : ascii) (s : string) :
  is_white_space c = false → trim_start (String c s) = String c s.
Proof. intros Hc. simpl. by rewrite Hc. Qed.

Lemma trim_end_idem (s : string) : trim_end (trim_end s) = trim_end s.
Proof.
  induction s as [|c s IH]; [done|]. simpl.
  destruct (trim_end s) as [|c' rest] eqn:Hs.
  - destruct (is_white_space c) eqn:Hc; [done|]. simpl. by rewrite Hc.
  - change (trim_end (String c (String c' rest))
            = String c (String c' rest)).
    cbn [trim_end]. cbn [trim_end] in IH. by rewrite IH.
Qed.

Lemma trim_idem (s : string) : trim (trim s) = trim s.
Proof.
  unfold trim. destruct (trim_start_head s) as [->|(c & rest & -> & Hc)]; [done|].
  rewrite trim_end_cons by done. simpl. rewrite Hc.
  rewrite <-trim_end_cons by done. apply trim_end_idem.
Qed.

(** *** Characters of a string *)

Fixpoint any_char (p : ascii → bool) (s : string) : bool :=
  match s with
  | String c s => p c || any_char p s
  | EmptyString => false
  end.

Lemma any_char_app (p : ascii → bool) (s t : string) :
  any_char p (s +:+ t) = any_char p s || any_char p t.
Proof.
  induction s as [|c s IH]; [done|]. rewrite sapp_cons. simpl.
  by rewrite IH, orb_assoc.
Qed.

Lemma Lang_anything (s : string) : Lang anything s.
Proof.
  induction s as [|c s IH]; [constructor|].
  apply (Lang_star_cons _ (String c "") s); [by constructor|done].
Qed.

(** [/[...]/.test(s)]: some character of [s] is in the class. *)
Lemma search_class (p : ascii → bool) (s : string) :
  search (Class p) s = any_char p s.
Proof.
  apply eq_true_iff_eq. unfold search. rewrite matches_spec. split.
  - inversion 1 as [| |a b s1 s2 _ H2| | | |]; subst.
    inversion H2 as [| |a b s3 s4 H3 _| | | |]; subst.
    inversion H3; subst. rewrite !any_char_app. simpl.
    match goal with H : p _ = true |- _ => rewrite H end.
    by rewrite orb_true_r.
  - induction s as [|c s IH]; [done|]. simpl. intros [Hc|Hs]%orb_true_iff.
    + apply (Lang_seq _ _ "" (String c s)); [constructor|].
      apply (Lang_seq _ _ (String c "") s); [by constructor|apply Lang_anything].
    + specialize (IH Hs).
      inversion IH as [| |a b s1 s2 H1 H2| | | |]; subst.
      apply (Lang_seq _ _ (String c s1) s2); [|done].
      apply (Lang_star_cons _ (String c "") s1); [by constructor|done].
Qed.

(** [/^r/.test(s)] on a text that starts with a match of [r]. *)
Lemma matches_prefix_app (r : Re) (s t : string) :
  matches r s = true → matches_prefix r (s +:+ t) = true.
Proof.
  intros Hs%matches_spec. unfold matches_prefix. apply matches_spec.
  apply Lang_seq; [done|apply Lang_anything].
Qed.

(** *** Sources *)

(** No [;], no line feed, no carriage return. *)
Definition clean (s : string) : Prop :=
  any_char (λ c, bool_decide (c ∈ [";"; "010"; "013"]%char)) s = false.

Definition accepted (trimmed : string) : bool :=
  bool_decide (trimmed ∈ keywords)
  || bool_decide (trimmed = "data:") || bool_decide (trimmed = "blob:")
  || matches_prefix http_scheme trimmed || matches_prefix ws_scheme trimmed
  || matches host trimmed.

Lemma sanitizeSource_trimmed (value : string) :
  sanitizeSource value
  = if negb (bool_decide (trim value = ""))
       && negb (any_char (λ c, bool_decide (c ∈ [";"; "010"; "013"]%char)) (trim value))
       && accepted (trim value)
    then Some (trim value) else None.
Proof.
  unfold sanitizeSource, accepted, injection. rewrite search_class.
  destruct (bool_decide (trim value = "")); [done|].
  destruct (any_char _ (trim value)); [done|]. simpl.
  destruct (bool_decide (trim value ∈ keywords)); [done|].
  destruct (bool_decide (trim value = "data:")); [done|].
  destruct (bool_decide (trim value = "blob:")); [done|].
  destruct (matches_prefix http_scheme _); [done|].
  destruct (matches_prefix ws_scheme _); [done|].
  by destruct (matches host _).
Qed.

Lemma sanitizeSource_Some (value source : string) :
  sanitizeSource value = Some source →
  source = trim value ∧ source ≠ "" ∧ clean source ∧ accepted source = true.
Proof.
  rewrite sanitizeSource_trimmed.
  destruct (negb _ && negb _ && accepted _) eqn:Hok; [|done]. intros [= <-].
  apply andb_prop in Hok as [[Hne%negb_true_iff%bool_decide_eq_false
                              Hclean%negb_true_iff]%andb_prop Hok].
  by split_and!.
Qed.

Lemma sanitizeSource_again (value source : string) :
  sanitizeSource value = Some source → sanitizeSource source = Some source.
Proof.
  intros (-> & Hne & Hclean & Hok)%sanitizeSource_Some.
  rewrite sanitizeSource_trimmed, trim_idem, Hok, Hclean.
  by rewrite bool_decide_eq_false_2.
Qed.

(** X20. What [sanitizeSource] lets through is the trimmed value, is
    not empty and holds no [;], line feed or carriage return; and it is
    let through again unchanged. *)
Theorem sanitizeSource_safe (value source : string) :
  sanitizeSource value = Some source →
  source = trim value
  ∧ source ≠ ""
  ∧ any_char (λ c, bool_decide (c ∈ [";"; "010"; "013"]%char)) source = false
  ∧ sanitizeSource source = Some source.
Proof.
  intros Hsource.
  destruct (sanitizeSource_Some _ _ Hsource) as (Htrim & Hne & Hclean & _).
  split_and!; [done..|]. by apply sanitizeSource_again in Hsource.
Qed.

Lemma any_char_trim_end (p : ascii → bool) (s : string) :
  any_char p s = false → any_char p (trim_end s) = false.
Proof.
  induction s as [|c s IH]; [done|]. simpl.
  intros [Hc Hs]%orb_false_elim. specialize (IH Hs).
  destruct (trim_end s) as [|c' rest]; [|simpl in *; by rewrite Hc, IH].
  destruct (is_white_space c); simpl; [done|]. by rewrite Hc.
Qed.

Lemma trim_scheme (scheme rest : string) :
  scheme ∈ ["http://"; "https://"; "ws://"; "wss://"] →
  trim (scheme +:+ rest) = scheme +:+ trim_end rest.
Proof.
  intros Hin. unfold trim.
  repeat (apply elem_of_cons in Hin as [->|Hin];
          [rewrite !sapp_cons, sapp_nil_l, trim_start_cons by done;
           by rewrite !trim_end_cons by done|]).
  by apply elem_of_nil in Hin.
Qed.

(** X21. After [http://], [https://], [ws://] or [wss://] any text is
    let through, spaces and quotes included, as long as it holds no [;]
    and no line break: only the end of the value is trimmed. *)
Theorem scheme_lets_anything_through (scheme rest : string) :
  scheme ∈ ["http://"; "https://"; "ws://"; "wss://"] →
  any_char (λ c, bool_decide (c ∈ [";"; "010"; "013"]%char)) rest = false →
  sanitizeSource (scheme +:+ rest) = Some (scheme +:+ trim_end rest).
Proof.
  intros Hscheme Hrest. rewrite sanitizeSource_trimmed, trim_scheme by done.
  assert (negb (bool_decide (scheme +:+ trim_end rest = "")) = true) as ->.
  { apply negb_true_iff, bool_decide_eq_false. intros [-> _]%sapp_nil_inv.
    repeat (apply elem_of_cons in Hscheme as [?|Hscheme]; [done|]).
    by apply elem_of_nil in Hscheme. }
  assert (any_char (λ c, bool_decide (c ∈ [";"; "010"; "013"]%char))
            (scheme +:+ trim_end rest) = false) as ->.
  { rewrite any_char_app, any_char_trim_end, orb_false_r by done.
    repeat (apply elem_of_cons in Hscheme as [->|Hscheme]; [by vm_compute|]).
    by apply elem_of_nil in Hscheme. }
  assert (accepted (scheme +:+ trim_end rest) = true) as ->; [|done].
  unfold accepted.
  assert (matches_prefix http_scheme (scheme +:+ trim_end rest) = true
          ∨ matches_prefix ws_scheme (scheme +:+ trim_end rest) = true) as [-> | ->];
    [|by rewrite ?orb_true_r..].
  repeat (apply elem_of_cons in Hscheme as [->|Hscheme];
          [(left; by apply matches_prefix_app) || (right; by apply matches_prefix_app)|]).
  by apply elem_of_nil in Hscheme.
Qed.

(** *** Lists of sources *)

Lemma uniq_from (items : list (option string)) (seen : list string) :
  let result :=
    foldl (λ seen item,
             match item with
             | Some item =>
                 if negb (bool_decide (item = "")) && negb (bool_decide (item ∈ seen))
                 then seen ++ [item] else seen
             | None => seen
             end) seen items in
  (NoDup seen → NoDup result)
  ∧ ∀ x, x ∈ result ↔ x ∈ seen ∨ (Some x ∈ items ∧ x ≠ "").
Proof.
  revert seen. induction items as [|item items IH]; intros seen; simpl.
  - split; [done|]. intros x. rewrite elem_of_nil. naive_solver.
  - destruct item as [item|].
    + destruct (negb (bool_decide (item = "")) && negb (bool_decide (item ∈ seen)))
        eqn:Hadd.
      * apply andb_prop in Hadd as [Hne%negb_true_iff%bool_decide_eq_false
                                    Hnew%negb_true_iff%bool_decide_eq_false].
        destruct (IH (seen ++ [item])) as [Hnodup Hin]. split.
        -- intros Hseen. apply Hnodup. apply NoDup_app. split_and!; [done| |].
           ++ intros y Hy ->%list_elem_of_singleton. done.
           ++ apply NoDup_singleton.
        -- intros x. rewrite Hin, elem_of_app, list_elem_of_singleton, elem_of_cons.
           naive_solver.
      * destruct (IH seen) as [Hnodup Hin]. split; [done|].
        intros x. rewrite Hin, elem_of_cons. split; [naive_solver|].
        intros [Hseen|[[[= ->]|Hitems] Hx]]; [by left| |by right].
        apply andb_false_iff in Hadd as [Hempty|Hold].
        -- apply negb_false_iff, bool_decide_eq_true in Hempty. done.
        -- apply negb_false_iff, bool_decide_eq_true in Hold. by left.
    + destruct (IH seen) as [Hnodup Hin]. split; [done|].
      intros x. rewrite Hin, elem_of_cons. naive_solver.
Qed.

Lemma uniq_spec (items : list (option string)) :
  NoDup (uniq items) ∧ ∀ x, x ∈ uniq items ↔ Some x ∈ items ∧ x ≠ "".
Proof.
  destruct (uniq_from items []) as [Hnodup Hin]. split.
  - apply Hnodup, NoDup_nil_2.
  - intros x. unfold uniq. rewrite Hin, elem_of_nil. naive_solver.
Qed.

Lemma elem_of_filterBoolean (items : list (option string)) (x : string) :
  Some x ∈ filterBoolean items ↔ Some x ∈ items ∧ x ≠ "".
Proof.
  unfold filterBoolean. rewrite list_elem_of_In, List.filter_In, <-list_elem_of_In.
  rewrite negb_true_iff, bool_decide_eq_false. done.
Qed.

Lemma elem_of_buildSources (base domains extras : list string) (source : string) :
  source ∈ buildSources base domains extras
  ↔ ∃ value, value ∈ base ++ domains ++ extras ∧ sanitizeSource value = Some source.
Proof.
  unfold buildSources. rewrite (proj2 (uniq_spec _)), elem_of_filterBoolean.
  rewrite list_elem_of_fmap. split.
  - intros [[(value & Hs & Hin) _] _]. by exists value.
  - intros (value & Hin & Hs).
    destruct (sanitizeSource_Some value source Hs) as (_ & Hne & _).
    split_and!; [by exists value|done..].
Qed.

(** X22. A list of sources built by [buildSources] holds each source
    once; its sources are exactly what [sanitizeSource] makes of the
    values it lets through; and each is a value [sanitizeSource] would let
    through unchanged. *)
Theorem buildSources_spec (base domains extras : list string) :
  let sources := buildSources base domains extras in
  NoDup sources
  ∧ (∀ source, source ∈ sources
               ↔ ∃ value, value ∈ base ++ domains ++ extras
                          ∧ sanitizeSource value = Some source)
  ∧ Forall (λ source, sanitizeSource source = Some source) sources.
Proof.
  intros sources. split_and!.
  - apply uniq_spec.
  - apply elem_of_buildSources.
  - apply Forall_forall. intros source (value & _ & Hs)%elem_of_buildSources.
    by apply sanitizeSource_again in Hs.
Qed.

(** *** The policy *)

Lemma uniq_prefix (items : list (option string)) (seen : list string) :
  ∃ more,
    foldl (λ seen item,
             match item with
             | Some item =>
                 if negb (bool_decide (item = "")) && negb (bool_decide (item ∈ seen))
                 then seen ++ [item] else seen
             | None => seen
             end) seen items = seen ++ more.
Proof.
  revert seen. induction items as [|item items IH]; intros seen; simpl.
  - exists []. by rewrite app_nil_r.
  - destruct item as [item|]; [|apply IH].
    destruct (negb _ && negb _); [|apply IH].
    destruct (IH (seen ++ [item])) as [more ->]. exists (item :: more).
    by rewrite <-app_assoc.
Qed.

Lemma buildSources_base (base domains extras : list string) :
  buildSources base [] [] = base →
  ∃ more, buildSources base domains extras = base ++ more ∧ Forall clean more.
Proof.
  intros Hbase.
  assert (∃ more, buildSources base domains extras = base ++ more) as [more Hmore].
  { revert Hbase. unfold buildSources, uniq, filterBoolean.
    rewrite !app_nil_r, map_app, List.filter_app, foldl_app. intros ->.
    apply uniq_prefix. }
  exists more. split; [done|]. apply Forall_forall. intros source Hin.
  assert (source ∈ buildSources base domains extras) as (value & _ & Hs)%elem_of_buildSources
    by (rewrite Hmore; set_solver).
  by apply sanitizeSource_Some in Hs as (_ & _ & Hclean & _).
Qed.

(** What follows the base sources in a directive. *)
Definition rest_of (sources : list string) : string :=
  foldr (λ source rest, " " +:+ source +:+ rest) "" sources.

Lemma concat_second (sep first second : string) (sources : list string) :
  String.concat sep (first :: second :: sources)
  = first +:+ sep +:+ String.concat sep (second :: sources).
Proof. done. Qed.

Lemma concat_first (first : string) (more : list string) :
  String.concat " " (first :: more) = first +:+ rest_of more.
Proof.
  revert first. induction more as [|source more IH]; intros first.
  - simpl. by rewrite sapp_nil_r.
  - rewrite concat_second. by rewrite (IH source).
Qed.

Lemma concat_rest (first : string) (base more : list string) :
  String.concat " " ((first :: base) ++ more)
  = String.concat " " (first :: base) +:+ rest_of more.
Proof.
  revert first. induction base as [|second base IH]; intros first.
  - apply concat_first.
  - change (first +:+ " " +:+ String.concat " " ((second :: base) ++ more)
            = (first +:+ " " +:+ String.concat " " (second :: base)) +:+ rest_of more).
    by rewrite IH, !sapp_assoc.
Qed.

Lemma clean_rest (more : list string) : Forall clean more → clean (rest_of more).
Proof.
  unfold clean. induction 1 as [|source more Hsource _ IH]; [done|].
  change (rest_of (source :: more)) with (" " +:+ source +:+ rest_of more).
  by rewrite !any_char_app, Hsource, IH.
Qed.

Lemma or_default_cons (first : string) (base more fallback : list string) :
  or_default ((first :: base) ++ more) fallback = (first :: base) ++ more.
Proof. unfold or_default. case_bool_decide as Hlength; [done|]. simpl in Hlength. lia. Qed.

(** X23. Whatever the metadata, the policy of [resolveUiCsp] is the same
    eleven directives in the same order, each with its base sources first;
    what the metadata adds comes after them and holds no [;] and no line
    break, so it cannot add a directive. The image, font and media
    directives always have the same sources, and the fallback lists are
    never used. *)
Theorem csp_skeleton (meta : option UiCspMeta) :
  ∃ script style img connect : string,
    csp (resolveUiCsp meta)
    = "default-src 'none'; script-src 'self' 'unsafe-inline' 'unsafe-eval' blob:"
      +:+ script +:+ "; style-src 'self' 'unsafe-inline' blob:"
      +:+ style +:+ "; img-src 'self' data: blob:"
      +:+ img +:+ "; font-src 'self' data: blob:"
      +:+ img +:+ "; connect-src 'self'"
      +:+ connect +:+ "; media-src 'self' data: blob:"
      +:+ img +:+ "; frame-src 'none'; object-src 'none'; base-uri 'self'; form-action "
      +:+ (if default false (meta ≫= allowForms) then "'self'" else "'none'")
    ∧ Forall clean [script; style; img; connect].
Proof.
  unfold resolveUiCsp, directives.
  set (merged := merge meta).
  set (resource := ensureArray (m_resourceDomains merged)).
  set (extra := match m_domain merged with
                | Some d => if bool_decide (d = "") then [] else [d]
                | None => []
                end).
  destruct (buildSources_base ["'self'"; "'unsafe-inline'"; "'unsafe-eval'"; "blob:"]
              (resource ++ extra) []) as (script & -> & Hscript); [by vm_compute|].
  destruct (buildSources_base ["'self'"; "'unsafe-inline'"; "blob:"] resource [])
    as (style & -> & Hstyle); [by vm_compute|].
  destruct (buildSources_base ["'self'"; "data:"; "blob:"] resource [])
    as (img & -> & Himg); [by vm_compute|].
  destruct (buildSources_base ["'self'"]
              (ensureArray (m_connectDomains merged) ++ extra) [])
    as (connect & -> & Hconnect); [by vm_compute|].
  assert (buildSources ["'none'"] [] [] = ["'none'"]) as -> by (by vm_compute).
  exists (rest_of script), (rest_of style), (rest_of img), (rest_of connect).
  split; [|repeat (apply Forall_cons; split; [by apply clean_rest|]); apply Forall_nil_2].
  assert (m_allowForms merged = default false (meta ≫= allowForms)) as <-
    by (by destruct meta).
  rewrite !or_default_cons. cbn [csp map]. rewrite !concat_rest.
  by destruct (m_allowForms merged); cbn [String.concat]; rewrite ?sapp_assoc.
Qed.

(** *** Examples *)

Lemma sanitizeSource_safe_witness :
  sanitizeSource " *.example.com:8080 " = Some "*.example.com:8080"
  ∧ "*.example.com:8080" = trim " *.example.com:8080 "
  ∧ "*.example.com:8080" ≠ ""
  ∧ any_char (λ c, bool_decide (c ∈ [";"; "010"; "013"]%char)) "*.example.com:8080"
    = false
  ∧ sanitizeSource "*.example.com:8080" = Some "*.example.com:8080".
Proof.
  split; [by vm_compute|].
  apply (sanitizeSource_safe " *.example.com:8080 "). by vm_compute.
Defined.

Lemma scheme_lets_anything_through_witness :
  "https://" ∈ ["http://"; "https://"; "ws://"; "wss://"]
  ∧ any_char (λ c, bool_decide (c ∈ [";"; "010"; "013"]%char))
      "cdn.example.com 'unsafe-eval' * " = false
  ∧ sanitizeSource "https://cdn.example.com 'unsafe-eval' * "
    = Some "https://cdn.example.com 'unsafe-eval' *".
Proof.
  assert ("https://" ∈ ["http://"; "https://"; "ws://"; "wss://"]) as Hscheme
    by set_solver.
  split_and!; [done|by vm_compute|].
  apply (scheme_lets_anything_through "https://" "cdn.example.com 'unsafe-eval' * ");
    [done|by vm_compute].
Defined.

End UiCspFacts.

(** ** src/utils/mcpHtmlProxy.ts *)

Module HtmlProxyFacts.
Import Regex RegexFacts HtmlProxy UiCspFacts.

(** *** Escaping *)

(** What one character becomes. *)
Definition escape_char (c : ascii) : string :=
  if bool_decide (c = "&"%char) then "&amp;"
  else if bool_decide (c = quotation_mark) then "&quot;"
  else if bool_decide (c = "<"%char) then "&lt;"
  else if bool_decide (c = ">"%char) then "&gt;"
  else String c "".

Lemma replace_all_app (c : ascii) (replacement s t : string) :
  replace_all c replacement (s +:+ t)
  = replace_all c replacement s +:+ replace_all c replacement t.
Proof.
  induction s as [|a s IH]; [done|]. rewrite sapp_cons. simpl.
  by rewrite IH, sapp_assoc.
Qed.

Lemma replace_all_same (c : ascii) (replacement s : string) :
  replace_all c replacement (String c s) = replacement +:+ replace_all c replacement s.
Proof. simpl. by rewrite bool_decide_eq_true_2. Qed.

Lemma replace_all_other (c a : ascii) (replacement s : string) :
  a ≠ c →
  replace_all c replacement (String a s) = String a (replace_all c replacement s).
Proof. intros Ha. simpl. by rewrite bool_decide_eq_false_2. Qed.

Lemma replace_all_plain (c : ascii) (replacement t s : string) :
  any_char (λ a, bool_decide (a = c)) t = false →
  replace_all c replacement (t +:+ s) = t +:+ replace_all c replacement s.
Proof.
  induction t as [|a t IH]; [done|]. simpl.
  intros [Ha%bool_decide_eq_false Ht]%orb_false_elim.
  by rewrite bool_decide_eq_false_2, IH.
Qed.

Lemma escapeHtmlAttr_cons (c : ascii) (s : string) :
  escapeHtmlAttr (String c s) = escape_char c +:+ escapeHtmlAttr s.
Proof.
  unfold escapeHtmlAttr, escape_char. repeat case_bool_decide; subst.
  - by rewrite replace_all_same, !replace_all_plain.
  - rewrite (replace_all_other "&") by done.
    by rewrite replace_all_same, !replace_all_plain.
  - rewrite (replace_all_other "&"), (replace_all_other quotation_mark) by done.
    by rewrite replace_all_same, !replace_all_plain.
  - rewrite (replace_all_other "&"), (replace_all_other quotation_mark),
      (replace_all_other "<") by done.
    by rewrite replace_all_same.
  - by rewrite (replace_all_other "&"), (replace_all_other quotation_mark),
      (replace_all_other "<"), (replace_all_other ">") by done.
Qed.

Lemma escapeHtmlAttr_app (s t : string) :
  escapeHtmlAttr (s +:+ t) = escapeHtmlAttr s +:+ escapeHtmlAttr t.
Proof.
  induction s as [|c s IH]; [done|].
  by rewrite sapp_cons, !escapeHtmlAttr_cons, IH, sapp_assoc.
Qed.

Lemma escape_char_head (c : ascii) :
  ∃ first rest, escape_char c = String first rest
    ∧ (first = "&"%char ∨ (first = c ∧ rest = ""
                            ∧ c ∉ ["&"%char; quotation_mark; "<"%char; ">"%char])).
Proof.
  unfold escape_char. repeat case_bool_decide; eauto 6.
  eexists _, _. split; [done|]. right. split_and!; [done..|].
  rewrite !elem_of_cons, elem_of_nil. tauto.
Qed.

Lemma escape_char_inj (a b : ascii) (s t : string) :
  escape_char a +:+ s = escape_char b +:+ t → a = b ∧ s = t.
Proof.
  unfold escape_char.
  repeat case_bool_decide; subst; simpl; intros [=]; subst; done.
Qed.

(** X25. [escapeHtmlAttr] leaves no quotation mark, [<] or [>] in the
    value; it works character by character, so it distributes over
    concatenation; and it loses nothing: two values with the same escaped
    text are the same value. *)
Theorem escapeHtmlAttr_safe :
  (∀ value,
     any_char (λ c, bool_decide (c ∈ [quotation_mark; "<"; ">"]%char))
       (escapeHtmlAttr value) = false)
  ∧ (∀ a b, escapeHtmlAttr (a +:+ b) = escapeHtmlAttr a +:+ escapeHtmlAttr b)
  ∧ (∀ a b, escapeHtmlAttr a = escapeHtmlAttr b → a = b).
Proof.
  split_and!.
  - induction value as [|c value IH]; [done|].
    rewrite escapeHtmlAttr_cons, any_char_app, IH, orb_false_r.
    unfold escape_char. repeat case_bool_decide; subst; try done.
    simpl. rewrite orb_false_r. apply bool_decide_eq_false.
    rewrite !elem_of_cons, elem_of_nil. tauto.
  - apply escapeHtmlAttr_app.
  - induction a as [|c a IH]; intros [|d b].
    + done.
    + rewrite escapeHtmlAttr_cons.
      destruct (escape_char_head d) as (first & rest & -> & _). done.
    + rewrite escapeHtmlAttr_cons.
      destruct (escape_char_head c) as (first & rest & -> & _). done.
    + rewrite !escapeHtmlAttr_cons. intros [-> Heq]%escape_char_inj.
      by rewrite (IH b).
Qed.

(** *** The first tag *)

Definition no_gt (s : string) : Prop :=
  any_char (λ c, bool_decide (c = ">"%char)) s = false.

Definition no_dollar (s : string) : Prop :=
  any_char (λ c, bool_decide (c = "$"%char)) s = false.

(** [html] is [b], then a tag [name] written [o] with the attributes [g],
    then [a]; and no tag [name] starts within [b]. *)
Definition first_tag (name html b o g a : string) : Prop :=
  html = b +:+ o +:+ g +:+ ">" +:+ a
  ∧ matches (TextI ("<" +:+ name)) o = true
  ∧ no_gt g
  ∧ ∀ b1 b2, b = b1 +:+ b2 → b2 ≠ "" →
      matches_prefix (tag name) (b2 +:+ o +:+ g +:+ ">" +:+ a) = false.

Lemma strip_i_Some (p s found rest : string) :
  strip_i p s = Some (found, rest) → s = found +:+ rest ∧ Lang (TextI p) found.
Proof.
  revert s found rest. induction p as [|a p IH]; intros s found rest; simpl.
  - intros [= <- <-]. split; [done|constructor].
  - destruct s as [|b s]; [done|]. destruct (same_letter a b) eqn:Hab; [|done].
    destruct (strip_i p s) as [[found' rest']|] eqn:Hs; [|done]. simpl.
    intros [= <- <-]. destruct (IH _ _ _ Hs) as [-> Hfound]. split; [done|].
    apply (Lang_seq _ _ (String b "") found'); [by constructor|done].
Qed.

Lemma strip_i_Lang (p found rest : string) :
  Lang (TextI p) found → strip_i p (found +:+ rest) = Some (found, rest).
Proof.
  revert found. induction p as [|a p IH]; intros found; simpl.
  - by inversion 1.
  - inversion 1 as [| |r1 r2 s1 s2 H1 H2| | | |]; subst.
    inversion H1 as [|q b Hab| | | | |]; subst. rewrite !sapp_cons, sapp_nil_l.
    by rewrite Hab, (IH _ H2).
Qed.

Lemma up_to_gt_Some (s taken rest : string) :
  up_to_gt s = Some (taken, rest) → s = taken +:+ ">" +:+ rest ∧ no_gt taken.
Proof.
  unfold no_gt. revert taken. induction s as [|c s IH]; intros taken; [done|]. simpl.
  case_bool_decide as Hc.
  - intros [= <- <-]. by subst.
  - destruct (up_to_gt s) as [[taken' rest']|]; [|done]. simpl. intros [= <- <-].
    destruct (IH _ eq_refl) as [-> Htaken]. simpl.
    by rewrite bool_decide_eq_false_2, Htaken.
Qed.

Lemma up_to_gt_app (taken rest : string) :
  no_gt taken → up_to_gt (taken +:+ ">" +:+ rest) = Some (taken, rest).
Proof.
  unfold no_gt. induction taken as [|c taken IH]; [done|]. simpl.
  intros [Hc Htaken]%orb_false_elim. by rewrite Hc, IH.
Qed.

Lemma Lang_no_gt (s : string) :
  Lang (Star (Class (λ c, negb (bool_decide (c = ">"%char))))) s → no_gt s.
Proof.
  unfold no_gt. remember (Star _) as r eqn:Hr.
  induction 1 as [| | | | | |a s t Hs _ Ht IH]; try done.
  injection Hr as ->. inversion Hs as [|p c Hc| | | | |]; subst.
  rewrite any_char_app, IH by done. simpl.
  by rewrite (negb_true_iff _ ) in Hc; rewrite Hc.
Qed.

Lemma match_here_prefix (name s : string) :
  match_here name s = None → matches_prefix (tag name) s = false.
Proof.
  intros Hnone. destruct (matches_prefix _ s) eqn:Hs; [|done].
  apply matches_spec in Hs.
  inversion Hs as [| |r1 r2 m a Hm _| | | |]; subst.
  inversion Hm as [| |r1 r2 o ga Ho Hga| | | |]; subst.
  inversion Hga as [| |r1 r2 g gt Hg Hgt| | | |]; subst.
  inversion Hgt as [|p c Hc| | | | |]; subst. apply bool_decide_eq_true in Hc as ->.
  apply Lang_no_gt in Hg. change (Lang (TextI ("<" +:+ name)) o) in Ho.
  revert Hnone. unfold match_here.
  rewrite !sapp_assoc, (strip_i_Lang _ _ _ Ho). simpl.
  by rewrite (up_to_gt_app _ _ Hg).
Qed.

Lemma exec_tag_Some (name s : string) (m : Match) :
  exec_tag name s = Some m →
  ∃ o, first_tag name s (before m) o (group m) (after m)
       ∧ matched m = o +:+ group m +:+ ">".
Proof.
  revert m. induction s as [|c s IH]; intros m.
  - simpl. destruct (match_here name "") as [m'|] eqn:Hhere; [|done].
    unfold match_here in Hhere. by destruct (strip_i _ _) as [[? ?]|].
  - cbn [exec_tag]. destruct (match_here name (String c s)) as [m'|] eqn:Hhere.
    + intros [= <-]. unfold match_here in Hhere.
      destruct (strip_i _ _) as [[o rest]|] eqn:Ho; [|done]. simpl in Hhere.
      destruct (up_to_gt rest) as [[g a]|] eqn:Hg; [|done]. simpl in Hhere.
      injection Hhere as <-. simpl.
      apply strip_i_Some in Ho as [Hs Ho]. apply up_to_gt_Some in Hg as [-> Hg].
      exists o. split; [|done]. split_and!; [done|by apply matches_spec|done|].
      by intros [|? ?] [|? ?].
    + destruct (exec_tag name s) as [m'|]; [|done]. simpl. intros [= <-]. simpl.
      destruct (IH _ eq_refl) as (o & (Hs & Ho & Hg & Hfirst) & Hm).
      exists o. split; [|done]. split_and!; [by rewrite Hs|done..|].
      intros [|c1 b1] b2.
      * rewrite sapp_nil_l. intros <- _. rewrite sapp_cons, <-Hs.
        by apply match_here_prefix.
      * rewrite sapp_cons. intros [= _ Hb] Hb2. by apply (Hfirst b1).
Qed.

Lemma search_split (r : Re) (s : string) :
  search r s = true → ∃ b rest, s = b +:+ rest ∧ matches_prefix r rest = true.
Proof.
  intros Hs%matches_spec.
  inversion Hs as [| |r1 r2 b rest _ Hrest| | | |]; subst.
  exists b, rest. split; [done|]. by apply matches_spec.
Qed.

Lemma exec_tag_None (name s : string) :
  exec_tag name s = None → search (tag name) s = false.
Proof.
  intros Hnone. destruct (search _ s) eqn:Hs; [|done].
  apply search_split in Hs as (b & rest & -> & Hrest). revert Hnone.
  induction b as [|c b IH].
  - rewrite sapp_nil_l. destruct rest; cbn [exec_tag];
      (destruct (match_here name _) eqn:Hhere;
       [done|by rewrite (match_here_prefix _ _ Hhere) in Hrest]).
  - rewrite sapp_cons. cbn [exec_tag]. destruct (match_here name _); [done|].
    destruct (exec_tag name (b +:+ rest)); [done|]. by intros _; apply IH.
Qed.

(** *** Templates *)

Lemma substitute_other (m : Match) (c : ascii) (rest : string) :
  c ≠ "$"%char → substitute m (String c rest) = String c (substitute m rest).
Proof. by destruct c as [[] [] [] [] [] [] [] []]. Qed.

Lemma substitute_plain (m : Match) (text rest : string) :
  no_dollar text → substitute m (text +:+ rest) = text +:+ substitute m rest.
Proof.
  unfold no_dollar. induction text as [|c text IH]; [done|].
  intros [Hc%bool_decide_eq_false Htext]%orb_false_elim.
  by rewrite !sapp_cons, substitute_other, IH.
Qed.

Lemma substitute_text (m : Match) (text : string) :
  no_dollar text → substitute m text = text.
Proof.
  intros Htext. rewrite <-(sapp_nil_r text) at 1.
  by rewrite substitute_plain, sapp_nil_r.
Qed.

Lemma substitute_group (m : Match) (rest : string) :
  substitute m ("$1>" +:+ rest) = group m +:+ ">" +:+ substitute m rest.
Proof.
  change ("$1>" +:+ rest) with (String "$" (String "1" (String ">" rest))).
  by cbn [substitute].
Qed.

(** [result] is [html] with [content] put in on lines of its own: right
    after the first tag that starts with [<head], which is rewritten in
    lower case with its attributes kept; without such a tag, inside a new
    [<head>] element right after the first tag that starts with [<html];
    without that either, inside a new [<head>] element before [html]. *)
Definition inserted (html content result : string) : Prop :=
  if search (tag "head") html
  then ∃ b o g a,
         first_tag "head" html b o g a
         ∧ result = b +:+ "<head" +:+ g +:+ ">" +:+ LF +:+ content +:+ LF +:+ a
  else if search (tag "html") html
  then ∃ b o g a,
         first_tag "html" html b o g a
         ∧ result = b +:+ "<html" +:+ g +:+ ">" +:+ LF +:+ "<head>" +:+ LF
                    +:+ content +:+ LF +:+ "</head>" +:+ a
  else result = "<head>" +:+ LF +:+ content +:+ LF +:+ "</head>" +:+ LF +:+ html.

Lemma replace_tag_inserted (html content : string) :
  no_dollar content →
  inserted html content
    (if search (tag "head") html
     then replace_tag "head" ("<head$1>" +:+ LF +:+ content +:+ LF) html
     else if search (tag "html") html
     then replace_tag "html"
            ("<html$1>" +:+ LF +:+ "<head>" +:+ LF +:+ content +:+ LF +:+ "</head>")
            html
     else "<head>" +:+ LF +:+ content +:+ LF +:+ "</head>" +:+ LF +:+ html).
Proof.
  intros Hplain. unfold inserted.
  destruct (search (tag "head") html) eqn:Hhead.
  - unfold replace_tag. destruct (exec_tag "head" html) as [m|] eqn:Hm;
      [|by rewrite (exec_tag_None _ _ Hm) in Hhead].
    destruct (exec_tag_Some _ _ _ Hm) as (o & Hfirst & _).
    exists (before m), o, (group m), (after m). split; [done|].
    change ("<head$1>" +:+ LF +:+ content +:+ LF)
      with ("<head" +:+ "$1>" +:+ LF +:+ content +:+ LF).
    rewrite (substitute_plain m "<head") by done.
    rewrite substitute_group, (substitute_text m (LF +:+ content +:+ LF)).
    + by rewrite !sapp_assoc.
    + unfold no_dollar in *. by rewrite !any_char_app, Hplain.
  - destruct (search (tag "html") html) eqn:Hhtml; [|done].
    unfold replace_tag. destruct (exec_tag "html" html) as [m|] eqn:Hm;
      [|by rewrite (exec_tag_None _ _ Hm) in Hhtml].
    destruct (exec_tag_Some _ _ _ Hm) as (o & Hfirst & _).
    exists (before m), o, (group m), (after m). split; [done|].
    change ("<html$1>" +:+ LF +:+ "<head>" +:+ LF +:+ content +:+ LF +:+ "</head>")
      with ("<html" +:+ "$1>" +:+ LF +:+ "<head>" +:+ LF +:+ content +:+ LF
            +:+ "</head>").
    rewrite (substitute_plain m "<html") by done.
    rewrite substitute_group,
      (substitute_text m (LF +:+ "<head>" +:+ LF +:+ content +:+ LF +:+ "</head>")).
    + by rewrite !sapp_assoc.
    + unfold no_dollar in *. by rewrite !any_char_app, Hplain.
Qed.

(** X26. [injectIntoHead] with a head content that holds no [$] puts the
    content, unchanged and on lines of its own, right after the first tag
    that starts with [<head] in either case; without such a tag, inside a
    new [<head>] element right after the first tag that starts with
    [<html]; without that either, inside a new [<head>] element before the
    document.  Nothing else of the document changes, and an empty head
    content leaves the document as it is. *)
Theorem injectIntoHead_inserts (html headContent : string) :
  no_dollar headContent →
  (headContent ≠ "" → inserted html headContent (injectIntoHead html headContent))
  ∧ injectIntoHead html "" = html.
Proof.
  intros Hplain. split; [|done]. intros Hne. unfold injectIntoHead.
  rewrite bool_decide_eq_false_2 by done. by apply replace_tag_inserted.
Qed.

(** *** The doctype *)

Lemma search_middle (r : Re) (b m a : string) :
  matches r m = true → search r (b +:+ m +:+ a) = true.
Proof.
  intros Hm%matches_spec. apply matches_spec.
  apply Lang_seq; [apply Lang_anything|]. apply Lang_seq; [done|apply Lang_anything].
Qed.

Lemma search_app_r (r : Re) (s t : string) :
  search r t = true → search r (s +:+ t) = true.
Proof.
  intros Ht%matches_spec. apply matches_spec.
  inversion Ht as [| |r1 r2 b rest _ Hrest| | | |]; subst.
  rewrite <-sapp_assoc. apply Lang_seq; [apply Lang_anything|done].
Qed.

(** X27. [ensureDoctype] returns a document that holds a doctype, in
    either case: the document itself when it holds one already, and
    otherwise the document after one added line.  Applied twice it adds
    nothing more. *)
Theorem ensureDoctype_once (html : string) :
  search (TextI "<!doctype") (ensureDoctype html) = true
  ∧ (ensureDoctype html = html
     ∨ (search (TextI "<!doctype") html = false
        ∧ ensureDoctype html = "<!doctype html>" +:+ LF +:+ html))
  ∧ ensureDoctype (ensureDoctype html) = ensureDoctype html.
Proof.
  assert (search (TextI "<!doctype") ("<!doctype html>" +:+ LF +:+ html) = true) as Hadded.
  { change ("<!doctype html>" +:+ LF +:+ html)
      with ("" +:+ "<!doctype" +:+ " html>" +:+ LF +:+ html).
    by apply search_middle. }
  destruct (search (TextI "<!doctype") html) eqn:Hhas.
  - assert (ensureDoctype html = html) as ->
      by (unfold ensureDoctype; by rewrite Hhas).
    split_and!; [done|by left|]. unfold ensureDoctype. by rewrite Hhas.
  - assert (ensureDoctype html = "<!doctype html>" +:+ LF +:+ html) as ->
      by (unfold ensureDoctype; by rewrite Hhas).
    split_and!; [done|by right|]. unfold ensureDoctype. by rewrite Hadded.
Qed.

(** *** Examples *)

Lemma injectIntoHead_inserts_witness :
  no_dollar "<meta charset=utf-8>"
  ∧ inserted "<html><HEAD lang=en><title>x</title></HEAD></html>"
      "<meta charset=utf-8>"
      (injectIntoHead "<html><HEAD lang=en><title>x</title></HEAD></html>"
         "<meta charset=utf-8>").
Proof.
  split; [by vm_compute|].
  refine (proj1 (injectIntoHead_inserts
                   "<html><HEAD lang=en><title>x</title></HEAD></html>"
                   "<meta charset=utf-8>" _) _); [by vm_compute|done].
Defined.

End HtmlProxyFacts.

(** ** The policy of a resolved resource *)

Module ResourceHtmlFacts.
Import Regex RegexFacts UiCsp HtmlProxy ResourceHtml UiCspFacts HtmlProxyFacts.

Lemma replace_all_gone (c : ascii) (replacement s : string) :
  any_char (λ a, bool_decide (a = c)) replacement = false →
  any_char (λ a, bool_decide (a = c)) (replace_all c replacement s) = false.
Proof.
  intros Hreplacement. induction s as [|a s IH]; [done|]. simpl.
  rewrite any_char_app, IH, orb_false_r. case_bool_decide as Ha; [done|].
  simpl. by rewrite bool_decide_eq_false_2.
Qed.

Lemma replace_all_keeps (p : ascii → bool) (c : ascii) (replacement s : string) :
  any_char p replacement = false → any_char p s = false →
  any_char p (replace_all c replacement s) = false.
Proof.
  intros Hreplacement. induction s as [|a s IH]; [done|]. simpl.
  intros [Ha Hs]%orb_false_elim. rewrite any_char_app, IH, orb_false_r by done.
  case_bool_decide; [done|]. simpl. by rewrite Ha.
Qed.



End ResourceHtmlFacts.

(** ** The connector's [RequestEvents] *)

Module RequestEventsFacts.
Import RequestEvents.

Lemma callbackOf_new (options : Options) (eventType : string) :
  callbackOf (new options) eventType = None.
Proof. unfold callbackOf. by repeat case_bool_decide. Qed.

Lemma elem_of_pushed (callback : option Callback) (name eventType : string) :
  eventType ∈ pushed callback name ↔ eventType = name ∧ is_Some callback.
Proof.
  destruct callback as [callback|]; simpl.
  - rewrite list_elem_of_singleton. split; [eauto|]. by intros [-> _].
  - rewrite elem_of_nil, is_Some_alt. tauto.
Qed.


End RequestEventsFacts.

(** ** src/utils/mcpHtmlProxy.ts: the proxy URL *)

Module ProxyUrlFacts.
Import RegexFacts UiCspFacts ProxyUrl.

(** What an encoded text is made of. *)
Definition encoded_char (c : ascii) : bool :=
  unreserved c || bool_decide (c = "%"%char).

Definition hex_value (c : ascii) : nat :=
  let n := nat_of_ascii c in if bool_decide (n < 58) then n - 48 else n - 55.

(** The code unit at the head of an encoded text, and the rest. *)
Definition decode_unit (s : string) : option (ascii * string) :=
  match s with
  | String "%" (String h1 (String h2 rest)) =>
      let octet := 16 * hex_value h1 + hex_value h2 in
      if bool_decide (octet < 128) then Some (ascii_of_nat octet, rest)
      else
        match rest with
        | String "%" (String h3 (String h4 rest')) =>
            Some (ascii_of_nat ((octet - 192) * 64 + (16 * hex_value h3 + hex_value h4 - 128)),
                  rest')
        | _ => None
        end
  | String c rest => Some (c, rest)
  | EmptyString => None
  end.

Lemma decode_encode_unit (c : ascii) (rest : string) :
  decode_unit (encode_unit c +:+ rest) = Some (c, rest).
Proof. by destruct c as [[] [] [] [] [] [] [] []]. Qed.

Lemma encode_unit_chars (c : ascii) :
  any_char (λ a, negb (encoded_char a)) (encode_unit c) = false.
Proof. by destruct c as [[] [] [] [] [] [] [] []]; vm_compute. Qed.

Lemma encodeURIComponent_chars (s : string) :
  any_char (λ a, negb (encoded_char a)) (encodeURIComponent s) = false.
Proof.
  induction s as [|c s IH]; [done|]. simpl.
  by rewrite any_char_app, encode_unit_chars, IH.
Qed.

Lemma encodeURIComponent_inj (s t : string) :
  encodeURIComponent s = encodeURIComponent t → s = t.
Proof.
  revert t. induction s as [|c s IH]; intros [|d t]; simpl.
  - done.
  - intros Heq. pose proof (decode_encode_unit d (encodeURIComponent t)) as Hd.
    by rewrite <-Heq in Hd.
  - intros Heq. pose proof (decode_encode_unit c (encodeURIComponent s)) as Hc.
    by rewrite Heq in Hc.
  - intros Heq. pose proof (decode_encode_unit c (encodeURIComponent s)) as Hc.
    rewrite Heq, decode_encode_unit in Hc. injection Hc as -> Hrest.
    by rewrite (IH t).
Qed.

Lemma split_at_slash (s s' t t' : string) :
  any_char (λ a, negb (encoded_char a)) s = false →
  any_char (λ a, negb (encoded_char a)) s' = false →
  s +:+ "/" +:+ t = s' +:+ "/" +:+ t' → s = s' ∧ t = t'.
Proof.
  revert s'. induction s as [|c s IH]; intros [|c' s'];
    rewrite ?sapp_cons, ?sapp_nil_l; simpl.
  - by intros _ _ [= Heq].
  - intros _ [Hc _]%orb_false_elim [= <- _]. done.
  - intros [Hc _]%orb_false_elim _ [= -> _]. done.
  - intros [_ Hs]%orb_false_elim [_ Hs']%orb_false_elim [= -> Heq].
    by destruct (IH s' Hs Hs' Heq) as [-> ->].
Qed.

Lemma sapp_inj_l (s t t' : string) : s +:+ t = s +:+ t' → t = t'.
Proof. induction s as [|c s IH]; [done|]. rewrite !sapp_cons. intros [= ?]. auto. Qed.

(** X29. The proxy URL is the origin, one path segment for the flow id
    and one query value for the resource: both are written with letters,
    digits, [- _ . ! ~ * ' ( )] and [%] only, so neither can add a path
    segment, a parameter or a fragment.  [encodeURIComponent] loses
    nothing, so for one origin two URLs are the same only when the
    resources are the same and the flow ids are the same (an empty flow id
    counting as [unknown]). *)
Theorem proxy_url_unambiguous (options : McpProxyUrlOptions) :
  (∃ segment query,
     buildMcpProxyUrl options
     = or_string (origin options) "https://mcp-app-proxy.botdojo.com"
       +:+ "/" +:+ segment +:+ "/?url=" +:+ query
     ∧ any_char (λ c, negb (encoded_char c)) segment = false
     ∧ any_char (λ c, negb (encoded_char c)) query = false)
  ∧ (∀ s t, encodeURIComponent s = encodeURIComponent t → s = t)
  ∧ (∀ options',
       or_string (origin options') "https://mcp-app-proxy.botdojo.com"
       = or_string (origin options) "https://mcp-app-proxy.botdojo.com" →
       buildMcpProxyUrl options' = buildMcpProxyUrl options →
       resource options' = resource options
       ∧ or_string (Some (flowId options')) "unknown"
         = or_string (Some (flowId options)) "unknown").
Proof.
  split_and!.
  - eexists _, _. split; [done|]. split; apply encodeURIComponent_chars.
  - apply encodeURIComponent_inj.
  - intros options' Horigin. unfold buildMcpProxyUrl. rewrite Horigin.
    intros Heq%sapp_inj_l%sapp_inj_l.
    apply (split_at_slash _ _ ("?url=" +:+ _) ("?url=" +:+ _)) in Heq
      as [Hflow Hresource%sapp_inj_l]; [|apply encodeURIComponent_chars..].
    apply encodeURIComponent_inj in Hflow. apply encodeURIComponent_inj in Hresource.
    split; [|done]. revert Hresource. unfold or_string.
    repeat case_bool_decide; congruence.
Qed.

End ProxyUrlFacts.

(** ** src/utils/mcpHtmlProxy.ts: the cache key *)

Module CacheKeyFacts.
Import RegexFacts UiCsp UiCspFacts HtmlProxy HtmlProxyFacts ProxyUrl CacheKey.

#[local] Ltac Zify.zify_post_hook ::= Z.to_euclidean_division_equations.

(** *** Octets *)

Lemma list_ind3 {A} (P : list A → Prop) :
  P [] → (∀ a, P [a]) → (∀ a b, P [a; b]) →
  (∀ a b c rest, P rest → P (a :: b :: c :: rest)) →
  ∀ l, P l.
Proof.
  intros H0 H1 H2 H3 l.
  assert (P l ∧ (∀ a, P (a :: l)) ∧ ∀ a b, P (a :: b :: l)) as [? _]; [|done].
  induction l as [|c l (IH0 & IH1 & IH2)]; [done|].
  split_and!; [done|done|]. intros a b. by apply H3.
Qed.

Definition utf8_unit (c : ascii) : list nat :=
  let n := nat_of_ascii c in
  if bool_decide (n < 128) then [n] else [192 + n / 64; 128 + n mod 64].

(** The code unit at the head of a list of octets, and the rest. *)
Definition utf8_head (octets : list nat) : option (ascii * list nat) :=
  match octets with
  | first :: rest =>
      if bool_decide (first < 128) then Some (ascii_of_nat first, rest)
      else
        match rest with
        | second :: rest' =>
            Some (ascii_of_nat ((first - 192) * 64 + (second - 128)), rest')
        | [] => None
        end
  | [] => None
  end.

Lemma utf8_head_unit (c : ascii) (rest : list nat) :
  utf8_head (utf8_unit c ++ rest) = Some (c, rest).
Proof. by destruct c as [[] [] [] [] [] [] [] []]. Qed.

Lemma utf8_unit_octets (c : ascii) : Forall (λ octet, octet < 256) (utf8_unit c).
Proof.
  by destruct c as [[] [] [] [] [] [] [] []]; apply (bool_decide_unpack _); vm_compute.
Qed.

Lemma utf8_octets (s : string) : Forall (λ octet, octet < 256) (utf8 s).
Proof.
  induction s as [|c s IH]; [by constructor|].
  change (utf8 (String c s)) with (utf8_unit c ++ utf8 s).
  apply Forall_app. split; [apply utf8_unit_octets|done].
Qed.

Lemma utf8_inj (s t : string) : utf8 s = utf8 t → s = t.
Proof.
  revert t. induction s as [|c s IH]; intros [|d t].
  - done.
  - change (utf8 (String d t)) with (utf8_unit d ++ utf8 t). intros Heq.
    pose proof (utf8_head_unit d (utf8 t)) as Hd. by rewrite <-Heq in Hd.
  - change (utf8 (String c s)) with (utf8_unit c ++ utf8 s). intros Heq.
    pose proof (utf8_head_unit c (utf8 s)) as Hc. by rewrite Heq in Hc.
  - change (utf8 (String c s)) with (utf8_unit c ++ utf8 s).
    change (utf8 (String d t)) with (utf8_unit d ++ utf8 t). intros Heq.
    pose proof (utf8_head_unit c (utf8 s)) as Hc.
    rewrite Heq, utf8_head_unit in Hc. injection Hc as -> Hrest.
    by rewrite (IH t).
Qed.

(** *** Sextets *)

(** What the two replacements make of a character. *)
Definition url_char (c : ascii) : ascii :=
  if bool_decide (c = "+"%char) then "-"%char
  else if bool_decide (c = "/"%char) then "_"%char
  else c.

Definition url_sextet (n : nat) : ascii := url_char (sextet n).

Definition url_alphabet : list ascii := url_char <$> alphabet.

(** The place of a character in the alphabet of the key. *)
Fixpoint index_of (c : ascii) (chars : list ascii) : nat :=
  match chars with
  | c' :: chars => if bool_decide (c = c') then 0 else S (index_of c chars)
  | [] => 0
  end.

Definition unsextet (c : ascii) : nat := index_of c url_alphabet.

Lemma below_64 (P : nat → Prop) :
  Forall P (seq 0 64) → ∀ n, n < 64 → P n.
Proof.
  intros Hall n Hn. rewrite Forall_forall in Hall. apply Hall.
  apply list_elem_of_In, in_seq. lia.
Qed.

Lemma unsextet_url_sextet (n : nat) : n < 64 → unsextet (url_sextet n) = n.
Proof.
  revert n. apply (below_64 (λ n, unsextet (url_sextet n) = n)).
  by apply (bool_decide_unpack _); vm_compute.
Qed.

Lemma sextet_alphabet (n : nat) : sextet n ∈ alphabet.
Proof.
  unfold sextet. destruct (decide (n < length alphabet)) as [Hn|Hn].
  - apply list_elem_of_In, nth_In. done.
  - rewrite nth_overflow by lia. by apply (bool_decide_unpack _); vm_compute.
Qed.

Lemma url_sextet_spec (n : nat) :
  url_sextet n ≠ "="%char ∧ word (url_sextet n) = true.
Proof.
  unfold url_sextet. pose proof (sextet_alphabet n) as Hin. revert Hin.
  generalize (sextet n). apply Forall_forall.
  by apply (bool_decide_unpack _); vm_compute.
Qed.

(** *** The key of octets *)

(** Base64 in the alphabet of the key and without padding. *)
Fixpoint base64url (octets : list nat) : string :=
  match octets with
  | a :: b :: c :: rest =>
      String (url_sextet (a / 4))
        (String (url_sextet (a mod 4 * 16 + b / 16))
           (String (url_sextet (b mod 16 * 4 + c / 64))
              (String (url_sextet (c mod 64)) (base64url rest))))
  | [a; b] =>
      String (url_sextet (a / 4))
        (String (url_sextet (a mod 4 * 16 + b / 16))
           (String (url_sextet (b mod 16 * 4)) ""))
  | [a] =>
      String (url_sextet (a / 4)) (String (url_sextet (a mod 4 * 16)) "")
  | [] => EmptyString
  end.

Fixpoint unbase64url (s : string) : list nat :=
  match s with
  | String c1 (String c2 (String c3 (String c4 rest))) =>
      unsextet c1 * 4 + unsextet c2 / 16
      :: unsextet c2 mod 16 * 16 + unsextet c3 / 4
      :: unsextet c3 mod 4 * 64 + unsextet c4
      :: unbase64url rest
  | String c1 (String c2 (String c3 EmptyString)) =>
      [unsextet c1 * 4 + unsextet c2 / 16;
       unsextet c2 mod 16 * 16 + unsextet c3 / 4]
  | String c1 (String c2 EmptyString) =>
      [unsextet c1 * 4 + unsextet c2 / 16]
  | _ => []
  end.

Fixpoint map_chars (f : ascii → ascii) (s : string) : string :=
  match s with
  | String c s => String (f c) (map_chars f s)
  | EmptyString => EmptyString
  end.

Lemma replace_url_char (s : string) :
  replace_all "/" "_" (replace_all "+" "-" s) = map_chars url_char s.
Proof.
  induction s as [|c s IH]; [done|]. cbn [map_chars]. rewrite <-IH.
  unfold url_char. repeat case_bool_decide; subst.
  - by rewrite replace_all_same, (replace_all_plain "/" "_" "-").
  - by rewrite (replace_all_other "+"), replace_all_same.
  - by rewrite (replace_all_other "+"), (replace_all_other "/").
Qed.

Lemma strip_padding_cons (c : ascii) (s : string) :
  c ≠ "="%char → strip_padding (String c s) = String c (strip_padding s).
Proof.
  intros Hc. simpl. rewrite bool_decide_eq_false_2 by done.
  by destruct (strip_padding s).
Qed.

Lemma url_of_base64 (octets : list nat) :
  strip_padding (replace_all "/" "_" (replace_all "+" "-" (base64 octets)))
  = base64url octets.
Proof.
  rewrite replace_url_char.
  induction octets as [|a|a b|a b c rest IH] using list_ind3.
  - done.
  - cbn [base64 base64url map_chars].
    by rewrite !strip_padding_cons by apply url_sextet_spec.
  - cbn [base64 base64url map_chars].
    by rewrite !strip_padding_cons by apply url_sextet_spec.
  - cbn [base64 base64url map_chars].
    rewrite !strip_padding_cons by apply url_sextet_spec. by rewrite <-IH.
Qed.

Lemma base64url_chars (octets : list nat) :
  any_char (λ c, negb (word c)) (base64url octets) = false.
Proof.
  induction octets as [|a|a b|a b c rest IH] using list_ind3; simpl;
    rewrite ?(proj2 (url_sextet_spec _)); done.
Qed.

Lemma unbase64url_base64url (octets : list nat) :
  Forall (λ octet, octet < 256) octets → unbase64url (base64url octets) = octets.
Proof.
  induction octets as [|a|a b|a b c rest IH] using list_ind3.
  - done.
  - intros [Ha _]%Forall_cons. cbn [base64url unbase64url].
    rewrite !unsextet_url_sextet by lia. f_equal. lia.
  - intros [Ha [Hb _]%Forall_cons]%Forall_cons. cbn [base64url unbase64url].
    rewrite !unsextet_url_sextet by lia. f_equal; [lia|]. f_equal. lia.
  - intros [Ha [Hb [Hc Hrest]%Forall_cons]%Forall_cons]%Forall_cons.
    cbn [base64url unbase64url].
    rewrite !unsextet_url_sextet by lia. rewrite (IH Hrest).
    f_equal; [lia|]. f_equal; [lia|]. f_equal. lia.
Qed.

Lemma toBase64Url_inj (runtime : Runtime) (s t : string) :
  has_btoa runtime || has_Buffer runtime = true →
  toBase64Url runtime s = toBase64Url runtime t → s = t.
Proof.
  intros Hruntime. unfold toBase64Url.
  assert ((if has_btoa runtime then base64 (utf8 s)
           else if has_Buffer runtime then base64 (utf8 s) else "")
          = base64 (utf8 s)) as ->
    by (by destruct (has_btoa runtime), (has_Buffer runtime)).
  assert ((if has_btoa runtime then base64 (utf8 t)
           else if has_Buffer runtime then base64 (utf8 t) else "")
          = base64 (utf8 t)) as ->
    by (by destruct (has_btoa runtime), (has_Buffer runtime)).
  rewrite !url_of_base64. intros Heq. apply utf8_inj.
  rewrite <-(unbase64url_base64url (utf8 s)), <-(unbase64url_base64url (utf8 t))
    by apply utf8_octets.
  by rewrite Heq.
Qed.

(** *** The key of a resource *)

Definition no_bar (s : string) : Prop :=
  any_char (λ c, bool_decide (c = "|"%char)) s = false.

Lemma split_at_bar (s s' t t' : string) :
  no_bar s → no_bar s' → s +:+ "|" +:+ t = s' +:+ "|" +:+ t' → s = s' ∧ t = t'.
Proof.
  unfold no_bar. revert s'. induction s as [|c s IH]; intros [|c' s'];
    rewrite ?sapp_cons, ?sapp_nil_l; simpl.
  - by intros _ _ [= Heq].
  - intros _ [Hc _]%orb_false_elim [= <- _]. done.
  - intros [Hc _]%orb_false_elim _ [= -> _]. done.
  - intros [_ Hs]%orb_false_elim [_ Hs']%orb_false_elim [= -> Heq].
    by destruct (IH s' Hs Hs' Heq) as [-> ->].
Qed.

(** X30. In a runtime that has [btoa] or [Buffer], the cache key is
    written with letters, digits, [-] and [_] only, and two keys are the
    same exactly when the texts they are made from are the same; so
    resources whose flow id and context URI hold no [|] get the same key
    only when flow id (absent or empty counting as [unknown]), context URI
    (absent counting as empty) and resource URI all agree.  In a runtime
    that has neither, every key is empty. *)
Theorem cache_key_collisions (runtime : Runtime) (a b : CacheKeyOptions) :
  if has_btoa runtime || has_Buffer runtime
  then any_char (λ c, negb (word c)) (buildMcpCacheKey runtime a) = false
       ∧ (buildMcpCacheKey runtime a = buildMcpCacheKey runtime b ↔ raw a = raw b)
       ∧ (no_bar (or_string (flowId a) "unknown") →
          no_bar (or_string (flowId b) "unknown") →
          no_bar (or_string (contextResourceUri a) "") →
          no_bar (or_string (contextResourceUri b) "") →
          buildMcpCacheKey runtime a = buildMcpCacheKey runtime b →
          or_string (flowId a) "unknown" = or_string (flowId b) "unknown"
          ∧ or_string (contextResourceUri a) "" = or_string (contextResourceUri b) ""
          ∧ resourceUri a = resourceUri b)
  else buildMcpCacheKey runtime a = "".
Proof.
  destruct (has_btoa runtime || has_Buffer runtime) eqn:Hruntime.
  - assert (buildMcpCacheKey runtime a = buildMcpCacheKey runtime b → raw a = raw b)
      as Hraw by apply toBase64Url_inj, Hruntime.
    split_and!.
    + unfold buildMcpCacheKey, toBase64Url.
      assert ((if has_btoa runtime then base64 (utf8 (raw a))
               else if has_Buffer runtime then base64 (utf8 (raw a)) else "")
              = base64 (utf8 (raw a))) as ->
        by (by destruct (has_btoa runtime), (has_Buffer runtime)).
      rewrite url_of_base64. apply base64url_chars.
    + split; [done|]. unfold buildMcpCacheKey. by intros ->.
    + intros Ha Hb Ha' Hb' Hkey%Hraw. unfold raw in Hkey.
      apply split_at_bar in Hkey as [Hflow Hkey]; [|done..].
      apply split_at_bar in Hkey as [Hcontext Hresource]; [|done..].
      split_and!; [done..|]. revert Hresource. unfold or_string.
      repeat case_bool_decide; congruence.
  - apply orb_false_elim in Hruntime as [Hbtoa HBuffer].
    unfold buildMcpCacheKey, toBase64Url. by rewrite Hbtoa, HBuffer.
Qed.

End CacheKeyFacts.
